(** * add-restaurant: the record-construction pipeline of [scripts/add-restaurant.mjs]

    A shallow embedding of the script: JavaScript strings as sequences of
    UTF-16 code units, the slug normalizer, the JSON values the script reads
    and writes, the lookup loaders, and [main] as a state-and-exception
    computation over the files, the operator's answers and the clock, on a
    host that says how the input ends and which folders can be made. *)

From Stdlib Require Import NArith ZArith List String Ascii Bool Lia DecimalPos.
Import ListNotations.

Local Open Scope N_scope.

(** ** JavaScript strings *)

(** A JavaScript string is a sequence of 16-bit code units. *)
Definition codeunit := N.
Definition jsstring := list codeunit.

(** A literal of the source, written in ASCII. *)
Definition str (s : string) : jsstring :=
  map N_of_ascii (list_ascii_of_string s).

Definition jsstring_eqb (a b : jsstring) : bool :=
  if list_eq_dec N.eq_dec a b then true else false.

Definition in_range (lo hi c : codeunit) : bool := (lo <=? c) && (c <=? hi).

Definition is_ascii (c : codeunit) : bool := c <? 128.
Definition is_upper (c : codeunit) : bool := in_range 65 90 c.
Definition is_lower (c : codeunit) : bool := in_range 97 122 c.
Definition is_digit (c : codeunit) : bool := in_range 48 57 c.
Definition is_hyphen (c : codeunit) : bool := c =? 45.

(** [WhiteSpace] and [LineTerminator] of ECMAScript, what [trim] removes:
    TAB LF VT FF CR, SPACE, NBSP, U+1680, U+2000..U+200A, U+2028, U+2029,
    U+202F, U+205F, U+3000 and U+FEFF. *)
Definition is_whitespace (c : codeunit) : bool :=
  in_range 9 13 c || (c =? 32) || (c =? 160) || (c =? 5760)
  || in_range 8192 8202 c || (c =? 8232) || (c =? 8233) || (c =? 8239)
  || (c =? 8287) || (c =? 12288) || (c =? 65279).

Fixpoint dropWhile (p : codeunit -> bool) (s : jsstring) : jsstring :=
  match s with
  | [] => []
  | c :: s' => if p c then dropWhile p s' else s
  end.

(** The longest prefix of [s] that does not end with a code unit of [p]. *)
Fixpoint dropWhileEnd (p : codeunit -> bool) (s : jsstring) : jsstring :=
  match s with
  | [] => []
  | c :: s' =>
      match dropWhileEnd p s' with
      | [] => if p c then [] else [c]
      | t => c :: t
      end
  end.

(** [String.prototype.trim]. *)
Definition trim (s : jsstring) : jsstring :=
  dropWhileEnd is_whitespace (dropWhile is_whitespace s).

(** [s.replace(/[C]+/g, rep)]: every maximal run of code units of the class
    [p] is replaced by [rep]. [in_run] tells that the code unit before [s]
    belongs to a run whose replacement is already written. *)
Fixpoint replace_runs_from (p : codeunit -> bool) (rep : jsstring)
  (in_run : bool) (s : jsstring) : jsstring :=
  match s with
  | [] => []
  | c :: s' =>
      if p c then
        (if in_run then [] else rep) ++ replace_runs_from p rep true s'
      else c :: replace_runs_from p rep false s'
  end.

Definition replace_runs (p : codeunit -> bool) (rep s : jsstring) : jsstring :=
  replace_runs_from p rep false s.

(** [s.replace(/[C]/g, rep)]: every code unit of the class is replaced. *)
Definition replace_each (p : codeunit -> bool) (rep s : jsstring) : jsstring :=
  flat_map (fun c => if p c then rep else [c]) s.

(** ASCII lower-casing of one code unit. *)
Definition ascii_lower (c : codeunit) : codeunit :=
  if is_upper c then c + 32 else c.

(** The two Unicode operations of the engine that [slugify] calls. Their
    tables are the engine's; the development relies on what they do on
    ASCII only: [toLowerCase] maps A-Z to a-z and [normalize("NFKD")] leaves
    an ASCII string as it is. *)
Class Unicode := {
  toLowerCase : jsstring -> jsstring;
  normalizeNFKD : jsstring -> jsstring;
  toLowerCase_ascii :
    forall s, forallb is_ascii s = true -> toLowerCase s = map ascii_lower s;
  normalizeNFKD_ascii :
    forall s, forallb is_ascii s = true -> normalizeNFKD s = s
}.

(** ** The slug normalizer *)

(** ['] and U+2019, the class of [/['’]/]. *)
Definition is_apostrophe (c : codeunit) : bool := (c =? 39) || (c =? 8217).
Definition is_ampersand (c : codeunit) : bool := c =? 38.
(** [[a-z0-9]] and its complement, the class of [/[^a-z0-9]+/]. *)
Definition is_slug_alnum (c : codeunit) : bool := is_lower c || is_digit c.
Definition not_slug_alnum (c : codeunit) : bool := negb (is_slug_alnum c).

(** [s.replace(/^-+|-+$/g, "")]: without the [m] flag [^] matches at index 0
    only and [$] at the end only, so the matches are the leading run of
    hyphens and the trailing one. *)
Definition strip_hyphens (s : jsstring) : jsstring :=
  dropWhileEnd is_hyphen (dropWhile is_hyphen s).

(** [slugify(str)], lines 13-23. [String(str || "")] is [str] itself for a
    string argument, and every caller passes a string. *)
Definition slugify `{Unicode} (s : jsstring) : jsstring :=
  let s := trim s in
  let s := toLowerCase s in
  let s := normalizeNFKD s in
  let s := replace_each is_apostrophe [] s in
  let s := replace_each is_ampersand (str " and ") s in
  let s := replace_runs not_slug_alnum (str "-") s in
  let s := strip_hyphens s in
  replace_runs is_hyphen (str "-") s.

(** The shape of a slug: lowercase ASCII letters, digits and hyphens, no
    hyphen first or last, no two hyphens in a row. *)
Definition is_slug_char (c : codeunit) : bool := is_slug_alnum c || is_hyphen c.

Definition starts_with_hyphen (s : jsstring) : bool :=
  match s with
  | [] => false
  | c :: _ => is_hyphen c
  end.

Fixpoint ends_with_hyphen (s : jsstring) : bool :=
  match s with
  | [] => false
  | [c] => is_hyphen c
  | _ :: s' => ends_with_hyphen s'
  end.

Fixpoint has_double_hyphen (s : jsstring) : bool :=
  match s with
  | [] => false
  | c :: s' => (is_hyphen c && starts_with_hyphen s') || has_double_hyphen s'
  end.

Definition slug_shaped (s : jsstring) : Prop :=
  forallb is_slug_char s = true
  /\ starts_with_hyphen s = false
  /\ ends_with_hyphen s = false
  /\ has_double_hyphen s = false.

Definition nonempty (s : jsstring) : bool :=
  match s with
  | [] => false
  | _ :: _ => true
  end.

(** The decimal digits of a numeral. *)
Fixpoint uint_digits (d : Decimal.uint) : jsstring :=
  match d with
  | Decimal.Nil => []
  | Decimal.D0 d => 48 :: uint_digits d
  | Decimal.D1 d => 49 :: uint_digits d
  | Decimal.D2 d => 50 :: uint_digits d
  | Decimal.D3 d => 51 :: uint_digits d
  | Decimal.D4 d => 52 :: uint_digits d
  | Decimal.D5 d => 53 :: uint_digits d
  | Decimal.D6 d => 54 :: uint_digits d
  | Decimal.D7 d => 55 :: uint_digits d
  | Decimal.D8 d => 56 :: uint_digits d
  | Decimal.D9 d => 57 :: uint_digits d
  end.

(** ** JSON values *)

(** Numbers are the engine's IEEE doubles. The script never computes with a
    number of a table or of the store: it tests one for truth, writes it
    and reads it, so these three operations are all the development takes
    from the engine. *)
Class Numbers := {
  number : Type;
  (** [Boolean(n)]: false for [+0], [-0] and [NaN]. *)
  number_truthy : number -> bool;
  (** What [JSON.stringify] writes for [n]. *)
  number_json : number -> jsstring;
  (** The value of a JSON number literal. *)
  number_of_literal : jsstring -> number
}.

Section Values.
Context `{Numbers}.

(** What [JSON.parse] returns. The members of an object are listed in the
    order in which the engine enumerates them. *)
Unset Elimination Schemes.
Inductive value : Type :=
| VNull
| VBool (b : bool)
| VNum (n : number)
| VStr (s : jsstring)
| VArr (items : list value)
| VObj (members : list (jsstring * value)).
Set Elimination Schemes.

Fixpoint lookup (k : jsstring) (members : list (jsstring * value)) : option value :=
  match members with
  | [] => None
  | (k', v) :: rest => if jsstring_eqb k k' then Some v else lookup k rest
  end.

(** [a?.k] for one of the names the script reads ([key], [id], [slug],
    [name]): [None] is [undefined]. Only an object has such a property;
    [null] short-circuits, and the prototypes of strings, numbers, booleans
    and arrays have none of these names. *)
Definition member (a : value) (k : jsstring) : option value :=
  match a with
  | VObj members => lookup k members
  | _ => None
  end.

(** [x ?? y]. *)
Definition coalesce (x y : option value) : option value :=
  match x with
  | None | Some VNull => y
  | Some _ => x
  end.

(** [Boolean(v)]. *)
Definition truthy (v : value) : bool :=
  match v with
  | VNull => false
  | VBool b => b
  | VNum n => number_truthy n
  | VStr [] => false
  | VStr (_ :: _) => true
  | VArr _ | VObj _ => true
  end.

(** [xs.filter(Boolean)] over values that may be [undefined]. *)
Fixpoint filter_truthy (xs : list (option value)) : list value :=
  match xs with
  | [] => []
  | Some v :: rest => if truthy v then v :: filter_truthy rest else filter_truthy rest
  | None :: rest => filter_truthy rest
  end.

(** [ToString(v)] returns: what [xs.join(", ")] needs of each element of
    [xs] that is not [null]. A primitive has a string; an array is joined,
    element by element; an object is converted by the first callable of
    its [toString] and [valueOf] that returns a primitive. With no member
    [toString] of its own the object inherits [Object.prototype.toString]
    and is [[object Object]]; a member [toString] of its own is a JSON
    value, which is not callable, and [valueOf] (its own: not callable;
    inherited: it returns the object) gives no primitive: a [TypeError]. *)
Fixpoint printable (v : value) : bool :=
  match v with
  | VArr items => forallb printable items
  | VObj members =>
      match lookup (str "toString") members with
      | Some _ => false
      | None => true
      end
  | _ => true
  end.

(** ** The lookup loaders *)

(** [extractAreaKeys(areasJson)], lines 42-48. *)
Definition extractAreaKeys (areasJson : value) : list value :=
  match areasJson with
  | VArr items =>
      filter_truthy
        (map (fun a =>
                coalesce
                  (coalesce (coalesce (member a (str "key")) (member a (str "id")))
                     (member a (str "slug")))
                  (Some VNull))
           items)
  | _ => []
  end.

(** [extractCuisineNames(cuisinesJson)], lines 50-57. *)
Definition extractCuisineNames (cuisinesJson : value) : list value :=
  match cuisinesJson with
  | VArr items =>
      match items with
      | VStr _ :: _ => items
      | _ =>
          filter_truthy
            (map (fun c =>
                    coalesce
                      (coalesce (coalesce (member c (str "name")) (member c (str "key")))
                         (member c (str "id")))
                      (Some VNull))
               items)
      end
  | _ => []
  end.

End Values.

Arguments value {_}.

Section ValueInduction.
Context `{Numbers}.
Variable P : value -> Prop.
Hypothesis Hnull : P VNull.
Hypothesis Hbool : forall b, P (VBool b).
Hypothesis Hnum : forall n, P (VNum n).
Hypothesis Hstr : forall s, P (VStr s).
Hypothesis Harr : forall items, Forall P items -> P (VArr items).
Hypothesis Hobj :
  forall members, Forall (fun kv => P (snd kv)) members -> P (VObj members).

(** Induction over a value, with the hypothesis for every item of an array
    and every member of an object. *)
Fixpoint value_ind (v : value) : P v :=
  match v with
  | VNull => Hnull
  | VBool b => Hbool b
  | VNum n => Hnum n
  | VStr s => Hstr s
  | VArr items =>
      Harr items
        ((fix all (l : list value) : Forall P l :=
            match l with
            | [] => Forall_nil _
            | x :: l' => Forall_cons x (value_ind x) (all l')
            end) items)
  | VObj members =>
      Hobj members
        ((fix all (l : list (jsstring * value)) : Forall (fun kv => P (snd kv)) l :=
            match l with
            | [] => Forall_nil _
            | kv :: l' =>
                Forall_cons (P := fun kv => P (snd kv)) kv (value_ind (snd kv)) (all l')
            end) members)
  end.

End ValueInduction.

(** ** Two engines for the examples *)

(** An engine whose Unicode tables stop at ASCII. *)
Definition ascii_unicode : Unicode := {|
  toLowerCase := map ascii_lower;
  normalizeNFKD := fun s => s;
  toLowerCase_ascii := fun s _ => eq_refl;
  normalizeNFKD_ascii := fun s _ => eq_refl
|}.

(** The exponent of a number literal, when it has one that is not
    negative. *)
Fixpoint literal_exponent (lit : jsstring) : option N :=
  match lit with
  | [] => None
  | c :: rest =>
      if (c =? 101) || (c =? 69) then
        match rest with
        | 45 :: _ => None
        | 43 :: digits => Some (fold_left (fun acc d => 10 * acc + (d - 48)) digits 0)
        | digits => Some (fold_left (fun acc d => 10 * acc + (d - 48)) digits 0)
        end
      else literal_exponent rest
  end.

(** The digits of a number literal before its fraction and its exponent. *)
Fixpoint literal_integer (lit : jsstring) : jsstring :=
  match lit with
  | [] => []
  | c :: rest =>
      if (c =? 46) || (c =? 101) || (c =? 69) then []
      else if c =? 45 then literal_integer rest
      else c :: literal_integer rest
  end.

(** A literal that is beyond the doubles for sure: at least [1e309] in
    magnitude. *)
Definition literal_overflows (lit : jsstring) : bool :=
  existsb (in_range 49 57) (literal_integer lit)
  && match literal_exponent lit with
     | Some e => 309 <=? e
     | None => false
     end.

(** The numbers of the examples: a number is the literal it was read from,
    or an infinity when that literal overflows, as [1e400] does. *)
Inductive example_number : Type :=
| Finite (literal : jsstring)
| Infinity (negative : bool).

(** A finite number is true when a digit of its mantissa is not 0, and is
    written as its literal; an infinity is true, and [JSON.stringify] writes
    [null] for it. *)
Definition literal_numbers : Numbers := {|
  number := example_number;
  number_truthy := fun n =>
    match n with
    | Finite lit =>
        existsb (in_range 49 57)
          (fold_right (fun c acc => if (c =? 101) || (c =? 69) then [] else c :: acc)
             [] lit)
    | Infinity _ => true
    end;
  number_json := fun n =>
    match n with
    | Finite lit => lit
    | Infinity _ => str "null"
    end;
  number_of_literal := fun lit =>
    if literal_overflows lit then
      Infinity (match lit with 45 :: _ => true | _ => false end)
    else Finite lit
|}.

(** ** JSON text: [JSON.stringify(data, null, 2)] *)

Definition is_high_surrogate (c : codeunit) : bool := in_range 55296 56319 c.
Definition is_low_surrogate (c : codeunit) : bool := in_range 56320 57343 c.

(** A hexadecimal digit, lower case. *)
Definition hex_digit (d : N) : codeunit := if d <? 10 then 48 + d else 87 + d.

(** [UnicodeEscape]: a backslash, [u] and four hexadecimal digits. *)
Definition unicode_escape (c : codeunit) : jsstring :=
  [92; 117; hex_digit ((c / 4096) mod 16); hex_digit ((c / 256) mod 16);
   hex_digit ((c / 16) mod 16); hex_digit (c mod 16)].

(** One code unit that is no surrogate, as [QuoteJSONString] writes it. *)
Definition quote_unit (c : codeunit) : jsstring :=
  if c =? 8 then [92; 98]
  else if c =? 9 then [92; 116]
  else if c =? 10 then [92; 110]
  else if c =? 12 then [92; 102]
  else if c =? 13 then [92; 114]
  else if c =? 34 then [92; 34]
  else if c =? 92 then [92; 92]
  else if c <? 32 then unicode_escape c
  else [c].

(** The code points of a string: a high surrogate followed by a low one is
    one code point and is written as it is, a surrogate on its own is
    escaped. *)
Fixpoint quote_units (s : jsstring) : jsstring :=
  match s with
  | [] => []
  | c :: s' =>
      if is_high_surrogate c then
        match s' with
        | d :: s'' =>
            if is_low_surrogate d then c :: d :: quote_units s''
            else unicode_escape c ++ quote_units s'
        | [] => unicode_escape c
        end
      else if is_low_surrogate c then unicode_escape c ++ quote_units s'
      else quote_unit c ++ quote_units s'
  end.

Definition QuoteJSONString (s : jsstring) : jsstring :=
  34 :: quote_units s ++ [34].

(** [parts.join(sep)] of the serializer. *)
Fixpoint join (sep : jsstring) (parts : list jsstring) : jsstring :=
  match parts with
  | [] => []
  | [p] => p
  | p :: rest => p ++ sep ++ join sep rest
  end.

(** The gap of [JSON.stringify(data, null, 2)]: two spaces. *)
Definition gap : jsstring := str "  ".

Section Stringify.
Context `{Numbers}.

(** [SerializeJSONProperty] with its [SerializeJSONArray] and
    [SerializeJSONObject], for the gap of two spaces. No value here is
    [undefined] or a function, so no member is left out. *)
Fixpoint SerializeJSONProperty (indent : jsstring) (v : value) : jsstring :=
  match v with
  | VNull => str "null"
  | VBool true => str "true"
  | VBool false => str "false"
  | VNum n => number_json n
  | VStr s => QuoteJSONString s
  | VArr [] => str "[]"
  | VArr items =>
      let stepback := indent in
      let indent := indent ++ gap in
      str "[" ++ [10] ++ indent
      ++ join ([44; 10] ++ indent) (map (SerializeJSONProperty indent) items)
      ++ [10] ++ stepback ++ str "]"
  | VObj [] => str "{}"
  | VObj members =>
      let stepback := indent in
      let indent := indent ++ gap in
      str "{" ++ [10] ++ indent
      ++ join ([44; 10] ++ indent)
           (map (fun kv =>
                   QuoteJSONString (fst kv) ++ str ": "
                   ++ SerializeJSONProperty indent (snd kv))
              members)
      ++ [10] ++ stepback ++ str "}"
  end.

Definition JSON_stringify (v : value) : jsstring := SerializeJSONProperty [] v.

End Stringify.

(** ** JSON text: [JSON.parse] *)

Inductive parse_result (A : Type) : Type :=
| Parsed (a : A) (rest : jsstring)
| SyntaxError
| OutOfFuel.
Arguments Parsed {A} a rest.
Arguments SyntaxError {A}.
Arguments OutOfFuel {A}.

Definition parse_map {A B} (f : A -> B) (r : parse_result A) : parse_result B :=
  match r with
  | Parsed a rest => Parsed (f a) rest
  | SyntaxError => SyntaxError
  | OutOfFuel => OutOfFuel
  end.

(** JSON white space: TAB, LF, CR and SPACE. *)
Definition is_json_ws (c : codeunit) : bool :=
  (c =? 9) || (c =? 10) || (c =? 13) || (c =? 32).

Definition skip_ws (s : jsstring) : jsstring := dropWhile is_json_ws s.

Definition hex_value (c : codeunit) : option N :=
  if is_digit c then Some (c - 48)
  else if in_range 97 102 c then Some (c - 87)
  else if in_range 65 70 c then Some (c - 55)
  else None.

(** The character a one-letter escape stands for. *)
Definition simple_escape (e : codeunit) : option codeunit :=
  if e =? 34 then Some 34
  else if e =? 92 then Some 92
  else if e =? 47 then Some 47
  else if e =? 98 then Some 8
  else if e =? 102 then Some 12
  else if e =? 110 then Some 10
  else if e =? 114 then Some 13
  else if e =? 116 then Some 9
  else None.

(** The characters of a JSON string after its opening quote, up to and
    with the closing one. *)
Fixpoint parse_string_chars (s : jsstring) : parse_result jsstring :=
  match s with
  | [] => SyntaxError
  | c :: t =>
      if c =? 34 then Parsed [] t
      else if c =? 92 then
        match t with
        | [] => SyntaxError
        | e :: t' =>
            if e =? 117 then
              match t' with
              | h1 :: h2 :: h3 :: h4 :: t'' =>
                  match hex_value h1, hex_value h2, hex_value h3, hex_value h4 with
                  | Some a, Some b, Some c', Some d =>
                      parse_map (cons (4096 * a + 256 * b + 16 * c' + d))
                        (parse_string_chars t'')
                  | _, _, _, _ => SyntaxError
                  end
              | _ => SyntaxError
              end
            else
              match simple_escape e with
              | Some u => parse_map (cons u) (parse_string_chars t')
              | None => SyntaxError
              end
        end
      else if c <? 32 then SyntaxError
      else parse_map (cons c) (parse_string_chars t)
  end.

(** The longest prefix of digits, and what follows it. *)
Fixpoint span_digits (s : jsstring) : jsstring * jsstring :=
  match s with
  | c :: t =>
      if is_digit c then let (ds, r) := span_digits t in (c :: ds, r) else ([], s)
  | [] => ([], [])
  end.

(** A JSON number literal at the head of [s], and what follows it: an
    optional minus sign; 0, or a digit from 1 to 9 and any digits; an
    optional fraction, a point and one digit or more; an optional exponent,
    e or E, an optional sign and one digit or more. *)
Definition lex_sign (s : jsstring) : jsstring * jsstring :=
  match s with
  | c :: t => if c =? 45 then ([c], t) else ([], s)
  | [] => ([], [])
  end.

Definition lex_int (s : jsstring) : option (jsstring * jsstring) :=
  match s with
  | c :: t =>
      if c =? 48 then Some ([c], t)
      else if is_digit c then let (ds, r) := span_digits t in Some (c :: ds, r)
      else None
  | [] => None
  end.

Definition lex_frac (s : jsstring) : jsstring * jsstring :=
  match s with
  | c :: t =>
      if c =? 46 then
        match span_digits t with
        | ([], _) => ([], s)
        | (ds, r) => (c :: ds, r)
        end
      else ([], s)
  | [] => ([], [])
  end.

Definition lex_exp (s : jsstring) : jsstring * jsstring :=
  match s with
  | c :: t =>
      if (c =? 101) || (c =? 69) then
        let (sg, t') :=
          match t with
          | d :: u => if (d =? 43) || (d =? 45) then ([d], u) else ([], t)
          | [] => ([], [])
          end in
        match span_digits t' with
        | ([], _) => ([], s)
        | (ds, r) => (c :: sg ++ ds, r)
        end
      else ([], s)
  | [] => ([], [])
  end.

Definition lex_number (s : jsstring) : option (jsstring * jsstring) :=
  let (sg, s1) := lex_sign s in
  match lex_int s1 with
  | None => None
  | Some (int, s2) =>
      let (frac, s3) := lex_frac s2 in
      let (ex, s4) := lex_exp s3 in
      Some (sg ++ int ++ frac ++ ex, s4)
  end.

(** [prefix] at the head of [s]: what follows it. *)
Fixpoint strip_prefix (prefix s : jsstring) : option jsstring :=
  match prefix, s with
  | [], _ => Some s
  | p :: prefix', c :: s' => if p =? c then strip_prefix prefix' s' else None
  | _ :: _, [] => None
  end.

Section Parse.
Context `{Numbers}.

(** *** The members of an object, as the engine keeps them *)

Fixpoint decimal_value (acc : N) (ds : jsstring) : N :=
  match ds with
  | [] => acc
  | d :: ds' => decimal_value (10 * acc + (d - 48)) ds'
  end.

(** The array index a property name denotes, if any: the name is the
    decimal numeral of an integer of at most [2^32 - 2], as [ToString]
    writes it. *)
Definition array_index (k : jsstring) : option N :=
  let i := decimal_value 0 k in
  if nonempty k && forallb is_digit k
     && jsstring_eqb (uint_digits (N.to_uint i)) k
     && (i <? 4294967295)
  then Some i
  else None.

Fixpoint replace_member (k : jsstring) (v : value)
  (members : list (jsstring * value)) : list (jsstring * value) :=
  match members with
  | [] => []
  | (k', v') :: rest =>
      if jsstring_eqb k k' then (k', v) :: rest
      else (k', v') :: replace_member k v rest
  end.

Fixpoint insert_index (i : N) (k : jsstring) (v : value)
  (members : list (jsstring * value)) : list (jsstring * value) :=
  match members with
  | [] => [(k, v)]
  | (k', v') :: rest =>
      match array_index k' with
      | Some j =>
          if i <? j then (k, v) :: members
          else (k', v') :: insert_index i k v rest
      | None => (k, v) :: members
      end
  end.

(** [CreateDataProperty]: a name the object has keeps its place and takes
    the new value; a new name goes among the array indices, which come
    first in ascending order, or else after every other name. *)
Definition define_member (members : list (jsstring * value))
  (k : jsstring) (v : value) : list (jsstring * value) :=
  match lookup k members with
  | Some _ => replace_member k v members
  | None =>
      match array_index k with
      | Some i => insert_index i k v members
      | None => members ++ [(k, v)]
      end
  end.

(** The object an object literal's members make, taken in source order. *)
Definition create_members (source : list (jsstring * value))
  : list (jsstring * value) :=
  fold_left (fun acc kv => define_member acc (fst kv) (snd kv)) source [].

(** *** The parser *)

(** A JSON value at the head of [s], white space before it skipped;
    [parse_elements] reads the elements of an array up to its bracket and
    [parse_members] the members of an object, in source order, up to its
    brace. [fuel] bounds the nesting of the calls. *)
Fixpoint parse_value (fuel : nat) (s : jsstring) {struct fuel}
  : parse_result value :=
  match fuel with
  | O => OutOfFuel
  | S fuel =>
      match skip_ws s with
      | [] => SyntaxError
      | c :: t =>
          if c =? 123 then
            match skip_ws t with
            | [] => SyntaxError
            | c' :: t' =>
                if c' =? 125 then Parsed (VObj []) t'
                else parse_map (fun ms => VObj (create_members ms))
                       (parse_members fuel t)
            end
          else if c =? 91 then
            match skip_ws t with
            | [] => SyntaxError
            | c' :: t' =>
                if c' =? 93 then Parsed (VArr []) t'
                else parse_map VArr (parse_elements fuel t)
            end
          else if c =? 34 then parse_map VStr (parse_string_chars t)
          else
            match strip_prefix (str "null") (c :: t),
                  strip_prefix (str "true") (c :: t),
                  strip_prefix (str "false") (c :: t) with
            | Some rest, _, _ => Parsed VNull rest
            | _, Some rest, _ => Parsed (VBool true) rest
            | _, _, Some rest => Parsed (VBool false) rest
            | None, None, None =>
                match lex_number (c :: t) with
                | Some (lit, rest) => Parsed (VNum (number_of_literal lit)) rest
                | None => SyntaxError
                end
            end
      end
  end

with parse_elements (fuel : nat) (s : jsstring) {struct fuel}
  : parse_result (list value) :=
  match fuel with
  | O => OutOfFuel
  | S fuel =>
      match parse_value fuel s with
      | Parsed v rest =>
          match skip_ws rest with
          | [] => SyntaxError
          | c :: rest' =>
              if c =? 44 then parse_map (cons v) (parse_elements fuel rest')
              else if c =? 93 then Parsed [v] rest'
              else SyntaxError
          end
      | SyntaxError => SyntaxError
      | OutOfFuel => OutOfFuel
      end
  end

with parse_members (fuel : nat) (s : jsstring) {struct fuel}
  : parse_result (list (jsstring * value)) :=
  match fuel with
  | O => OutOfFuel
  | S fuel =>
      match skip_ws s with
      | [] => SyntaxError
      | q :: t =>
          if q =? 34 then
            match parse_string_chars t with
            | Parsed k rest =>
                match skip_ws rest with
                | [] => SyntaxError
                | c :: rest' =>
                    if c =? 58 then
                      match parse_value fuel rest' with
                      | Parsed v rest'' =>
                          match skip_ws rest'' with
                          | [] => SyntaxError
                          | d :: rest3 =>
                              if d =? 44 then
                                parse_map (cons (k, v)) (parse_members fuel rest3)
                              else if d =? 125 then Parsed [(k, v)] rest3
                              else SyntaxError
                          end
                      | SyntaxError => SyntaxError
                      | OutOfFuel => OutOfFuel
                      end
                    else SyntaxError
                end
            | SyntaxError => SyntaxError
            | OutOfFuel => OutOfFuel
            end
          else SyntaxError
      end
  end.

(** [JSON.parse(text)]: one value, white space around it and nothing else;
    [None] is the [SyntaxError] it throws. Twice the length of the text,
    and two, is fuel enough for any text ([parse_value_fuel] below). *)
Definition JSON_parse (text : jsstring) : option value :=
  match parse_value (2 * List.length text + 2) text with
  | Parsed v rest =>
      match skip_ws rest with
      | [] => Some v
      | _ :: _ => None
      end
  | SyntaxError | OutOfFuel => None
  end.

End Parse.

(** ** The collector's helpers *)

(** [s.split(",")]. *)
Fixpoint split_comma (s : jsstring) : list jsstring :=
  match s with
  | [] => [[]]
  | c :: t =>
      if c =? 44 then [] :: split_comma t
      else
        match split_comma t with
        | p :: ps => (c :: p) :: ps
        | [] => [[c]]
        end
  end.

(** [parseList(inputStr)], lines 35-40. *)
Definition parseList (inputStr : jsstring) : list jsstring :=
  filter nonempty (map trim (split_comma inputStr)).

(** [yesNoToBool(s, defaultVal)], lines 73-79. *)
Definition yesNoToBool `{Unicode} (s : jsstring) (defaultVal : bool) : bool :=
  let v := toLowerCase (trim s) in
  if negb (nonempty v) then defaultVal
  else if existsb (jsstring_eqb v) [str "y"; str "yes"; str "true"; str "1"] then true
  else if existsb (jsstring_eqb v) [str "n"; str "no"; str "false"; str "0"] then false
  else defaultVal.

(** [xs.length] as a truth value. *)
Definition nonempty_list {A} (xs : list A) : bool :=
  match xs with
  | [] => false
  | _ :: _ => true
  end.

(** [x || d] for strings. *)
Definition or_else (x d : jsstring) : jsstring := if nonempty x then x else d.

(** [n.toString()] for an integer [n] below [10^21] in magnitude, what
    [Date.now()] returns. *)
Definition integer_toString (n : Z) : jsstring :=
  match Z.to_int n with
  | Decimal.Pos d => uint_digits d
  | Decimal.Neg d => 45 :: uint_digits d
  end.

(** [s.slice(-n)]: the last [n] code units, or all of [s] when it is shorter. *)
Definition slice_last (n : nat) (s : jsstring) : jsstring :=
  skipn (List.length s - n) s.

(** ** The world [main] runs in *)

(** The files the script names. [PhotoFile slug] is
    [ROOT/public/images/restaurants/<slug>/1.jpg]. *)
Inductive path : Type :=
| FILE_RESTAURANTS
| FILE_AREAS
| FILE_CUISINES
| PLACEHOLDER
| PhotoFile (slug : jsstring).

Definition path_eqb (p q : path) : bool :=
  match p, q with
  | FILE_RESTAURANTS, FILE_RESTAURANTS => true
  | FILE_AREAS, FILE_AREAS => true
  | FILE_CUISINES, FILE_CUISINES => true
  | PLACEHOLDER, PLACEHOLDER => true
  | PhotoFile a, PhotoFile b => jsstring_eqb a b
  | _, _ => false
  end.

(** What [main] throws: the rejections of [fs.readFile] and [JSON.parse],
    the errors of its own checks, the [TypeError] of a suggestion that has
    no string (lines 111 and 122), the rejection of a question when the
    terminal's input ends, and the rejection of [fs.mkdir] with its code. *)
Inductive error : Type :=
| ENOENT (p : path)
| JSONSyntaxError
| Error (message : string)
| TypeError
| AbortError
| SystemError (code : string).

(** The questions, in the order of the source. *)
Inductive question : Type :=
| QName
| QSlug (auto : jsstring)
| QAreaKey
| QAddress
| QPrice
| QCuisines
| QVibes
| QGoodFor
| QShortBlurb
| QLongBlurb
| QMustTry
| QWebsite
| QMenuUrl
| QFeatured.

(** Where the lines come from. When a pipe or a file ends, [readline]
    closes and a question that is waiting is never answered: nothing is
    left to run, and the process ends with status 0. When the operator
    ends the input at a terminal (Ctrl-D), [readline] rejects the question
    that is waiting. *)
Inductive stdin_kind : Type :=
| Pipe
| Terminal.

(** The host of a run: where its input comes from, and the code with which
    [fs.mkdir] rejects for the photo folder of a slug ([ENAMETOOLONG] for a
    name the file system has no room for, [ENOTDIR] or [EEXIST] for a file
    in the folder's place), [None] when the folder is made or is there. *)
Class Host := {
  stdin : stdin_kind;
  mkdir_code : jsstring -> option string
}.

Section Main.
Context `{Unicode} `{Numbers} `{Host}.

(** What the script prints, by kind and with the values it shows. *)
Inductive event : Type :=
| Banner
| Asked (q : question)
| SlugExists (slug : jsstring)
| AreaKeysHeader
| AreaKeys (keys : list value)
| UnknownArea (areaKey : jsstring)
| CuisinesHeader
| CuisineSuggestions (names : list value)
| PlaceholderCopied (slug : jsstring)
| PlaceholderMissing (slug : jsstring)
| Added (name slug : jsstring)
| AddFailed (e : error).

(** The files with their text, the photo folders that exist (by slug), the
    lines the operator still has to type, the clock, and what was printed
    (latest first). *)
Record World : Type := {
  files : path -> option jsstring;
  folders : list jsstring;
  answers : list jsstring;
  now : Z;
  console : list event
}.

(** How a computation ends: with a value, with an exception, or at a
    question that is never answered (the input was a pipe and it ended: the
    promise of [rl.question] stays pending and nothing after it runs). *)
Inductive result (A : Type) : Type :=
| Ok (a : A)
| Throw (e : error)
| Pending.
Arguments Ok {A} a.
Arguments Throw {A} e.
Arguments Pending {A}.

Definition M (A : Type) : Type := World -> result A * World.

Definition ret {A} (a : A) : M A := fun w => (Ok a, w).

Definition bind {A B} (m : M A) (k : A -> M B) : M B :=
  fun w =>
    match m w with
    | (Ok a, w') => k a w'
    | (Throw e, w') => (Throw e, w')
    | (Pending, w') => (Pending, w')
    end.

Local Notation "x <- m ;; k" := (bind m (fun x => k))
  (at level 61, m at next level, right associativity).
Local Notation "m ;;; k" := (bind m (fun _ => k))
  (at level 61, right associativity).

Definition throw {A} (e : error) : M A := fun w => (Throw e, w).

Definition log (e : event) : M unit :=
  fun w =>
    (Ok tt,
     {| files := files w; folders := folders w; answers := answers w;
        now := now w; console := e :: console w |}).

(** What a question does when the input has ended. *)
Definition end_of_input {A} : result A :=
  match stdin with
  | Pipe => Pending
  | Terminal => Throw AbortError
  end.

(** [await rl.question(q)]. *)
Definition ask (q : question) : M jsstring :=
  fun w =>
    match answers w with
    | a :: rest =>
        (Ok a,
         {| files := files w; folders := folders w; answers := rest;
            now := now w; console := Asked q :: console w |})
    | [] =>
        (end_of_input,
         {| files := files w; folders := folders w; answers := [];
            now := now w; console := Asked q :: console w |})
    end.

(** [Date.now()]. *)
Definition Date_now : M Z := fun w => (Ok (now w), w).

(** [fs.readFile(file, "utf-8")]. *)
Definition readFile (file : path) : M jsstring :=
  fun w =>
    match files w file with
    | Some text => (Ok text, w)
    | None => (Throw (ENOENT file), w)
    end.

(** [fs.writeFile(file, text, "utf-8")]. *)
Definition writeFile (file : path) (text : jsstring) : M unit :=
  fun w =>
    (Ok tt,
     {| files := fun p => if path_eqb p file then Some text else files w p;
        folders := folders w; answers := answers w; now := now w;
        console := console w |}).

(** [fs.access(file)], as the test it is used for. *)
Definition exists_file (file : path) : M bool :=
  fun w =>
    match files w file with
    | Some _ => (Ok true, w)
    | None => (Ok false, w)
    end.

(** [readJson(file)], lines 25-28. *)
Definition readJson (file : path) : M value :=
  text <- readFile file ;;
  match JSON_parse text with
  | Some v => ret v
  | None => throw JSONSyntaxError
  end.

(** [writeJson(file, data)], lines 30-33. *)
Definition writeJson (file : path) (data : value) : M unit :=
  writeFile file (JSON_stringify data ++ [10]).

(** [ensureDir(dir)] for the photo folder of [slug], lines 59-61: the
    rejection of [fs.mkdir] is not caught. *)
Definition ensureDir (slug : jsstring) : M unit :=
  fun w =>
    match mkdir_code slug with
    | Some code => (Throw (SystemError code), w)
    | None =>
        (Ok tt,
         {| files := files w;
            folders := if existsb (jsstring_eqb slug) (folders w) then folders w
                       else slug :: folders w;
            answers := answers w; now := now w; console := console w |})
    end.

(** [copyPlaceholderIfExists(destFile)], lines 63-71. *)
Definition copyPlaceholderIfExists (destFile : path) : M bool :=
  fun w =>
    match files w PLACEHOLDER with
    | Some image =>
        (Ok true,
         {| files := fun p => if path_eqb p destFile then Some image else files w p;
            folders := folders w; answers := answers w; now := now w;
            console := console w |})
    | None => (Ok false, w)
    end.

(** [set.has(s)] and [array.includes(s)] for a string [s]: an element that
    is the same string. *)
Definition same_string (s : jsstring) (v : value) : bool :=
  match v with
  | VStr s' => jsstring_eqb s s'
  | _ => false
  end.

Definition has_string (xs : list value) (s : jsstring) : bool :=
  existsb (same_string s) xs.

(** [new Set(restaurants.map(r => r?.slug).filter(Boolean))], line 103. *)
Definition existing_slugs (restaurants : list value) : list value :=
  filter_truthy (map (fun r => member r (str "slug")) restaurants).

(** Lines 102-108: the slug made unique. *)
Definition unique_slug (restaurants : list value) (slug : jsstring) : M jsstring :=
  if has_string (existing_slugs restaurants) slug then
    t <- Date_now ;;
    let suffix := slice_last 5 (integer_toString t) in
    let slug := slug ++ str "-" ++ suffix in
    log (SlugExists slug) ;;;
    ret slug
  else ret slug.

(** Lines 111 and 122: the line of suggestions. [xs.join(", ")] converts
    every element to a string and throws where one has none; of an empty
    list nothing is joined. *)
Definition list_suggestions (line : list value -> event) (xs : list value) : M unit :=
  if forallb printable xs then log (line xs) else throw TypeError.

Definition strings (xs : list jsstring) : value := VArr (map VStr xs).

(** The object literal of lines 158-174. *)
Definition make_entry (name slug areaKey address price : jsstring)
  (cuisines vibes goodFor : list jsstring) (shortBlurb longBlurb : jsstring)
  (mustTry : list jsstring) (website menuUrl firstPhotoRel : jsstring)
  (featured : bool) : value :=
  VObj
    [(str "name", VStr name);
     (str "slug", VStr slug);
     (str "areaKey", VStr areaKey);
     (str "address", VStr address);
     (str "price", VStr price);
     (str "cuisines", strings cuisines);
     (str "vibes", strings vibes);
     (str "goodFor", strings goodFor);
     (str "shortBlurb", VStr shortBlurb);
     (str "longBlurb", VStr longBlurb);
     (str "mustTry", strings mustTry);
     (str "website", VStr website);
     (str "menuUrl", VStr menuUrl);
     (str "photos", VArr [VStr firstPhotoRel]);
     (str "featured", VBool featured)].

(** [main()], lines 81-192. [rl.close()] of the [finally] block leaves the
    world as it is. *)
Definition main : M unit :=
  restaurantsJson <- readJson FILE_RESTAURANTS ;;
  restaurants <-
    match restaurantsJson with
    | VArr items => ret items
    | _ => throw (Error "restaurants.json must be a JSON array.")
    end ;;
  areas <- readJson FILE_AREAS ;;
  let areaKeys := extractAreaKeys areas in
  cuisinesJson <- readJson FILE_CUISINES ;;
  let cuisineNames := extractCuisineNames cuisinesJson in
  log Banner ;;;
  answer <- ask QName ;;
  let name := trim answer in
  if negb (nonempty name) then throw (Error "Name is required.") else
  answer <- ask (QSlug (slugify name)) ;;
  let slug := or_else (slugify answer) (slugify name) in
  if negb (nonempty slug) then throw (Error "Could not generate slug.") else
  slug <- unique_slug restaurants slug ;;
  log AreaKeysHeader ;;;
  list_suggestions AreaKeys areaKeys ;;;
  answer <- ask QAreaKey ;;
  let areaKey := trim answer in
  if negb (nonempty areaKey) then throw (Error "areaKey is required.") else
  (if nonempty_list areaKeys && negb (has_string areaKeys areaKey)
   then log (UnknownArea areaKey) else ret tt) ;;;
  answer <- ask QAddress ;;
  let address := or_else (trim answer) [] in
  answer <- ask QPrice ;;
  let price := or_else (trim answer) (str "$$") in
  log CuisinesHeader ;;;
  list_suggestions CuisineSuggestions cuisineNames ;;;
  answer <- ask QCuisines ;;
  let cuisines := parseList answer in
  match cuisines with
  | [] => throw (Error "At least one cuisine is required.")
  | _ :: _ =>
  answer <- ask QVibes ;;
  let vibes := parseList answer in
  answer <- ask QGoodFor ;;
  let goodFor := parseList answer in
  answer <- ask QShortBlurb ;;
  let shortBlurb := or_else (trim answer) [] in
  answer <- ask QLongBlurb ;;
  let longBlurb := or_else (trim answer) [] in
  answer <- ask QMustTry ;;
  let mustTry := parseList answer in
  answer <- ask QWebsite ;;
  let website := or_else (trim answer) [] in
  answer <- ask QMenuUrl ;;
  let menuUrl := or_else (trim answer) [] in
  answer <- ask QFeatured ;;
  let featured := yesNoToBool answer false in
  ensureDir slug ;;;
  let firstPhotoRel := str "/images/restaurants/" ++ slug ++ str "/1.jpg" in
  let firstPhotoAbs := PhotoFile slug in
  present <- exists_file firstPhotoAbs ;;
  (if present then ret tt
   else
     copied <- copyPlaceholderIfExists firstPhotoAbs ;;
     if copied then log (PlaceholderCopied slug) else log (PlaceholderMissing slug)) ;;;
  let entry :=
    make_entry name slug areaKey address price cuisines vibes goodFor
      shortBlurb longBlurb mustTry website menuUrl firstPhotoRel featured in
  writeJson FILE_RESTAURANTS (VArr (restaurants ++ [entry])) ;;;
  log (Added name slug)
  end.

(** How the process ends. *)
Inductive outcome : Type :=
| Exited (status : Z).

(** Lines 194-197: the script. A rejection of [main()] is printed and the
    process exits with status 1. Otherwise the process ends with status 0
    when nothing is left to run: when [main()] is done, and also when it
    waits at a question of a pipe that has ended. *)
Definition script (w : World) : outcome * World :=
  match main w with
  | (Ok _, w') => (Exited 0, w')
  | (Throw e, w') =>
      (Exited 1,
       {| files := files w'; folders := folders w'; answers := answers w';
          now := now w'; console := AddFailed e :: console w' |})
  | (Pending, w') => (Exited 0, w')
  end.

End Main.

Arguments Ok {A} a.
Arguments Throw {A} e.
Arguments Pending {A}.

(** ** What a run commits *)

Section Commit.
Context `{Unicode} `{Numbers} `{Host}.

(** The operator's [i]-th answer, counted from 0 in the order of the
    questions. *)
Definition answer (w : World) (i : nat) : jsstring := nth i (answers w) [].

(** Line 99: the slug before the uniqueness step. *)
Definition candidate_slug (w : World) : jsstring :=
  or_else (slugify (answer w 1)) (slugify (trim (answer w 0))).

(** Lines 104-108: the slug of the record. *)
Definition final_slug (restaurants : list value) (w : World) : jsstring :=
  if has_string (existing_slugs restaurants) (candidate_slug w) then
    candidate_slug w ++ str "-" ++ slice_last 5 (integer_toString (now w))
  else candidate_slug w.

(** Lines 158-174 over the answers: the record [main] appends. *)
Definition collected_entry (restaurants : list value) (w : World) : value :=
  let slug := final_slug restaurants w in
  make_entry (trim (answer w 0)) slug (trim (answer w 2))
    (or_else (trim (answer w 3)) [])
    (or_else (trim (answer w 4)) (str "$$"))
    (parseList (answer w 5)) (parseList (answer w 6)) (parseList (answer w 7))
    (or_else (trim (answer w 8)) []) (or_else (trim (answer w 9)) [])
    (parseList (answer w 10))
    (or_else (trim (answer w 11)) []) (or_else (trim (answer w 12)) [])
    (str "/images/restaurants/" ++ slug ++ str "/1.jpg")
    (yesNoToBool (answer w 13) false).

(** The records of [restaurants.json] in a world: the store [main] starts
    from, and the store it leaves. *)
Definition stored_records (w : World) : option (list value) :=
  match files w FILE_RESTAURANTS with
  | Some text =>
      match JSON_parse text with
      | Some (VArr items) => Some items
      | _ => None
      end
  | None => None
  end.

Definition readable (w : World) (file : path) : bool :=
  match files w file with
  | Some text =>
      match JSON_parse text with
      | Some _ => true
      | None => false
      end
  | None => false
  end.

(** The value of a data file in a world, when the file is there and
    parses. *)
Definition parsed (w : World) (file : path) : option value :=
  match files w file with
  | Some text => JSON_parse text
  | None => None
  end.

(** The suggestions of a table that is there, all of them with a string. *)
Definition suggestions_printable (w : World) (file : path)
  (extract : value -> list value) : bool :=
  match parsed w file with
  | Some table => forallb printable (extract table)
  | None => false
  end.

(** The folder of a slug can be made. *)
Definition mkdir_accepts (slug : jsstring) : bool :=
  match mkdir_code slug with
  | Some _ => false
  | None => true
  end.

(** The input [main] runs to its end on: the three files are there and
    parse, the store is an array, every suggestion of the tables has a
    string, the operator answers the fourteen questions, name, slug, area
    key and cuisines are not empty, and the photo folder can be made. *)
Definition valid_input (w : World) : bool :=
  match stored_records w with
  | Some restaurants =>
      suggestions_printable w FILE_AREAS extractAreaKeys
      && suggestions_printable w FILE_CUISINES extractCuisineNames
      && nonempty_list (skipn 13 (answers w))
      && nonempty (trim (answer w 0))
      && nonempty (candidate_slug w)
      && nonempty (trim (answer w 2))
      && nonempty_list (parseList (answer w 5))
      && mkdir_accepts (final_slug restaurants w)
  | None => false
  end.

(** How [main] ends, read off the input: the first of its steps that
    stops it, in the order of the source. [need n] is a question that is
    the [n]-th. *)
Definition need (n : nat) (w : World) (rest : result unit) : result unit :=
  if (n <=? List.length (answers w))%nat then rest else end_of_input.

Definition check (test : bool) (e : error) (rest : result unit) : result unit :=
  if test then rest else Throw e.

Definition load (w : World) (file : path) (rest : value -> result unit) : result unit :=
  match files w file with
  | Some text =>
      match JSON_parse text with
      | Some v => rest v
      | None => Throw JSONSyntaxError
      end
  | None => Throw (ENOENT file)
  end.

Definition verdict (w : World) : result unit :=
  load w FILE_RESTAURANTS (fun restaurantsJson =>
  match restaurantsJson with
  | VArr restaurants =>
      load w FILE_AREAS (fun areas =>
      load w FILE_CUISINES (fun cuisinesJson =>
      need 1 w
      (check (nonempty (trim (answer w 0))) (Error "Name is required.")
      (need 2 w
      (check (nonempty (candidate_slug w)) (Error "Could not generate slug.")
      (check (forallb printable (extractAreaKeys areas)) TypeError
      (need 3 w
      (check (nonempty (trim (answer w 2))) (Error "areaKey is required.")
      (need 5 w
      (check (forallb printable (extractCuisineNames cuisinesJson)) TypeError
      (need 6 w
      (check (nonempty_list (parseList (answer w 5)))
         (Error "At least one cuisine is required.")
      (need 14 w
      (match mkdir_code (final_slug restaurants w) with
       | Some code => Throw (SystemError code)
       | None => Ok tt
       end))))))))))))))
  | _ => Throw (Error "restaurants.json must be a JSON array.")
  end).

(** A computation that leaves every file as it is. *)
Definition keeps_files {A} (m : M A) : Prop :=
  forall w, files (snd (m w)) = files w.

(** A computation that never throws and never waits. *)
Definition always_ok {A} (m : M A) : Prop :=
  forall w, exists a, fst (m w) = Ok a.

(** A computation that writes no file unless it ends well. *)
Definition writes_only_on_success {A} (m : M A) : Prop :=
  forall w, (exists a, fst (m w) = Ok a) \/ files (snd (m w)) = files w.

End Commit.

(** ** Example worlds *)

(** The host of the examples: the lines come from a pipe, and a folder can
    be made when its name has at most 255 code units. *)
Definition example_host : Host := {|
  stdin := Pipe;
  mkdir_code := fun slug =>
    if (255 <? List.length slug)%nat then Some "ENAMETOOLONG"%string else None
|}.

(** A JSON text written with ['] where the text has a double quote. *)
Definition quoted (s : string) : jsstring :=
  map (fun c => if c =? 39 then 34 else c) (str s).

(** A world with the three data files and a placeholder image, no photo
    yet, and the operator's fourteen answers. *)
Definition example_world (store areas cuisines : option jsstring)
  (typed : list string) (clock : Z) : @World literal_numbers :=
  {| files := fun p =>
       match p with
       | FILE_RESTAURANTS => store
       | FILE_AREAS => areas
       | FILE_CUISINES => cuisines
       | PLACEHOLDER => Some [255; 216; 255; 224]
       | PhotoFile _ => None
       end;
     folders := [];
     answers := map str typed;
     now := clock;
     console := [] |}.

Definition example_store : jsstring :=
  quoted "[{'name':'Crabby Bills','slug':'crabby-bills'},{'name':'Crabby Bills Too','slug':'crabby-bills-12345'}]".

Definition example_areas : jsstring :=
  quoted "[{'key':'fenwick-island','name':'Fenwick Island'}]".

Definition example_cuisines : jsstring := quoted "['Seafood','BBQ']".

(** The answers for a restaurant called Crabby Bill's, with a price tier
    and cuisines to choose. *)
Definition example_answers (price cuisines : string) : list string :=
  ["Crabby Bill's"; ""; "fenwick-island"; "Fenwick Island, DE"; price;
   cuisines; "Casual"; "Groups"; "Crabs by the bay."; ""; "Crab cakes"; "";
   ""; "y"]%string.

(** The records of [example_store]. *)
Definition example_records : list (@value literal_numbers) :=
  [VObj [(str "name", VStr (str "Crabby Bills"));
         (str "slug", VStr (str "crabby-bills"))];
   VObj [(str "name", VStr (str "Crabby Bills Too"));
         (str "slug", VStr (str "crabby-bills-12345"))]].

(** The world of the examples: the operator adds Crabby Bill's at a time
    whose last five digits are 12345. *)
Definition crabby_world (price cuisines : string) : @World literal_numbers :=
  example_world (Some example_store) (Some example_areas) (Some example_cuisines)
    (example_answers price cuisines) 1700000012345.

(** The slugs of the records of a store, [None] where a record has none. *)
Definition slugs_of `{Numbers} (records : list value) : list (option value) :=
  map (fun r => member r (str "slug")) records.

(** ** Values that a write and a read give back *)

Section Canonical.
Context `{Numbers}.

(** What follows a value in the text of [JSON.stringify(data, null, 2)], and
    in [writeJson]'s text: nothing, a line feed or a comma. *)
Definition delimited (rest : jsstring) : Prop :=
  match rest with
  | [] => True
  | c :: _ => c = 10 \/ c = 44
  end.

(** A number that is read back from what is written for it: what
    [JSON.stringify] writes is a number literal and its value is the
    number. In an engine this holds of every finite number but [-0], which
    is written [0]; [NaN] and the infinities are written [null]. *)
Definition number_stable (n : number) : Prop :=
  number_of_literal (number_json n) = n
  /\ forall rest, delimited rest ->
       lex_number (number_json n ++ rest) = Some (number_json n, rest).

(** The values in the engine's form: the members of every object are in
    the order the engine keeps them in, and every number is stable. *)
Unset Elimination Schemes.
Inductive canonical : value -> Prop :=
| canonical_null : canonical VNull
| canonical_bool (b : bool) : canonical (VBool b)
| canonical_num (n : number) : number_stable n -> canonical (VNum n)
| canonical_str (s : jsstring) : canonical (VStr s)
| canonical_arr (items : list value) :
    Forall canonical items -> canonical (VArr items)
| canonical_obj (members : list (jsstring * value)) :
    create_members members = members ->
    Forall (fun kv => canonical (snd kv)) members ->
    canonical (VObj members).
Set Elimination Schemes.

(** The numbers of a value. *)
Fixpoint numbers_of (v : value) : list number :=
  match v with
  | VNum n => [n]
  | VArr items => flat_map numbers_of items
  | VObj members => flat_map (fun kv => numbers_of (snd kv)) members
  | _ => []
  end.

(** Names in the engine's order: the array indices first, ascending, then
    the other names, no name twice. *)
Inductive ordered_names : list jsstring -> Prop :=
| ordered_plain (ks : list jsstring) :
    Forall (fun k => array_index k = None) ks -> NoDup ks -> ordered_names ks
| ordered_index (k : jsstring) (i : N) (ks : list jsstring) :
    array_index k = Some i ->
    (forall k' j, In k' ks -> array_index k' = Some j -> i < j) ->
    ordered_names ks ->
    ordered_names (k :: ks).

End Canonical.

(** ** Vocabulary of the further properties *)

(** A code unit that leaves nothing in a slug: no ASCII letter, no digit
    and no [&]. *)
Definition is_slug_blank (c : codeunit) : bool :=
  negb (is_upper c || is_lower c || is_digit c || is_ampersand c).

(** The two middle steps of [slugify]: runs of other code units become one
    hyphen, and the hyphens at the ends go. *)
Definition hyphenate (s : jsstring) : jsstring :=
  strip_hyphens (replace_runs not_slug_alnum (str "-") s).

(** The same with the hyphens at the end only removed: what follows a
    letter or digit of the slug. *)
Definition hyphenate_rest (s : jsstring) : jsstring :=
  dropWhileEnd is_hyphen (replace_runs not_slug_alnum (str "-") s).

(** Two slugs put together: with a hyphen between them when neither is
    empty. *)
Definition glue (x y : jsstring) : jsstring :=
  match x, y with
  | [], _ => y
  | _, [] => x
  | _, _ => x ++ 45 :: y
  end.

(** What [slugify] does to an ASCII text before the hyphens are made. *)
Definition spell_out (s : jsstring) : jsstring :=
  replace_each is_ampersand (str " and ")
    (replace_each is_apostrophe [] (map ascii_lower s)).

Section Transcript.
Context `{Unicode} `{Numbers} `{Host}.

(** What a run that reaches its end prints, latest first: the report, what
    lines 147-156 say about the photo, the questions with the suggestions
    and their headers before them, the warning of line 115 and the notice
    of line 107. *)
Definition printed (restaurants : list value) (areas cuisinesJson : value)
  (w : World) : list event :=
  let name := trim (answer w 0) in
  let slug := final_slug restaurants w in
  let areaKeys := extractAreaKeys areas in
  let areaKey := trim (answer w 2) in
  [Added name slug]
  ++ match files w (PhotoFile slug) with
     | Some _ => []
     | None =>
         match files w PLACEHOLDER with
         | Some _ => [PlaceholderCopied slug]
         | None => [PlaceholderMissing slug]
         end
     end
  ++ [Asked QFeatured; Asked QMenuUrl; Asked QWebsite; Asked QMustTry;
      Asked QLongBlurb; Asked QShortBlurb; Asked QGoodFor; Asked QVibes;
      Asked QCuisines; CuisineSuggestions (extractCuisineNames cuisinesJson);
      CuisinesHeader; Asked QPrice; Asked QAddress]
  ++ (if nonempty_list areaKeys && negb (has_string areaKeys areaKey)
      then [UnknownArea areaKey] else [])
  ++ [Asked QAreaKey; AreaKeys areaKeys; AreaKeysHeader]
  ++ (if has_string (existing_slugs restaurants) (candidate_slug w)
      then [SlugExists slug] else [])
  ++ [Asked (QSlug (slugify name)); Asked QName; Banner].

End Transcript.

(** The questions among the lines printed. *)
Fixpoint asked `{Numbers} (printed : list event) : list question :=
  match printed with
  | [] => []
  | Asked q :: rest => q :: asked rest
  | _ :: rest => asked rest
  end.



(** The lines of the examples with white space around each of them. *)
Definition padded (typed : list string) : list string :=
  map (fun a => (" " ++ a ++ "  ")%string) typed.

Definition padded_world : @World literal_numbers :=
  example_world (Some example_store) (Some example_areas) (Some example_cuisines)
    (padded (example_answers "$$" "Seafood")) 1700000012345.

(** A store with a rating that no double holds, and its records as
    [JSON.parse] reads them. *)
Definition infinity_records : list (@value literal_numbers) :=
  [VObj [(str "name", VStr (str "Old Mill"));
         (str "slug", VStr (str "old-mill"));
         (str "rating", @VNum literal_numbers (Infinity false))]].

Definition infinity_world : @World literal_numbers :=
  example_world
    (Some (quoted "[{'name':'Old Mill','slug':'old-mill','rating':1e400}]"))
    (Some example_areas) (Some example_cuisines)
    (example_answers "$$" "Seafood") 1700000012345.

(** A record with a rating. *)
Definition rated_records : list (@value literal_numbers) :=
  [VObj [(str "name", VStr (str "Crabby Bills"));
         (str "rating", @VNum literal_numbers (Finite (str "4.5")))]].

(** An area table whose one key is an object with a member [toString]. *)
Definition unprintable_world : @World literal_numbers :=
  example_world (Some example_store) (Some (quoted "[{'key':{'toString':1}}]"))
    (Some example_cuisines) (example_answers "$$" "Seafood") 1700000012345.


(** A name of 300 letters. *)
Definition long_name : string := string_of_list_ascii (repeat "a"%char 300).

Definition long_name_world : @World literal_numbers :=
  example_world (Some (str "[]")) (Some example_areas) (Some example_cuisines)
    (long_name :: tl (example_answers "$$" "Seafood")) 1700000012345.

(* ================================================================== *)
(** * Properties *)

(** ** Strings *)

Lemma jsstring_eqb_eq (a b : jsstring) : jsstring_eqb a b = true <-> a = b.
Proof.
  unfold jsstring_eqb. destruct (list_eq_dec N.eq_dec a b); split; congruence.
Qed.

Lemma jsstring_eqb_refl (a : jsstring) : jsstring_eqb a a = true.
Proof. now apply jsstring_eqb_eq. Qed.

Lemma jsstring_eqb_neq (a b : jsstring) : jsstring_eqb a b = false <-> a <> b.
Proof.
  unfold jsstring_eqb. destruct (list_eq_dec N.eq_dec a b); split; congruence.
Qed.

Lemma dropWhile_head (p : codeunit -> bool) s :
  match dropWhile p s with [] => True | c :: _ => p c = false end.
Proof.
  induction s as [|c s IH]; simpl; [exact I|].
  destruct (p c) eqn:E; [exact IH | exact E].
Qed.

Lemma dropWhile_id (p : codeunit -> bool) s :
  match s with [] => True | c :: _ => p c = false end -> dropWhile p s = s.
Proof. destruct s as [|c s]; simpl; [reflexivity|]. now intros ->. Qed.

Lemma dropWhile_forallb (p q : codeunit -> bool) s :
  forallb q s = true -> forallb q (dropWhile p s) = true.
Proof.
  induction s as [|c s IH]; simpl; [reflexivity|].
  intros H. apply andb_prop in H as [Hc Hs].
  destruct (p c); [now apply IH | simpl; now rewrite Hc, Hs].
Qed.

Lemma dropWhileEnd_forallb (p q : codeunit -> bool) s :
  forallb q s = true -> forallb q (dropWhileEnd p s) = true.
Proof.
  induction s as [|c s IH]; simpl; [reflexivity|].
  intros H. apply andb_prop in H as [Hc Hs]. specialize (IH Hs).
  destruct (dropWhileEnd p s) as [|d t].
  - destruct (p c); simpl; [reflexivity | now rewrite Hc].
  - simpl in *. now rewrite Hc, IH.
Qed.

Lemma dropWhileEnd_all_false (p : codeunit -> bool) s :
  forallb (fun c => negb (p c)) s = true -> dropWhileEnd p s = s.
Proof.
  induction s as [|c s IH]; simpl; [reflexivity|].
  intros H. apply andb_prop in H as [Hc Hs]. rewrite (IH Hs).
  apply negb_true_iff in Hc. rewrite Hc. now destruct s.
Qed.

Lemma dropWhile_all_false (p : codeunit -> bool) s :
  forallb (fun c => negb (p c)) s = true -> dropWhile p s = s.
Proof.
  destruct s as [|c s]; simpl; [reflexivity|].
  intros H. apply andb_prop in H as [Hc _].
  apply negb_true_iff in Hc. now rewrite Hc.
Qed.

Lemma uint_digits_digits (d : Decimal.uint) : forallb is_digit (uint_digits d) = true.
Proof. induction d; simpl; auto. Qed.

Lemma uint_digits_nonnil (d : Decimal.uint) : d <> Decimal.Nil -> uint_digits d <> [].
Proof. destruct d; simpl; congruence. Qed.

Lemma integer_toString_nonempty (n : Z) : integer_toString n <> [].
Proof.
  unfold integer_toString. destruct n as [|p|p]; simpl; try discriminate.
  apply uint_digits_nonnil, Unsigned.to_uint_nonnil.
Qed.

Lemma integer_toString_digits (n : Z) :
  (0 <= n)%Z -> forallb is_digit (integer_toString n) = true.
Proof.
  unfold integer_toString. destruct n as [|p|p]; simpl; intros Hn;
    [reflexivity | apply uint_digits_digits | lia].
Qed.

Lemma slice_last_nonempty (n : nat) (s : jsstring) :
  (0 < n)%nat -> s <> [] -> slice_last n s <> [].
Proof.
  unfold slice_last. intros Hn Hs E.
  apply (f_equal (@List.length codeunit)) in E. rewrite length_skipn in E.
  destruct s as [|c s]; [congruence|]. cbn [List.length] in E. lia.
Qed.

Lemma forallb_skipn {A} (p : A -> bool) (n : nat) (l : list A) :
  forallb p l = true -> forallb p (skipn n l) = true.
Proof.
  revert l. induction n as [|n IH]; intros l Hl; [exact Hl|].
  destruct l as [|x l]; [reflexivity|]. simpl in *.
  apply andb_prop in Hl as [_ Hl]. now apply IH.
Qed.

Lemma dropWhileEnd_idempotent p s :
  dropWhileEnd p (dropWhileEnd p s) = dropWhileEnd p s.
Proof.
  induction s as [|c s IH]; [reflexivity|]. cbn [dropWhileEnd].
  destruct (dropWhileEnd p s) as [|d t] eqn:E.
  - destruct (p c) eqn:Ec; [reflexivity|]. simpl. now rewrite Ec.
  - change (dropWhileEnd p (c :: d :: t))
      with (match dropWhileEnd p (d :: t) with
            | [] => if p c then [] else [c]
            | x :: u => c :: x :: u
            end).
    now rewrite IH.
Qed.

Lemma dropWhileEnd_head p c s :
  dropWhileEnd p (c :: s) = [] \/ exists t, dropWhileEnd p (c :: s) = c :: t.
Proof.
  cbn [dropWhileEnd]. destruct (dropWhileEnd p s); [destruct (p c)|]; eauto.
Qed.

Lemma trim_idempotent s : trim (trim s) = trim s.
Proof.
  unfold trim. pose proof (dropWhile_head is_whitespace s) as Hh.
  destruct (dropWhile is_whitespace s) as [|c y]; [reflexivity|].
  destruct (dropWhileEnd_head is_whitespace c y) as [E|[t E]].
  - rewrite E. reflexivity.
  - rewrite E. cbn [dropWhile]. rewrite Hh, <- E.
    apply dropWhileEnd_idempotent.
Qed.

(** ** The slug normalizer *)

Lemma slug_alnum_not_hyphen c : is_slug_alnum c = true -> is_hyphen c = false.
Proof.
  unfold is_slug_alnum, is_lower, is_digit, in_range, is_hyphen. intros H.
  apply N.eqb_neq. intros ->. discriminate H.
Qed.

Lemma hyphen_not_slug_alnum c : is_hyphen c = true -> not_slug_alnum c = true.
Proof.
  unfold not_slug_alnum. intros H. apply negb_true_iff.
  destruct (is_slug_alnum c) eqn:E; [|reflexivity].
  apply slug_alnum_not_hyphen in E. congruence.
Qed.

(** After [/[^a-z0-9]+/g -> "-"] only slug characters are left. *)
Lemma replace_nonalnum_chars b s :
  forallb is_slug_char (replace_runs_from not_slug_alnum (str "-") b s) = true.
Proof.
  revert b. induction s as [|c s IH]; intros b; simpl; [reflexivity|].
  destruct (not_slug_alnum c) eqn:E; simpl.
  - destruct b; simpl; apply IH.
  - apply negb_false_iff in E. unfold is_slug_char at 1. rewrite E. apply IH.
Qed.

(** ... and no two hyphens are adjacent; inside a run the output does not
    start with a hyphen. *)
Lemma replace_nonalnum_hyphens b s :
  has_double_hyphen (replace_runs_from not_slug_alnum (str "-") b s) = false
  /\ (b = true ->
      starts_with_hyphen (replace_runs_from not_slug_alnum (str "-") b s) = false).
Proof.
  revert b. induction s as [|c s IH]; intros b; simpl; [now split|].
  destruct (not_slug_alnum c) eqn:E; simpl.
  - destruct (IH true) as [Hd Hs]. specialize (Hs eq_refl).
    destruct b; simpl.
    + split; [exact Hd | intros _; exact Hs].
    + rewrite Hs, Hd. split; [reflexivity | discriminate].
  - apply negb_false_iff in E.
    rewrite (slug_alnum_not_hyphen _ E). simpl. split; [apply IH | reflexivity].
Qed.

Lemma dropWhile_no_double p s :
  has_double_hyphen s = false -> has_double_hyphen (dropWhile p s) = false.
Proof.
  induction s as [|c s IH]; simpl; [reflexivity|].
  intros H. destruct (p c); [|exact H].
  apply orb_false_iff in H as [_ H]. now apply IH.
Qed.

Lemma dropWhileEnd_starts p s :
  starts_with_hyphen s = false -> starts_with_hyphen (dropWhileEnd p s) = false.
Proof.
  destruct s as [|c s]; simpl; [reflexivity|]. intros H.
  destruct (dropWhileEnd p s); [destruct (p c)|]; simpl; auto.
Qed.

Lemma dropWhileEnd_starts_le p s :
  starts_with_hyphen (dropWhileEnd p s) = true -> starts_with_hyphen s = true.
Proof.
  intros H. destruct (starts_with_hyphen s) eqn:E; [reflexivity|].
  rewrite (dropWhileEnd_starts p s E) in H. discriminate.
Qed.

Lemma dropWhileEnd_no_double p s :
  has_double_hyphen s = false -> has_double_hyphen (dropWhileEnd p s) = false.
Proof.
  induction s as [|c s IH]; simpl; [reflexivity|].
  intros H. apply orb_false_iff in H as [H1 H2]. specialize (IH H2).
  destruct (dropWhileEnd p s) as [|d t] eqn:E.
  - destruct (p c); simpl; [reflexivity|]. now rewrite andb_false_r.
  - change (has_double_hyphen (c :: d :: t)) with
      ((is_hyphen c && starts_with_hyphen (d :: t)) || has_double_hyphen (d :: t)).
    rewrite IH, orb_false_r.
    destruct (is_hyphen c); [|reflexivity]. simpl in H1 |- *.
    destruct (is_hyphen d) eqn:Ed; [|reflexivity].
    assert (starts_with_hyphen (dropWhileEnd p s) = true) as Hs
      by (rewrite E; exact Ed).
    apply dropWhileEnd_starts_le in Hs. congruence.
Qed.

Lemma dropWhileEnd_ends s : ends_with_hyphen (dropWhileEnd is_hyphen s) = false.
Proof.
  induction s as [|c s IH]; simpl; [reflexivity|].
  destruct (dropWhileEnd is_hyphen s) as [|d t] eqn:E.
  - destruct (is_hyphen c) eqn:Ec; simpl; [reflexivity | exact Ec].
  - exact IH.
Qed.

Lemma dropWhileEnd_id_ends s :
  ends_with_hyphen s = false -> dropWhileEnd is_hyphen s = s.
Proof.
  induction s as [|c s IH]; simpl; [reflexivity|].
  destruct s as [|d t].
  - simpl. now intros ->.
  - intros H. rewrite (IH H). reflexivity.
Qed.

Lemma strip_hyphens_shape s :
  forallb is_slug_char s = true -> has_double_hyphen s = false ->
  slug_shaped (strip_hyphens s).
Proof.
  intros Hc Hd. unfold strip_hyphens. repeat split.
  - now apply dropWhileEnd_forallb, dropWhile_forallb.
  - apply dropWhileEnd_starts.
    pose proof (dropWhile_head is_hyphen s) as Hh.
    destruct (dropWhile is_hyphen s); [reflexivity | exact Hh].
  - apply dropWhileEnd_ends.
  - now apply dropWhileEnd_no_double, dropWhile_no_double.
Qed.

(** A string with no two hyphens in a row is left as it is by
    [/-+/g -> "-"]. *)
Lemma replace_hyphen_runs_id b s :
  has_double_hyphen s = false -> (b = true -> starts_with_hyphen s = false) ->
  replace_runs_from is_hyphen (str "-") b s = s.
Proof.
  revert b. induction s as [|c s IH]; intros b Hd Hs; simpl; [reflexivity|].
  simpl in Hd. apply orb_false_iff in Hd as [H1 H2].
  destruct (is_hyphen c) eqn:Ec.
  - destruct b; [specialize (Hs eq_refl); simpl in Hs; congruence|].
    simpl in H1. apply N.eqb_eq in Ec. subst c. simpl.
    f_equal. apply IH; [exact H2 | intros _; exact H1].
  - f_equal. apply IH; [exact H2 | discriminate].
Qed.

(** A slug-shaped string is left as it is by [/[^a-z0-9]+/g -> "-"]. *)
Lemma replace_nonalnum_id b s :
  forallb is_slug_char s = true -> has_double_hyphen s = false ->
  (b = true -> starts_with_hyphen s = false) ->
  replace_runs_from not_slug_alnum (str "-") b s = s.
Proof.
  revert b. induction s as [|c s IH]; intros b Hc Hd Hs; simpl; [reflexivity|].
  simpl in Hc, Hd. apply andb_prop in Hc as [Hc Hcs].
  apply orb_false_iff in Hd as [H1 H2].
  destruct (not_slug_alnum c) eqn:E; simpl.
  2: { f_equal. apply IH; [exact Hcs | exact H2 | discriminate]. }
  - apply negb_true_iff in E.
    unfold is_slug_char in Hc. rewrite E in Hc. simpl in Hc.
    destruct b; [specialize (Hs eq_refl); simpl in Hs; congruence|].
    rewrite Hc in H1. simpl in H1. apply N.eqb_eq in Hc. subst c. simpl.
    f_equal. apply IH; [exact Hcs | exact H2 | intros _; exact H1].
Qed.

Ltac bool_to_prop H :=
  unfold is_slug_char, is_slug_alnum, is_lower, is_digit, is_hyphen, is_ascii,
    is_upper, is_whitespace, is_apostrophe, is_ampersand, in_range in H;
  repeat rewrite ?orb_true_iff, ?andb_true_iff, ?N.leb_le, ?N.eqb_eq,
    ?N.ltb_lt in H.

Lemma slug_char_range c :
  is_slug_char c = true -> 97 <= c <= 122 \/ 48 <= c <= 57 \/ c = 45.
Proof. intros H. bool_to_prop H. tauto. Qed.

Lemma slug_char_facts c :
  is_slug_char c = true ->
  is_ascii c = true /\ is_upper c = false /\ is_whitespace c = false
  /\ is_apostrophe c = false /\ is_ampersand c = false.
Proof.
  intros H. apply slug_char_range in H.
  split; [apply N.ltb_lt; lia|].
  repeat split; apply not_true_is_false; intros Hb; bool_to_prop Hb; lia.
Qed.

Lemma replace_each_id p rep s :
  forallb (fun c => negb (p c)) s = true -> replace_each p rep s = s.
Proof.
  unfold replace_each. induction s as [|c s IH]; simpl; [reflexivity|].
  intros H. apply andb_prop in H as [Hc Hs]. apply negb_true_iff in Hc.
  rewrite Hc. simpl. f_equal. now apply IH.
Qed.

Lemma forallb_impl {A} (p q : A -> bool) (l : list A) :
  (forall x, p x = true -> q x = true) ->
  forallb p l = true -> forallb q l = true.
Proof.
  intros Hpq. induction l as [|x l IH]; simpl; [reflexivity|].
  intros H. apply andb_prop in H as [Hx Hl]. now rewrite (Hpq _ Hx), IH.
Qed.

Lemma map_ascii_lower_id s :
  forallb (fun c => negb (is_upper c)) s = true -> map ascii_lower s = s.
Proof.
  induction s as [|c s IH]; simpl; [reflexivity|].
  intros H. apply andb_prop in H as [Hc Hs]. apply negb_true_iff in Hc.
  unfold ascii_lower at 1. rewrite Hc. f_equal. now apply IH.
Qed.

Lemma slug_chars_Forall s :
  forallb is_slug_char s = true ->
  Forall (fun c => is_lower c = true \/ is_digit c = true \/ c = 45) s.
Proof.
  intros H. apply Forall_forall. intros c Hin.
  rewrite forallb_forall in H. specialize (H c Hin).
  unfold is_slug_char, is_slug_alnum, is_hyphen in H.
  apply orb_prop in H as [H|H]; [apply orb_prop in H as [H|H]; auto|].
  right; right. now apply N.eqb_eq.
Qed.

Lemma starts_with_hyphen_hd s :
  starts_with_hyphen s = false -> hd_error s <> Some 45.
Proof.
  destruct s as [|c s]; simpl; [discriminate|].
  intros H E. injection E as ->. discriminate H.
Qed.

Lemma ends_with_hyphen_last s :
  ends_with_hyphen s = false -> last s 0 <> 45.
Proof.
  induction s as [|c s IH]; [discriminate|].
  destruct s as [|d t]; [|exact IH].
  simpl. intros H ->. discriminate H.
Qed.

Lemma has_double_hyphen_spec s :
  has_double_hyphen s = false -> forall a b, s <> a ++ 45 :: 45 :: b.
Proof.
  intros H a. revert s H. induction a as [|x a IH]; intros s H b E; subst s.
  - discriminate H.
  - simpl in H. apply orb_false_iff in H as [_ H]. now apply (IH _ H b).
Qed.

Section Slugify.
Context `{Unicode}.

(** The normalizer's output has the shape of a slug, whatever the input. *)
Lemma slugify_shape x : slug_shaped (slugify x).
Proof.
  unfold slugify. unfold replace_runs at 1.
  set (t := replace_runs not_slug_alnum _ _).
  assert (slug_shaped (strip_hyphens t)) as Ht.
  { apply strip_hyphens_shape.
    - apply replace_nonalnum_chars.
    - apply (replace_nonalnum_hyphens false). }
  rewrite replace_hyphen_runs_id; [exact Ht | apply Ht | discriminate].
Qed.

(** The normalizer leaves a slug-shaped string as it is. *)
Lemma slugify_fixes_slugs s : slug_shaped s -> slugify s = s.
Proof.
  intros (Hc & Hs & He & Hd). unfold slugify.
  assert (forall q, (forall c, is_slug_char c = true -> q c = true) ->
                    forallb q s = true) as Hall.
  { intros q Hq. now apply (forallb_impl is_slug_char). }
  assert (trim s = s) as ->.
  { unfold trim. rewrite dropWhile_all_false, dropWhileEnd_all_false; trivial;
      apply Hall; intros c Hcc; apply negb_true_iff;
      now apply slug_char_facts in Hcc. }
  rewrite toLowerCase_ascii by (apply Hall; intros c Hcc;
                                now apply slug_char_facts in Hcc).
  rewrite map_ascii_lower_id by (apply Hall; intros c Hcc; apply negb_true_iff;
                                 now apply slug_char_facts in Hcc).
  rewrite normalizeNFKD_ascii by (apply Hall; intros c Hcc;
                                  now apply slug_char_facts in Hcc).
  rewrite (replace_each_id is_apostrophe)
    by (apply Hall; intros c Hcc; apply negb_true_iff;
        now apply slug_char_facts in Hcc).
  rewrite (replace_each_id is_ampersand)
    by (apply Hall; intros c Hcc; apply negb_true_iff;
        now apply slug_char_facts in Hcc).
  unfold replace_runs.
  rewrite replace_nonalnum_id by (trivial; discriminate).
  unfold strip_hyphens.
  rewrite dropWhile_id by (destruct s; [exact I | exact Hs]).
  rewrite dropWhileEnd_id_ends by exact He.
  apply replace_hyphen_runs_id; [exact Hd | discriminate].
Qed.

(** C7. The slug normalizer is idempotent: normalizing a normalized text
    gives the same text. *)
Theorem slugify_idempotent (x : jsstring) : slugify (slugify x) = slugify x.
Proof. apply slugify_fixes_slugs, slugify_shape. Qed.

(** C9. The normalizer maps [O'Brien's & Sons] to [obriens-and-sons]. *)
Theorem slugify_obriens :
  slugify (str "O'Brien's & Sons") = str "obriens-and-sons".
Proof.
  unfold slugify.
  replace (trim (str "O'Brien's & Sons")) with (str "O'Brien's & Sons")
    by (vm_compute; reflexivity).
  rewrite toLowerCase_ascii by (vm_compute; reflexivity).
  rewrite normalizeNFKD_ascii by (vm_compute; reflexivity).
  vm_compute. reflexivity.
Qed.

(** C10. The normalizer's output is the empty string, or a string of
    lowercase ASCII letters, digits and hyphens that neither starts nor ends
    with a hyphen and has no two hyphens in a row. *)
Theorem slugify_output_shape (x : jsstring) :
  slugify x = []
  \/ (Forall (fun c => is_lower c = true \/ is_digit c = true \/ c = 45)
        (slugify x)
      /\ hd_error (slugify x) <> Some 45
      /\ last (slugify x) 0 <> 45
      /\ (forall a b, slugify x <> a ++ 45 :: 45 :: b)).
Proof.
  right. destruct (slugify_shape x) as (Hc & Hs & He & Hd). repeat split.
  - now apply slug_chars_Forall.
  - now apply starts_with_hyphen_hd.
  - now apply ends_with_hyphen_last.
  - now apply has_double_hyphen_spec.
Qed.

End Slugify.

(** ** JSON values *)

(** ** The lookup loaders *)

Section Loaders.
Context `{Numbers}.

Lemma extractAreaKeys_strings (names : list jsstring) :
  extractAreaKeys (VArr (map VStr names)) = [].
Proof.
  unfold extractAreaKeys. induction names as [|n names IH]; simpl; [reflexivity|].
  exact IH.
Qed.

Lemma extractAreaKeys_keyed (areas : list (jsstring * jsstring)) :
  Forall (fun a => fst a <> []) areas ->
  extractAreaKeys
    (VArr (map (fun a => VObj [(str "key", VStr (fst a)); (str "name", VStr (snd a))])
             areas))
  = map (fun a => VStr (fst a)) areas.
Proof.
  unfold extractAreaKeys. induction 1 as [|[k n] areas Hk _ IH]; simpl; [reflexivity|].
  simpl in Hk. destruct k as [|c k]; [congruence|]. simpl. f_equal. exact IH.
Qed.

Lemma extractCuisineNames_named (names : list jsstring) :
  Forall (fun n => n <> []) names ->
  extractCuisineNames (VArr (map (fun n => VObj [(str "name", VStr n)]) names))
  = map VStr names.
Proof.
  unfold extractCuisineNames. destruct 1 as [|n names Hn Hall]; [reflexivity|].
  cbn [map]. revert n Hn. induction Hall as [|m names Hm _ IH]; intros n Hn.
  - destruct n; [congruence | reflexivity].
  - specialize (IH m Hm). destruct n as [|c n]; [congruence|].
    cbn [map filter_truthy] in IH |- *. simpl. f_equal.
    destruct m as [|d m]; [congruence|]. exact IH.
Qed.

(** C3, as amended. The area loader reads objects only: the table
    [[{"key":"fenwick-island","name":"Fenwick Island"}]] gives
    [["fenwick-island"]], and a table of plain strings gives [[]], since a
    string has none of the fields [key], [id], [slug]. The cuisine loader
    returns a table that starts with a plain string as it is, and reads the
    names of a table of objects. On [[]] both give [[]]. *)
Theorem loaders_table_shapes :
  extractAreaKeys
    (VArr [VObj [(str "key", VStr (str "fenwick-island"));
                 (str "name", VStr (str "Fenwick Island"))]])
  = [VStr (str "fenwick-island")]
  /\ extractAreaKeys (VArr [VStr (str "fenwick-island")]) = []
  /\ (forall names, extractAreaKeys (VArr (map VStr names)) = [])
  /\ (forall s items, extractCuisineNames (VArr (VStr s :: items)) = VStr s :: items)
  /\ (forall names, Forall (fun n => n <> []) names ->
        extractCuisineNames (VArr (map (fun n => VObj [(str "name", VStr n)]) names))
        = map VStr names)
  /\ extractAreaKeys (VArr []) = []
  /\ extractCuisineNames (VArr []) = [].
Proof.
  repeat split.
  - apply extractAreaKeys_strings.
  - apply extractCuisineNames_named.
Qed.

End Loaders.

(** ** JSON strings *)

Lemma hex_value_digit d : d < 16 -> hex_value (hex_digit d) = Some d.
Proof.
  intros Hd. unfold hex_digit, hex_value, is_digit, in_range.
  destruct (N.ltb_spec d 10).
  - replace ((48 <=? 48 + d) && (48 + d <=? 57)) with true
      by (symmetry; apply andb_true_iff; split; apply N.leb_le; lia).
    f_equal. lia.
  - replace ((48 <=? 87 + d) && (87 + d <=? 57)) with false
      by (symmetry; apply andb_false_iff; right; apply N.leb_gt; lia).
    replace ((97 <=? 87 + d) && (87 + d <=? 102)) with true
      by (symmetry; apply andb_true_iff; split; apply N.leb_le; lia).
    f_equal. lia.
Qed.

Lemma hex_digits_value c :
  c < 65536 ->
  4096 * ((c / 4096) mod 16) + 256 * ((c / 256) mod 16)
  + 16 * ((c / 16) mod 16) + c mod 16 = c.
Proof.
  intros Hc.
  replace (c / 256) with (c / 16 / 16) by (rewrite N.Div0.div_div; reflexivity).
  replace (c / 4096) with (c / 16 / 16 / 16)
    by (rewrite !N.Div0.div_div; reflexivity).
  pose proof (N.div_mod c 16) as E0.
  pose proof (N.div_mod (c / 16) 16) as E1.
  pose proof (N.div_mod (c / 16 / 16) 16) as E2.
  pose proof (N.div_mod (c / 16 / 16 / 16) 16) as E3.
  assert (c / 16 / 16 / 16 / 16 = 0) as Z.
  { rewrite !N.Div0.div_div. now apply N.div_small. }
  rewrite Z in E3. specialize (E0 ltac:(discriminate)).
  specialize (E1 ltac:(discriminate)). specialize (E2 ltac:(discriminate)).
  specialize (E3 ltac:(discriminate)). lia.
Qed.

Lemma parse_unicode_escape c rest :
  c < 65536 ->
  parse_string_chars (unicode_escape c ++ rest)
  = parse_map (cons c) (parse_string_chars rest).
Proof.
  intros Hc. unfold unicode_escape.
  cbn [app parse_string_chars].
  change (92 =? 34) with false. change (92 =? 92) with true.
  change (117 =? 117) with true. cbn iota.
  rewrite !hex_value_digit by (apply N.mod_lt; discriminate).
  now rewrite hex_digits_value.
Qed.

Lemma parse_literal_unit c rest :
  c <> 34 -> c <> 92 -> 32 <= c ->
  parse_string_chars (c :: rest) = parse_map (cons c) (parse_string_chars rest).
Proof.
  intros H1 H2 H3. cbn [parse_string_chars].
  apply N.eqb_neq in H1, H2. rewrite H1, H2.
  now replace (c <? 32) with false by (symmetry; apply N.ltb_ge; exact H3).
Qed.

Lemma parse_quote_unit c rest :
  parse_string_chars (quote_unit c ++ rest)
  = parse_map (cons c) (parse_string_chars rest).
Proof.
  unfold quote_unit.
  repeat match goal with
  | |- context [if ?a =? ?b then _ else _] =>
      destruct (N.eqb_spec a b); [subst; reflexivity|]
  end.
  destruct (N.ltb_spec c 32).
  - apply parse_unicode_escape. lia.
  - now apply parse_literal_unit.
Qed.

Lemma surrogate_range c :
  is_high_surrogate c = true \/ is_low_surrogate c = true ->
  c <> 34 /\ c <> 92 /\ 32 <= c /\ c < 65536.
Proof.
  unfold is_high_surrogate, is_low_surrogate, in_range.
  rewrite !andb_true_iff, !N.leb_le. lia.
Qed.

(** Reading what [QuoteJSONString] wrote gives the string back. *)
Lemma parse_quote_units s rest :
  parse_string_chars (quote_units s ++ 34 :: rest) = Parsed s rest.
Proof.
  remember (List.length s) as n eqn:Hn. revert s Hn.
  induction n as [n IH] using lt_wf_ind. intros s Hn.
  destruct s as [|c s]; [reflexivity|].
  cbn [quote_units].
  destruct (is_high_surrogate c) eqn:Hh.
  - destruct (surrogate_range c (or_introl Hh)) as (H1 & H2 & H3 & H4).
    destruct s as [|d s].
    + rewrite parse_unicode_escape by exact H4. reflexivity.
    + destruct (is_low_surrogate d) eqn:Hl.
      * destruct (surrogate_range d (or_intror Hl)) as (D1 & D2 & D3 & D4).
        cbn [app]. rewrite parse_literal_unit by assumption.
        rewrite parse_literal_unit by assumption.
        rewrite (IH (List.length s)); [reflexivity | simpl in Hn; lia | reflexivity].
      * rewrite <- app_assoc, parse_unicode_escape by exact H4.
        rewrite (IH (List.length (d :: s))); [reflexivity | simpl in *; lia | reflexivity].
  - destruct (is_low_surrogate c) eqn:Hl.
    + destruct (surrogate_range c (or_intror Hl)) as (H1 & H2 & H3 & H4).
      rewrite <- app_assoc, parse_unicode_escape by exact H4.
      rewrite (IH (List.length s)); [reflexivity | simpl in Hn; lia | reflexivity].
    + rewrite <- app_assoc, parse_quote_unit.
      rewrite (IH (List.length s)); [reflexivity | simpl in Hn; lia | reflexivity].
Qed.

(** ** The parser: how much it reads, and its fuel *)

Lemma skip_ws_length s : (List.length (skip_ws s) <= List.length s)%nat.
Proof.
  unfold skip_ws. induction s as [|c s IH]; simpl; [lia|].
  destruct (is_json_ws c); simpl; lia.
Qed.

Lemma skip_ws_cons_length s c t :
  skip_ws s = c :: t -> (List.length t < List.length s)%nat.
Proof.
  intros E. pose proof (skip_ws_length s) as Hl. rewrite E in Hl. simpl in Hl. lia.
Qed.

Lemma parse_map_Parsed {A B} (g : A -> B) r b rest :
  parse_map g r = Parsed b rest -> exists a, r = Parsed a rest /\ b = g a.
Proof. destruct r; simpl; intros E; try discriminate. injection E as <- <-. eauto. Qed.

Lemma parse_map_OutOfFuel {A B} (g : A -> B) r :
  parse_map g r = OutOfFuel -> r = OutOfFuel.
Proof. destruct r; simpl; intros E; try discriminate. reflexivity. Qed.

Lemma parse_string_chars_fuel s : parse_string_chars s <> OutOfFuel.
Proof.
  remember (List.length s) as n eqn:Hn. revert s Hn.
  induction n as [n IH] using lt_wf_ind. intros s Hn.
  destruct s as [|c t]; [discriminate|]. cbn [parse_string_chars].
  destruct (c =? 34); [discriminate|].
  destruct (c =? 92).
  - destruct t as [|e t']; [discriminate|].
    destruct (e =? 117).
    + destruct t' as [|h1 [|h2 [|h3 [|h4 t'']]]]; try discriminate.
      destruct (hex_value h1), (hex_value h2), (hex_value h3), (hex_value h4);
        try discriminate.
      intros E. apply parse_map_OutOfFuel in E. revert E.
      apply (IH (List.length t'')); [simpl in Hn; lia | reflexivity].
    + destruct (simple_escape e); [|discriminate].
      intros E. apply parse_map_OutOfFuel in E. revert E.
      apply (IH (List.length t')); [simpl in Hn; lia | reflexivity].
  - destruct (c <? 32); [discriminate|].
    intros E. apply parse_map_OutOfFuel in E. revert E.
    apply (IH (List.length t)); [simpl in Hn; lia | reflexivity].
Qed.

Lemma parse_string_chars_length s k rest :
  parse_string_chars s = Parsed k rest -> (List.length rest < List.length s)%nat.
Proof.
  remember (List.length s) as n eqn:Hn. revert s k rest Hn.
  induction n as [n IH] using lt_wf_ind. intros s k rest ->.
  destruct s as [|c t]; [discriminate|]. cbn [parse_string_chars].
  destruct (c =? 34); [intros E; injection E as <- <-; simpl; lia|].
  destruct (c =? 92).
  - destruct t as [|e t']; [discriminate|].
    destruct (e =? 117).
    + destruct t' as [|h1 [|h2 [|h3 [|h4 t'']]]]; try discriminate.
      destruct (hex_value h1), (hex_value h2), (hex_value h3), (hex_value h4);
        try discriminate.
      intros E. apply parse_map_Parsed in E as (k' & E & _).
      apply (IH (List.length t'')) in E; [simpl; lia | simpl; lia | reflexivity].
    + destruct (simple_escape e); [|discriminate].
      intros E. apply parse_map_Parsed in E as (k' & E & _).
      apply (IH (List.length t')) in E; [simpl; lia | simpl; lia | reflexivity].
  - destruct (c <? 32); [discriminate|].
    intros E. apply parse_map_Parsed in E as (k' & E & _).
    apply (IH (List.length t)) in E; [simpl; lia | simpl; lia | reflexivity].
Qed.

Lemma span_digits_length s :
  (List.length (snd (span_digits s)) <= List.length s)%nat.
Proof.
  induction s as [|c s IH]; simpl; [lia|].
  destruct (is_digit c); [|simpl; lia].
  destruct (span_digits s). simpl in *. lia.
Qed.

Lemma lex_number_length s lit rest :
  lex_number s = Some (lit, rest) -> (List.length rest < List.length s)%nat.
Proof.
  unfold lex_number.
  assert (List.length (snd (lex_sign s)) <= List.length s)%nat as Hsign.
  { unfold lex_sign. destruct s as [|c t]; simpl; [lia|].
    destruct (c =? 45); simpl; lia. }
  destruct (lex_sign s) as [sg s1]. simpl in Hsign.
  destruct (lex_int s1) as [[int s2]|] eqn:Eint; [|discriminate].
  assert (List.length s2 < List.length s1)%nat as Hint.
  { unfold lex_int in Eint. destruct s1 as [|c t]; [discriminate|].
    destruct (c =? 48); [injection Eint as <- <-; simpl; lia|].
    destruct (is_digit c); [|discriminate].
    pose proof (span_digits_length t) as Hl.
    destruct (span_digits t). injection Eint as <- <-. simpl in *. lia. }
  assert (List.length (snd (lex_frac s2)) <= List.length s2)%nat as Hfrac.
  { unfold lex_frac. destruct s2 as [|c t]; simpl; [lia|].
    destruct (c =? 46); [|simpl; lia].
    pose proof (span_digits_length t) as Hl.
    destruct (span_digits t) as [[|d ds] r]; simpl in *; lia. }
  destruct (lex_frac s2) as [frac s3]. simpl in Hfrac.
  assert (List.length (snd (lex_exp s3)) <= List.length s3)%nat as Hexp.
  { unfold lex_exp. destruct s3 as [|c t]; simpl; [lia|].
    destruct ((c =? 101) || (c =? 69)); [|simpl; lia].
    destruct t as [|d u].
    - simpl. lia.
    - destruct ((d =? 43) || (d =? 45)).
      + pose proof (span_digits_length u) as Hl.
        destruct (span_digits u) as [[|x ds] r]; simpl in *; lia.
      + pose proof (span_digits_length (d :: u)) as Hl.
        destruct (span_digits (d :: u)) as [[|x ds] r]; simpl in *; lia. }
  destruct (lex_exp s3) as [ex s4]. simpl in Hexp.
  intros E. injection E as <- <-. lia.
Qed.

Lemma strip_prefix_length p s rest :
  strip_prefix p s = Some rest ->
  (List.length rest + List.length p = List.length s)%nat.
Proof.
  revert s. induction p as [|x p IH]; intros s; simpl.
  - intros E. injection E as <-. lia.
  - destruct s as [|c s]; [discriminate|].
    destruct (x =? c); [|discriminate]. intros E. apply IH in E. simpl. lia.
Qed.

(** A case split on the test a parser equation is stuck at. *)
Ltac break_in E :=
  match type of E with
  | context [match ?x with _ => _ end] =>
      lazymatch x with
      | context [match _ with _ => _ end] => fail
      | _ => destruct x eqn:?
      end
  end.

Section ParserFuel.
Context `{Numbers}.

(** What a parser reads is not empty: the rest is shorter than the text. *)
Lemma parse_length (f : nat) :
  (forall s v r, parse_value f s = Parsed v r ->
                 (List.length r < List.length s)%nat)
  /\ (forall s vs r, parse_elements f s = Parsed vs r ->
                     (List.length r < List.length s)%nat)
  /\ (forall s ms r, parse_members f s = Parsed ms r ->
                     (List.length r < List.length s)%nat).
Proof.
  induction f as [|f (IHv & IHe & IHm)]; [repeat split; discriminate|].
  repeat split; intros s x r E;
    [cbn [parse_value] in E | cbn [parse_elements] in E | cbn [parse_members] in E];
    repeat break_in E; try discriminate E;
    repeat match goal with
    | E : parse_map _ _ = Parsed _ _ |- _ =>
        apply parse_map_Parsed in E as (? & E & ?)
    | E : Parsed _ _ = Parsed _ _ |- _ => injection E as ? ?; subst
    | E : skip_ws _ = _ :: _ |- _ => apply skip_ws_cons_length in E
    | E : parse_string_chars _ = Parsed _ _ |- _ =>
        apply parse_string_chars_length in E
    | E : parse_value f _ = Parsed _ _ |- _ => apply IHv in E
    | E : parse_elements f _ = Parsed _ _ |- _ => apply IHe in E
    | E : parse_members f _ = Parsed _ _ |- _ => apply IHm in E
    | E : strip_prefix _ _ = Some _ |- _ => apply strip_prefix_length in E
    | E : lex_number _ = Some _ |- _ => apply lex_number_length in E
    end;
    simpl in *; lia.
Qed.

(** Fuel above twice the length of the text is enough: the parser never
    stops for lack of fuel. *)
Lemma parse_fuel (f : nat) :
  (forall s, (2 * List.length s < f)%nat -> parse_value f s <> OutOfFuel)
  /\ (forall s, (2 * List.length s + 1 < f)%nat -> parse_elements f s <> OutOfFuel)
  /\ (forall s, (2 * List.length s + 1 < f)%nat -> parse_members f s <> OutOfFuel).
Proof.
  induction f as [|f (IHv & IHe & IHm)]; [repeat split; intros s Hl; lia|].
  destruct (parse_length f) as (Lv & Le & Lm).
  repeat split; intros s Hl E;
    [cbn [parse_value] in E | cbn [parse_elements] in E | cbn [parse_members] in E];
    repeat break_in E; try discriminate E;
    repeat match goal with
    | E : parse_map _ _ = OutOfFuel |- _ => apply parse_map_OutOfFuel in E
    | E : parse_string_chars _ = OutOfFuel |- _ =>
        now apply parse_string_chars_fuel in E
    | E : skip_ws _ = _ :: _ |- _ => apply skip_ws_cons_length in E
    | E : parse_string_chars _ = Parsed _ _ |- _ =>
        apply parse_string_chars_length in E
    | E : parse_value f _ = Parsed _ _ |- _ => apply Lv in E
    end;
    match goal with
    | E : parse_value f _ = OutOfFuel |- _ => revert E; apply IHv
    | E : parse_elements f _ = OutOfFuel |- _ => revert E; apply IHe
    | E : parse_members f _ = OutOfFuel |- _ => revert E; apply IHm
    end;
    simpl in *; lia.
Qed.

(** More fuel does not change what a parser returns. *)
Lemma parse_more_fuel (f : nat) :
  (forall s, parse_value f s <> OutOfFuel ->
             parse_value (S f) s = parse_value f s)
  /\ (forall s, parse_elements f s <> OutOfFuel ->
                parse_elements (S f) s = parse_elements f s)
  /\ (forall s, parse_members f s <> OutOfFuel ->
                parse_members (S f) s = parse_members f s).
Proof.
  induction f as [|f (IHv & IHe & IHm)]; [repeat split; intros s Hs; now destruct Hs|].
  assert (forall A B (g : A -> B) r r',
            (r <> OutOfFuel -> r' = r) ->
            parse_map g r <> OutOfFuel -> parse_map g r' = parse_map g r) as Hmap.
  { intros A B g r r' Hr Hne. rewrite Hr; [reflexivity|].
    intros ->. now apply Hne. }
  repeat split; intros s Hne.
  - cbn [parse_value] in Hne. cbn [parse_value].
    destruct (skip_ws s) as [|c t]; [reflexivity|].
    destruct (c =? 123).
    { destruct (skip_ws t) as [|c' t']; [reflexivity|].
      destruct (c' =? 125); [reflexivity|]. apply Hmap; [apply IHm | exact Hne]. }
    destruct (c =? 91); [|reflexivity].
    destruct (skip_ws t) as [|c' t']; [reflexivity|].
    destruct (c' =? 93); [reflexivity|]. apply Hmap; [apply IHe | exact Hne].
  - cbn [parse_elements] in Hne. cbn [parse_elements].
    destruct (parse_value f s) as [v rest| |] eqn:Ev; [|rewrite IHv, Ev; congruence|now destruct Hne].
    rewrite IHv, Ev by congruence.
    destruct (skip_ws rest) as [|c rest']; [reflexivity|].
    destruct (c =? 44); [|reflexivity]. apply Hmap; [apply IHe | exact Hne].
  - cbn [parse_members] in Hne. cbn [parse_members].
    destruct (skip_ws s) as [|q t]; [reflexivity|].
    destruct (q =? 34); [|reflexivity].
    destruct (parse_string_chars t) as [k rest| |]; try reflexivity.
    destruct (skip_ws rest) as [|c rest']; [reflexivity|].
    destruct (c =? 58); [|reflexivity].
    destruct (parse_value f rest') as [v rest''| |] eqn:Ev; [|rewrite IHv, Ev; congruence|now destruct Hne].
    rewrite IHv, Ev by congruence.
    destruct (skip_ws rest'') as [|d rest3]; [reflexivity|].
    destruct (d =? 44); [|reflexivity]. apply Hmap; [apply IHm | exact Hne].
Qed.

End ParserFuel.

(** ** A write and a read *)

Section RoundTrip.
Context `{Numbers}.

Lemma parse_value_fuel_le f f' s v r :
  parse_value f s = Parsed v r -> (f <= f')%nat -> parse_value f' s = Parsed v r.
Proof.
  intros E Hle. induction Hle as [|f' _ IH]; [exact E|].
  destruct (parse_more_fuel f') as (Mv & _). rewrite Mv; [exact IH | congruence].
Qed.

Lemma parse_elements_fuel_le f f' s vs r :
  parse_elements f s = Parsed vs r -> (f <= f')%nat ->
  parse_elements f' s = Parsed vs r.
Proof.
  intros E Hle. induction Hle as [|f' _ IH]; [exact E|].
  destruct (parse_more_fuel f') as (_ & Me & _). rewrite Me; [exact IH | congruence].
Qed.

Lemma parse_members_fuel_le f f' s ms r :
  parse_members f s = Parsed ms r -> (f <= f')%nat ->
  parse_members f' s = Parsed ms r.
Proof.
  intros E Hle. induction Hle as [|f' _ IH]; [exact E|].
  destruct (parse_more_fuel f') as (_ & _ & Mm). rewrite Mm; [exact IH | congruence].
Qed.

(** A text that some fuel parses is parsed by [JSON.parse]. *)
Lemma JSON_parse_Parsed f text v rest :
  parse_value f text = Parsed v rest -> skip_ws rest = [] ->
  JSON_parse text = Some v.
Proof.
  intros E Hrest. unfold JSON_parse.
  assert (parse_value (2 * List.length text + 2) text = Parsed v rest) as ->.
  { destruct (Nat.le_gt_cases f (2 * List.length text + 2)) as [Hle|Hgt].
    - now apply (parse_value_fuel_le f).
    - destruct (parse_fuel (2 * List.length text + 2)) as (Tv & _).
      specialize (Tv text ltac:(lia)).
      destruct (parse_value (2 * List.length text + 2) text) as [v' r'| |] eqn:E';
        [|exfalso|now destruct Tv].
      + rewrite (parse_value_fuel_le _ f _ _ _ E') in E by lia. exact E.
      + destruct (parse_more_fuel (2 * List.length text + 2)) as (Mv & _).
        assert (forall g, (2 * List.length text + 2 <= g)%nat ->
                          parse_value g text = SyntaxError) as Hall.
        { intros g Hg. induction Hg as [|g _ IH]; [exact E'|].
          destruct (parse_more_fuel g) as (Mg & _). rewrite Mg; [exact IH | congruence]. }
        rewrite Hall in E by lia. discriminate E. }
  now rewrite Hrest.
Qed.

Lemma skip_ws_app ws s :
  forallb is_json_ws ws = true -> skip_ws (ws ++ s) = skip_ws s.
Proof.
  unfold skip_ws. induction ws as [|c ws IH]; simpl; [reflexivity|].
  intros Hc. apply andb_prop in Hc as [Hc Hws]. rewrite Hc. now apply IH.
Qed.

Lemma skip_ws_line indent s :
  forallb is_json_ws indent = true -> skip_ws (10 :: indent ++ s) = skip_ws s.
Proof. intros Hi. now apply (skip_ws_app (10 :: indent)). Qed.

Lemma skip_ws_head c s : is_json_ws c = false -> skip_ws (c :: s) = c :: s.
Proof. unfold skip_ws. simpl. now intros ->. Qed.

Lemma parse_value_skip_ws f ws s :
  forallb is_json_ws ws = true -> parse_value f (ws ++ s) = parse_value f s.
Proof.
  intros Hws. destruct f as [|f]; [reflexivity|].
  cbn [parse_value]. now rewrite skip_ws_app.
Qed.

Lemma parse_value_space f s : parse_value f (32 :: s) = parse_value f s.
Proof. now apply (parse_value_skip_ws f [32]). Qed.

Lemma parse_members_skip_ws f ws s :
  forallb is_json_ws ws = true -> parse_members f (ws ++ s) = parse_members f s.
Proof.
  intros Hws. destruct f as [|f]; [reflexivity|].
  cbn [parse_members]. now rewrite skip_ws_app.
Qed.

(** A number literal starts with a minus sign or a digit. *)
Lemma lex_number_head s lit rest :
  lex_number s = Some (lit, rest) ->
  exists c t, s = c :: t /\ (c = 45 \/ is_digit c = true).
Proof.
  unfold lex_number, lex_sign. destruct s as [|c t]; [discriminate|].
  intros E. exists c, t. split; [reflexivity|].
  destruct (N.eqb_spec c 45) as [->|Hc]; [now left|]. right.
  unfold lex_int in E. destruct (N.eqb_spec c 48) as [->|H48]; [reflexivity|].
  destruct (is_digit c); [reflexivity | discriminate].
Qed.

Lemma parse_value_number f s lit rest :
  lex_number s = Some (lit, rest) ->
  parse_value (S f) s = Parsed (VNum (number_of_literal lit)) rest.
Proof.
  intros E. destruct (lex_number_head _ _ _ E) as (c & t & -> & Hc).
  cbn [parse_value]. 
  assert (is_json_ws c = false /\ (c =? 123) = false /\ (c =? 91) = false
          /\ (c =? 34) = false /\ (110 =? c) = false /\ (116 =? c) = false
          /\ (102 =? c) = false) as (H1 & H2 & H3 & H4 & H5 & H6 & H7).
  { destruct Hc as [->|Hd]; [repeat split|].
    unfold is_digit, in_range in Hd. apply andb_prop in Hd as [Hlo Hhi].
    apply N.leb_le in Hlo, Hhi. unfold is_json_ws.
    repeat split; repeat rewrite ?orb_false_iff; repeat split; apply N.eqb_neq; lia. }
  rewrite skip_ws_head by exact H1. rewrite H2, H3, H4.
  change (str "null") with [110; 117; 108; 108].
  change (str "true") with [116; 114; 117; 101].
  change (str "false") with [102; 97; 108; 115; 101].
  cbn [strip_prefix]. rewrite H5, H6, H7, E. reflexivity.
Qed.

Lemma serialize_array indent x xs :
  SerializeJSONProperty indent (VArr (x :: xs))
  = 91 :: 10 :: (indent ++ gap)
    ++ join (44 :: 10 :: indent ++ gap)
         (map (SerializeJSONProperty (indent ++ gap)) (x :: xs))
    ++ 10 :: indent ++ [93].
Proof. reflexivity. Qed.

Lemma serialize_object indent m ms :
  SerializeJSONProperty indent (VObj (m :: ms))
  = 123 :: 10 :: (indent ++ gap)
    ++ join (44 :: 10 :: indent ++ gap)
         (map (fun kv =>
                 34 :: quote_units (fst kv)
                 ++ 34 :: 58 :: 32 :: SerializeJSONProperty (indent ++ gap) (snd kv))
            (m :: ms))
    ++ 10 :: indent ++ [125].
Proof.
  cbn [SerializeJSONProperty]. unfold QuoteJSONString.
  rewrite (map_ext _
             (fun kv =>
                34 :: quote_units (fst kv)
                ++ 34 :: 58 :: 32 :: SerializeJSONProperty (indent ++ gap) (snd kv)))
    by (intros kv; cbn [app]; now rewrite <- app_assoc).
  reflexivity.
Qed.

(** What is written for a value starts with no white space and no closing
    bracket. *)
Lemma serialize_head indent v :
  canonical v ->
  exists c t, SerializeJSONProperty indent v = c :: t
              /\ is_json_ws c = false /\ (c =? 93) = false.
Proof.
  intros Hv. destruct v as [|[]|n|s|[|x xs]|[|m ms]];
    try (eexists; eexists; repeat split; reflexivity).
  inversion Hv as [| |n' [_ Hn]| | |]; subst.
  specialize (Hn [] I). apply lex_number_head in Hn as (c & t & E & Hc).
  rewrite app_nil_r in E. cbn [SerializeJSONProperty]. rewrite E.
  exists c, t. split; [reflexivity|].
  destruct Hc as [->|Hd]; [split; reflexivity|].
  unfold is_digit, in_range in Hd. apply andb_prop in Hd as [Hlo Hhi].
  apply N.leb_le in Hlo, Hhi. unfold is_json_ws.
  repeat rewrite ?orb_false_iff; repeat split; apply N.eqb_neq; lia.
Qed.

Lemma gap_ws indent :
  forallb is_json_ws indent = true -> forallb is_json_ws (indent ++ gap) = true.
Proof. intros Hi. rewrite forallb_app, Hi. reflexivity. Qed.

(** The elements of an array, read back. *)
Lemma roundtrip_elements (inner indent rest : jsstring) (items : list value) :
  items <> [] ->
  Forall (fun x => forall rest', delimited rest' ->
            exists f, parse_value f (SerializeJSONProperty inner x ++ rest')
                      = Parsed x rest') items ->
  forallb is_json_ws inner = true ->
  forallb is_json_ws indent = true ->
  forall ws, forallb is_json_ws ws = true ->
  exists f,
    parse_elements f
      (ws ++ join (44 :: 10 :: inner) (map (SerializeJSONProperty inner) items)
       ++ 10 :: indent ++ 93 :: rest)
    = Parsed items rest.
Proof.
  intros Hne Hall Hinner Hindent.
  induction Hall as [|y ys Hy Hys IH]; [congruence|]. intros ws Hws.
  destruct ys as [|z zs].
  - destruct (Hy (10 :: indent ++ 93 :: rest) (or_introl eq_refl)) as [fy Ey].
    exists (S fy). cbn [parse_elements map join].
    rewrite parse_value_skip_ws by exact Hws. rewrite Ey.
    rewrite skip_ws_line by exact Hindent.
    rewrite skip_ws_head by reflexivity. reflexivity.
  - destruct (IH ltac:(discriminate) (10 :: inner)) as [fe Ee];
      [simpl; exact Hinner|].
    set (tail := join (44 :: 10 :: inner) (map (SerializeJSONProperty inner) (z :: zs))
                 ++ 10 :: indent ++ 93 :: rest) in *.
    destruct (Hy (44 :: 10 :: inner ++ tail) (or_intror eq_refl)) as [fy Ey].
    exists (S (Nat.max fy fe)).
    change (map (SerializeJSONProperty inner) (y :: z :: zs))
      with (SerializeJSONProperty inner y
            :: map (SerializeJSONProperty inner) (z :: zs)).
    change (join (44 :: 10 :: inner)
              (SerializeJSONProperty inner y
               :: map (SerializeJSONProperty inner) (z :: zs)))
      with (SerializeJSONProperty inner y ++ (44 :: 10 :: inner)
            ++ join (44 :: 10 :: inner)
                 (map (SerializeJSONProperty inner) (z :: zs))).
    rewrite <- !app_assoc. cbn [app]. fold tail.
    cbn [parse_elements]. rewrite parse_value_skip_ws by exact Hws.
    rewrite (parse_value_fuel_le fy _ _ _ _ Ey) by lia.
    rewrite skip_ws_head by reflexivity.
    change (44 =? 44) with true. cbn iota.
    change (10 :: inner ++ tail) with ((10 :: inner) ++ tail).
    rewrite (parse_elements_fuel_le fe _ _ _ _ Ee) by lia. reflexivity.
Qed.

(** The members of an object, read back in the order they were written. *)
Lemma roundtrip_members (inner indent rest : jsstring)
  (members : list (jsstring * value)) :
  members <> [] ->
  Forall (fun kv => forall rest', delimited rest' ->
            exists f, parse_value f (SerializeJSONProperty inner (snd kv) ++ rest')
                      = Parsed (snd kv) rest') members ->
  forallb is_json_ws inner = true ->
  forallb is_json_ws indent = true ->
  forall ws, forallb is_json_ws ws = true ->
  exists f,
    parse_members f
      (ws ++ join (44 :: 10 :: inner)
               (map (fun kv =>
                       34 :: quote_units (fst kv)
                       ++ 34 :: 58 :: 32 :: SerializeJSONProperty inner (snd kv))
                  members)
       ++ 10 :: indent ++ 125 :: rest)
    = Parsed members rest.
Proof.
  intros Hne Hall Hinner Hindent.
  induction Hall as [|[k v] ms Hy Hys IH]; [congruence|]. intros ws Hws.
  cbn [fst snd] in Hy.
  destruct ms as [|m' ms'].
  - destruct (Hy (10 :: indent ++ 125 :: rest) (or_introl eq_refl)) as [fy Ey].
    exists (S fy). cbn [parse_members map join fst snd].
    rewrite skip_ws_app by exact Hws. cbn [app].
    rewrite skip_ws_head by reflexivity. change (34 =? 34) with true. cbn iota.
    rewrite <- app_assoc. cbn [app]. rewrite parse_quote_units.
    rewrite skip_ws_head by reflexivity. change (58 =? 58) with true. cbn iota.
    rewrite parse_value_space. rewrite Ey.
    rewrite skip_ws_line by exact Hindent.
    rewrite skip_ws_head by reflexivity. reflexivity.
  - destruct (IH ltac:(discriminate) (10 :: inner)) as [fe Ee];
      [simpl; exact Hinner|].
    set (member_text := fun kv : jsstring * value =>
           34 :: quote_units (fst kv)
           ++ 34 :: 58 :: 32 :: SerializeJSONProperty inner (snd kv)) in *.
    set (tail := join (44 :: 10 :: inner) (map member_text (m' :: ms'))
                 ++ 10 :: indent ++ 125 :: rest) in *.
    destruct (Hy (44 :: 10 :: inner ++ tail) (or_intror eq_refl)) as [fy Ey].
    exists (S (Nat.max fy fe)).
    change (map member_text ((k, v) :: m' :: ms'))
      with (member_text (k, v) :: map member_text (m' :: ms')).
    change (join (44 :: 10 :: inner)
              (member_text (k, v) :: map member_text (m' :: ms')))
      with (member_text (k, v) ++ (44 :: 10 :: inner)
            ++ join (44 :: 10 :: inner) (map member_text (m' :: ms'))).
    rewrite <- !app_assoc. cbn [app]. fold tail.
    cbn [parse_members]. rewrite skip_ws_app by exact Hws.
    unfold member_text at 1. cbn [fst snd app].
    rewrite skip_ws_head by reflexivity. change (34 =? 34) with true. cbn iota.
    rewrite <- app_assoc. cbn [app]. rewrite parse_quote_units.
    rewrite skip_ws_head by reflexivity. change (58 =? 58) with true. cbn iota.
    rewrite parse_value_space.
    rewrite (parse_value_fuel_le fy _ _ _ _ Ey) by lia.
    rewrite skip_ws_head by reflexivity.
    change (44 =? 44) with true. cbn iota.
    change (10 :: inner ++ tail) with ((10 :: inner) ++ tail).
    rewrite (parse_members_fuel_le fe _ _ _ _ Ee) by lia. reflexivity.
Qed.

Lemma serialize_array_app indent x xs rest :
  SerializeJSONProperty indent (VArr (x :: xs)) ++ rest
  = 91 :: ((10 :: indent ++ gap)
           ++ join (44 :: 10 :: indent ++ gap)
                (map (SerializeJSONProperty (indent ++ gap)) (x :: xs))
           ++ 10 :: indent ++ 93 :: rest).
Proof.
  rewrite serialize_array. repeat (rewrite <- app_assoc || cbn [app]).
  reflexivity.
Qed.

Lemma serialize_object_app indent m ms rest :
  SerializeJSONProperty indent (VObj (m :: ms)) ++ rest
  = 123 :: ((10 :: indent ++ gap)
            ++ join (44 :: 10 :: indent ++ gap)
                 (map (fun kv =>
                         34 :: quote_units (fst kv)
                         ++ 34 :: 58 :: 32
                            :: SerializeJSONProperty (indent ++ gap) (snd kv))
                    (m :: ms))
            ++ 10 :: indent ++ 125 :: rest).
Proof.
  rewrite serialize_object. repeat (rewrite <- app_assoc || cbn [app]).
  reflexivity.
Qed.

(** What [SerializeJSONProperty] writes for a canonical value, at any
    indentation and before any delimiter, is read back as the value. *)
Lemma roundtrip_value (v : value) :
  canonical v ->
  forall indent rest,
    forallb is_json_ws indent = true -> delimited rest ->
    exists f, parse_value f (SerializeJSONProperty indent v ++ rest) = Parsed v rest.
Proof.
  induction v as [|b|n|s|items IH|members IH] using value_ind;
    intros Hv indent rest Hindent Hrest.
  - exists 1%nat. reflexivity.
  - exists 1%nat. now destruct b.
  - inversion Hv as [| |n' [Hval Hlex]| | |]; subst.
    exists 1%nat. cbn [SerializeJSONProperty].
    rewrite (parse_value_number _ _ _ _ (Hlex rest Hrest)). now rewrite Hval.
  - exists 1%nat. cbn [SerializeJSONProperty parse_value]. unfold QuoteJSONString.
    cbn [app]. rewrite skip_ws_head by reflexivity.
    change (34 =? 123) with false. change (34 =? 91) with false.
    change (34 =? 34) with true. cbn iota.
    rewrite <- app_assoc. cbn [app]. now rewrite parse_quote_units.
  - inversion Hv as [| | | |items' Hitems|]; subst.
    destruct items as [|x xs]; [exists 1%nat; reflexivity|].
    assert (Forall (fun x => forall rest', delimited rest' ->
              exists f, parse_value f
                          (SerializeJSONProperty (indent ++ gap) x ++ rest')
                        = Parsed x rest') (x :: xs)) as Hall.
    { rewrite Forall_forall in IH, Hitems |- *. intros y Hy rest' Hrest'.
      apply IH; [exact Hy | now apply Hitems | now apply gap_ws | exact Hrest']. }
    destruct (roundtrip_elements (indent ++ gap) indent rest (x :: xs)
                ltac:(discriminate) Hall (gap_ws _ Hindent) Hindent
                (10 :: indent ++ gap)) as [fe Ee];
      [simpl; now apply gap_ws|].
    exists (S fe). rewrite serialize_array_app. cbn [parse_value].
    rewrite skip_ws_head by reflexivity.
    change (91 =? 123) with false. change (91 =? 91) with true. cbn iota.
    inversion Hitems as [|x' xs' Hx _]; subst.
    destruct (serialize_head (indent ++ gap) x Hx) as (c & t & Ec & Hc1 & Hc2).
    rewrite skip_ws_app by (simpl; now apply gap_ws).
    assert (exists u, join (44 :: 10 :: indent ++ gap)
                        (map (SerializeJSONProperty (indent ++ gap)) (x :: xs))
                      = c :: u) as [u Eu].
    { cbn [map join]. rewrite Ec. destruct xs; eexists; reflexivity. }
    rewrite Eu at 1. cbn [app] in Ee |- *.
    rewrite skip_ws_head by exact Hc1. rewrite Hc2.
    exact (f_equal (parse_map VArr) Ee).
  - inversion Hv as [| | | | |members' Horder Hmembers]; subst.
    destruct members as [|m ms]; [exists 1%nat; reflexivity|].
    assert (Forall (fun kv => forall rest', delimited rest' ->
              exists f, parse_value f
                          (SerializeJSONProperty (indent ++ gap) (snd kv) ++ rest')
                        = Parsed (snd kv) rest') (m :: ms)) as Hall.
    { rewrite Forall_forall in IH, Hmembers |- *. intros y Hy rest' Hrest'.
      apply IH; [exact Hy | now apply Hmembers | now apply gap_ws | exact Hrest']. }
    destruct (roundtrip_members (indent ++ gap) indent rest (m :: ms)
                ltac:(discriminate) Hall (gap_ws _ Hindent) Hindent
                (10 :: indent ++ gap)) as [fe Ee];
      [simpl; now apply gap_ws|].
    exists (S fe). rewrite serialize_object_app. cbn [parse_value].
    rewrite skip_ws_head by reflexivity.
    change (123 =? 123) with true. cbn iota.
    rewrite skip_ws_app by (simpl; now apply gap_ws).
    assert (exists u,
              join (44 :: 10 :: indent ++ gap)
                (map (fun kv =>
                        34 :: quote_units (fst kv)
                        ++ 34 :: 58 :: 32
                           :: SerializeJSONProperty (indent ++ gap) (snd kv))
                   (m :: ms))
              = 34 :: u) as [u Eu].
    { cbn [map join]. destruct ms; eexists; reflexivity. }
    rewrite Eu at 1. cbn [app] in Ee |- *.
    rewrite skip_ws_head by reflexivity.
    change (34 =? 125) with false. cbn iota.
    etransitivity;
      [exact (f_equal (parse_map (fun ms => VObj (create_members ms))) Ee)|].
    cbn [parse_map]. now rewrite Horder.
Qed.

(** [JSON.parse] reads back what [writeJson] writes for a canonical value:
    [JSON.stringify(data, null, 2)] and a line feed. *)
Lemma JSON_parse_stringify (v : value) :
  canonical v -> JSON_parse (JSON_stringify v ++ [10]) = Some v.
Proof.
  intros Hv.
  destruct (roundtrip_value v Hv [] [10] eq_refl (or_introl eq_refl)) as [f E].
  now apply (JSON_parse_Parsed f _ _ [10]).
Qed.

(** Members with distinct names, none of them an array index, are in the
    engine's order as they are written. *)
Lemma create_members_plain (members : list (jsstring * value)) :
  NoDup (map fst members) ->
  Forall (fun kv => array_index (fst kv) = None) members ->
  create_members members = members.
Proof.
  intros Hnd Hidx. unfold create_members.
  enough (forall acc,
            NoDup (map fst (acc ++ members)) ->
            fold_left (fun acc kv => define_member acc (fst kv) (snd kv)) members acc
            = acc ++ members) as Hgen by (now apply (Hgen [])).
  clear Hnd. induction Hidx as [|[k v] ms Hk _ IH]; intros acc Hacc.
  - simpl. now rewrite app_nil_r.
  - cbn [fold_left fst snd]. simpl in Hk.
    assert (lookup k acc = None) as Hl.
    { rewrite map_app in Hacc. simpl in Hacc. apply NoDup_remove_2 in Hacc.
      assert (~ In k (map fst acc)) as Hnin
        by (intros Hin; apply Hacc, in_or_app; now left).
      clear -Hnin. induction acc as [|[k' v'] acc IHa]; [reflexivity|].
      simpl. destruct (jsstring_eqb k k') eqn:E.
      - apply jsstring_eqb_eq in E. subst k'. exfalso. apply Hnin.
        simpl. now left.
      - apply IHa. intros Hin. apply Hnin. simpl. now right. }
    unfold define_member. rewrite Hl, Hk.
    rewrite IH; rewrite <- app_assoc; [reflexivity | exact Hacc].
Qed.

Lemma canonical_strings (xs : list jsstring) : canonical (strings xs).
Proof.
  apply canonical_arr. apply Forall_forall. intros v Hv.
  apply in_map_iff in Hv as (s & <- & _). apply canonical_str.
Qed.

(** The record [main] makes is canonical. *)
Lemma make_entry_canonical name slug areaKey address price cuisines vibes goodFor
  shortBlurb longBlurb mustTry website menuUrl firstPhotoRel featured :
  canonical
    (make_entry name slug areaKey address price cuisines vibes goodFor
       shortBlurb longBlurb mustTry website menuUrl firstPhotoRel featured).
Proof.
  apply canonical_obj.
  - apply create_members_plain.
    + cbn [map fst]. repeat constructor; cbn [In]; intros Hin;
        repeat destruct Hin as [Hin|Hin]; try discriminate Hin; exact Hin.
    + repeat constructor.
  - repeat first [apply canonical_strings | constructor].
Qed.

End RoundTrip.

(** ** The values [JSON.parse] makes *)

Section ParsedValues.
Context `{Numbers}.

Lemma array_index_inj k k' i :
  array_index k = Some i -> array_index k' = Some i -> k = k'.
Proof.
  unfold array_index. intros E E'.
  destruct (nonempty k && forallb is_digit k
            && jsstring_eqb (uint_digits (N.to_uint (decimal_value 0 k))) k
            && (decimal_value 0 k <? 4294967295)) eqn:B; [|discriminate].
  destruct (nonempty k' && forallb is_digit k'
            && jsstring_eqb (uint_digits (N.to_uint (decimal_value 0 k'))) k'
            && (decimal_value 0 k' <? 4294967295)) eqn:B'; [|discriminate].
  injection E as E. injection E' as E'.
  apply andb_prop in B as [B _]. apply andb_prop in B as [_ B].
  apply andb_prop in B' as [B' _]. apply andb_prop in B' as [_ B'].
  apply jsstring_eqb_eq in B, B'. congruence.
Qed.

Lemma ordered_names_NoDup ks : ordered_names ks -> NoDup ks.
Proof.
  induction 1 as [ks _ Hnd|k i ks Hk Hlt _ IH]; [exact Hnd|].
  constructor; [|exact IH]. intros Hin. specialize (Hlt k i Hin Hk). lia.
Qed.

Lemma lookup_None k (members : list (jsstring * value)) :
  lookup k members = None <-> ~ In k (map fst members).
Proof.
  induction members as [|[k' v'] ms IH]; simpl; [tauto|].
  destruct (jsstring_eqb k k') eqn:E.
  - apply jsstring_eqb_eq in E. subst k'. split; [discriminate | tauto].
  - apply jsstring_eqb_neq in E. rewrite IH. split.
    + intros Hn [Hk|Hin]; [congruence | tauto].
    + tauto.
Qed.

Lemma replace_member_names k v (members : list (jsstring * value)) :
  map fst (replace_member k v members) = map fst members.
Proof.
  induction members as [|[k' v'] ms IH]; simpl; [reflexivity|].
  destruct (jsstring_eqb k k'); simpl; [reflexivity | now rewrite IH].
Qed.

Lemma ordered_names_append ks k :
  ordered_names ks -> array_index k = None -> ~ In k ks ->
  ordered_names (ks ++ [k]).
Proof.
  intros Ho Hk Hnin. induction Ho as [ks Hall Hnd|k0 i ks Hk0 Hlt Ho IH].
  - apply ordered_plain.
    + apply Forall_app. split; [exact Hall | now constructor].
    + apply NoDup_app; [exact Hnd | repeat constructor; intros [] |].
      intros x Hx [<-|[]]. contradiction.
  - simpl. apply ordered_index with i; [exact Hk0 | |].
    + intros k' j Hin Hj. apply in_app_or in Hin as [Hin|[<-|[]]].
      * now apply (Hlt k').
      * congruence.
    + apply IH. intros Hin. apply Hnin. now right.
Qed.

Lemma insert_index_In i k v (members : list (jsstring * value)) k1 :
  In k1 (map fst (insert_index i k v members)) ->
  k1 = k \/ In k1 (map fst members).
Proof.
  induction members as [|[k' v'] ms IH]; cbn [insert_index].
  - simpl. intros [<-|[]]. now left.
  - destruct (array_index k') as [j|]; [destruct (i <? j)|]; cbn [map fst In];
      try (intros [<-|[<-|Hin]]; tauto).
    intros [<-|Hin]; [tauto|]. destruct (IH Hin); tauto.
Qed.

Lemma ordered_names_plain_head k ks :
  ordered_names (k :: ks) -> array_index k = None ->
  Forall (fun k' => array_index k' = None) (k :: ks).
Proof.
  intros Ho Hk. inversion Ho as [ks' Hall _ Eks|k0 i0 ks' Hk0 _ _ Eks]; subst;
    [exact Hall | congruence].
Qed.

Lemma insert_index_names i k v (members : list (jsstring * value)) :
  array_index k = Some i ->
  ordered_names (map fst members) -> ~ In k (map fst members) ->
  ordered_names (map fst (insert_index i k v members)).
Proof.
  intros Hk. induction members as [|[k' v'] ms IH]; intros Ho Hnin.
  - simpl. apply ordered_index with i; [exact Hk | intros k' j [] | ].
    apply ordered_plain; constructor.
  - cbn [insert_index]. cbn [map fst] in Ho, Hnin.
    destruct (array_index k') as [j|] eqn:Hk'.
    + inversion Ho as [ks Hall _ Eks|k0 i0 ks Hk0 Hlt Ho' Eks]; subst.
      { inversion Hall as [|x xs Hx _]; subst. congruence. }
      assert (i0 = j) by congruence. subst i0.
      destruct (N.ltb_spec i j) as [Hij|Hij]; cbn [map fst].
      * apply ordered_index with i; [exact Hk | | exact Ho].
        intros k1 j1 [<-|Hin] Hj1; [assert (j1 = j) by congruence; lia|].
        specialize (Hlt k1 j1 Hin Hj1). lia.
      * apply ordered_index with j; [exact Hk' | |].
        -- intros k1 j1 Hin Hj1. apply insert_index_In in Hin as [->|Hin].
           ++ assert (j1 = i) by congruence. subst j1.
              assert (j <> i); [|lia]. intros ->.
              apply Hnin. left. now apply (array_index_inj k' k i).
           ++ now apply (Hlt k1).
        -- apply IH; [exact Ho'|]. intros Hin. apply Hnin. now right.
    + cbn [map fst]. apply ordered_index with i; [exact Hk | | exact Ho].
      intros k1 j1 Hin Hj1.
      pose proof (ordered_names_plain_head _ _ Ho Hk') as Hall.
      rewrite Forall_forall in Hall. rewrite (Hall k1 Hin) in Hj1. discriminate.
Qed.

(** [CreateDataProperty] keeps the names in the engine's order. *)
Lemma define_member_names (members : list (jsstring * value)) k v :
  ordered_names (map fst members) ->
  ordered_names (map fst (define_member members k v)).
Proof.
  intros Ho. unfold define_member. destruct (lookup k members) eqn:El.
  - now rewrite replace_member_names.
  - apply lookup_None in El. destruct (array_index k) as [i|] eqn:Hk.
    + now apply insert_index_names.
    + rewrite map_app. now apply ordered_names_append.
Qed.

Lemma create_members_names (source : list (jsstring * value)) :
  ordered_names (map fst (create_members source)).
Proof.
  unfold create_members.
  enough (forall acc, ordered_names (map fst acc) ->
            ordered_names
              (map fst (fold_left (fun acc kv => define_member acc (fst kv) (snd kv))
                          source acc))) as Hgen
    by (apply Hgen; apply ordered_plain; constructor).
  induction source as [|[k v] source IH]; intros acc Ho; [exact Ho|].
  cbn [fold_left fst snd]. apply IH. now apply define_member_names.
Qed.

(** Before an array index come smaller array indices only. *)
Lemma ordered_names_before ks1 k i ks2 :
  ordered_names (ks1 ++ k :: ks2) -> array_index k = Some i ->
  forall k', In k' ks1 -> exists j, array_index k' = Some j /\ j < i.
Proof.
  induction ks1 as [|k0 ks1 IH]; intros Ho Hk k' Hin; [destruct Hin|].
  cbn [app] in Ho.
  inversion Ho as [ks Hall _ Eks|k00 i0 ks Hk0 Hlt Ho' Eks]; subst.
  - rewrite Forall_forall in Hall.
    rewrite (Hall k) in Hk by (right; apply in_or_app; right; now left).
    discriminate.
  - destruct Hin as [<-|Hin].
    + exists i0. split; [exact Hk0|].
      apply (Hlt k); [apply in_or_app; right; now left | exact Hk].
    + now apply IH.
Qed.

Lemma insert_index_last i k v (members : list (jsstring * value)) :
  (forall k', In k' (map fst members) ->
              exists j, array_index k' = Some j /\ j < i) ->
  insert_index i k v members = members ++ [(k, v)].
Proof.
  induction members as [|[k' v'] ms IH]; intros Hall; [reflexivity|].
  cbn [insert_index].
  destruct (Hall k' (or_introl eq_refl)) as (j & -> & Hj).
  replace (i <? j) with false by (symmetry; apply N.ltb_ge; lia).
  cbn [app]. f_equal. apply IH. intros k1 Hin. apply Hall. now right.
Qed.

(** Members whose names are in the engine's order are the object their
    literal makes. *)
Lemma create_members_ordered (members : list (jsstring * value)) :
  ordered_names (map fst members) -> create_members members = members.
Proof.
  intros Ho. unfold create_members.
  enough (forall acc,
            ordered_names (map fst (acc ++ members)) ->
            fold_left (fun acc kv => define_member acc (fst kv) (snd kv)) members acc
            = acc ++ members) as Hgen by (now apply (Hgen [])).
  clear Ho. induction members as [|[k v] ms IH]; intros acc Ho.
  - simpl. now rewrite app_nil_r.
  - cbn [fold_left fst snd].
    assert (define_member acc k v = acc ++ [(k, v)]) as ->.
    { rewrite map_app in Ho. cbn [map fst] in Ho.
      pose proof (ordered_names_NoDup _ Ho) as Hnd.
      apply NoDup_remove_2 in Hnd.
      assert (lookup k acc = None) as Hl.
      { apply lookup_None. intros Hin. apply Hnd, in_or_app. now left. }
      unfold define_member. rewrite Hl.
      destruct (array_index k) as [i|] eqn:Hk; [|reflexivity].
      apply insert_index_last. now apply (ordered_names_before _ k i (map fst ms)). }
    rewrite IH; rewrite <- app_assoc; [reflexivity | exact Ho].
Qed.

(** A member of the object is a member of its literal. *)
Lemma create_members_In (source : list (jsstring * value)) kv :
  In kv (create_members source) -> In kv source.
Proof.
  unfold create_members.
  enough (forall acc,
            In kv (fold_left (fun acc kv => define_member acc (fst kv) (snd kv))
                     source acc) ->
            In kv acc \/ In kv source) as Hgen
    by (intros Hin; destruct (Hgen [] Hin) as [[]|Hs]; exact Hs).
  induction source as [|[k v] source IH]; intros acc Hin; [now left|].
  cbn [fold_left fst snd] in Hin. apply IH in Hin as [Hin|Hin]; [|right; now right].
  assert (In kv acc \/ kv = (k, v)) as [Ha | ->]; [|now left|right; now left].
  clear IH. unfold define_member in Hin. destruct (lookup k acc).
  - induction acc as [|[k' v'] acc IHa]; [destruct Hin|].
    cbn [replace_member] in Hin. destruct (jsstring_eqb k k') eqn:E.
    + apply jsstring_eqb_eq in E. subst k'.
      destruct Hin as [<-|Hin]; [now right | left; now right].
    + destruct Hin as [<-|Hin]; [left; now left|].
      destruct (IHa Hin) as [Hl|Hr]; [left; now right | now right].
  - destruct (array_index k) as [i|].
    + induction acc as [|[k' v'] acc IHa].
      * destruct Hin as [<-|[]]. now right.
      * cbn [insert_index] in Hin.
        destruct (array_index k') as [j|]; [destruct (i <? j)|].
        -- destruct Hin as [<-|Hin]; [now right | now left].
        -- destruct Hin as [<-|Hin]; [left; now left|].
           destruct (IHa Hin) as [Hl|Hr]; [left; now right | now right].
        -- destruct Hin as [<-|Hin]; [now right | now left].
    + apply in_app_or in Hin as [Hin|[<-|[]]]; [now left | now right].
Qed.

Lemma Forall_flat_map_In {A B} (P : B -> Prop) (f : A -> list B) (l : list A) x :
  Forall P (flat_map f l) -> In x l -> Forall P (f x).
Proof.
  intros Hall Hin. rewrite Forall_forall in Hall |- *. intros y Hy.
  apply Hall, in_flat_map. now exists x.
Qed.

(** A value the parser makes is canonical once its numbers are stable. *)
Lemma parse_canonical (f : nat) :
  (forall s v r, parse_value f s = Parsed v r ->
     Forall number_stable (numbers_of v) -> canonical v)
  /\ (forall s vs r, parse_elements f s = Parsed vs r ->
       Forall (fun v => Forall number_stable (numbers_of v) -> canonical v) vs)
  /\ (forall s ms r, parse_members f s = Parsed ms r ->
       Forall (fun kv => Forall number_stable (numbers_of (snd kv)) ->
                         canonical (snd kv)) ms).
Proof.
  induction f as [|f (IHv & IHe & IHm)]; [repeat split; discriminate|].
  repeat split; intros s x r E;
    [cbn [parse_value] in E | cbn [parse_elements] in E | cbn [parse_members] in E];
    repeat break_in E; try discriminate E;
    repeat match goal with
    | E : parse_map _ _ = Parsed _ _ |- _ =>
        apply parse_map_Parsed in E as (? & E & ?)
    | E : Parsed _ _ = Parsed _ _ |- _ => injection E as ? ?
    end; subst.
  - intros _. apply canonical_obj; [reflexivity | constructor].
  - intros Hn. apply IHm in E. apply canonical_obj.
    + apply create_members_ordered, create_members_names.
    + apply Forall_forall. intros kv Hin.
      rewrite Forall_forall in E. apply E.
      * now apply create_members_In.
      * apply (Forall_flat_map_In _ _ _ kv Hn Hin).
  - intros _. apply canonical_arr. constructor.
  - intros Hn. apply IHe in E. apply canonical_arr.
    apply Forall_forall. intros v Hin. rewrite Forall_forall in E.
    apply E; [exact Hin|]. apply (Forall_flat_map_In _ _ _ v Hn Hin).
  - intros _. apply canonical_str.
  - intros _. apply canonical_null.
  - intros _. apply canonical_bool.
  - intros _. apply canonical_bool.
  - intros Hn. apply canonical_num. now inversion Hn.
  - constructor; [now apply (IHv _ _ _ Heqp) | now apply (IHe _ _ _ E)].
  - constructor; [now apply (IHv _ _ _ Heqp) | constructor].
  - constructor; [cbn [snd]; now apply (IHv _ _ _ Heqp0) | now apply (IHm _ _ _ E)].
  - constructor; [cbn [snd]; now apply (IHv _ _ _ Heqp0) | constructor].
Qed.

(** What [JSON.parse] returns is canonical once its numbers are stable. *)
Lemma JSON_parse_canonical (text : jsstring) (v : value) :
  JSON_parse text = Some v ->
  Forall number_stable (numbers_of v) -> canonical v.
Proof.
  unfold JSON_parse. intros E.
  destruct (parse_value (2 * List.length text + 2) text) as [v' rest| |] eqn:Ep;
    try discriminate E.
  destruct (skip_ws rest); [|discriminate E]. injection E as ->.
  destruct (parse_canonical (2 * List.length text + 2)) as (Hv & _).
  now apply (Hv text v rest).
Qed.

End ParsedValues.

(** ** The script *)

Section MainProperties.
Context `{Unicode} `{Numbers} `{Host}.

Local Notation "x <- m ;; k" := (bind m (fun x => k))
  (at level 61, m at next level, right associativity).
Local Notation "m ;;; k" := (bind m (fun _ => k))
  (at level 61, right associativity).

Lemma keeps_files_ret {A} (a : A) : keeps_files (ret a).
Proof. intros w. reflexivity. Qed.

Lemma keeps_files_throw {A} e : keeps_files (throw (A := A) e).
Proof. intros w. reflexivity. Qed.

Lemma keeps_files_log e : keeps_files (log e).
Proof. intros w. reflexivity. Qed.

Lemma keeps_files_ask q : keeps_files (ask q).
Proof. intros w. unfold ask. now destruct (answers w). Qed.

Lemma keeps_files_Date_now : keeps_files Date_now.
Proof. intros w. reflexivity. Qed.

Lemma keeps_files_readFile p : keeps_files (readFile p).
Proof. intros w. unfold readFile. now destruct (files w p). Qed.

Lemma keeps_files_exists_file p : keeps_files (exists_file p).
Proof. intros w. unfold exists_file. now destruct (files w p). Qed.

Lemma keeps_files_ensureDir s : keeps_files (ensureDir s).
Proof. intros w. unfold ensureDir. now destruct (mkdir_code s). Qed.

Lemma keeps_files_list_suggestions line xs : keeps_files (list_suggestions line xs).
Proof.
  unfold list_suggestions.
  destruct (forallb printable xs); [apply keeps_files_log | apply keeps_files_throw].
Qed.

Lemma keeps_files_bind {A B} (m : M A) (k : A -> M B) :
  keeps_files m -> (forall a, keeps_files (k a)) -> keeps_files (bind m k).
Proof.
  intros Hm Hk w. unfold bind. specialize (Hm w).
  destruct (m w) as [[a| |] w1]; simpl in *; try exact Hm.
  now rewrite Hk.
Qed.

Lemma keeps_files_readJson p : keeps_files (readJson p).
Proof.
  apply keeps_files_bind; [apply keeps_files_readFile|].
  intros text. destruct (JSON_parse text);
    [apply keeps_files_ret | apply keeps_files_throw].
Qed.

Lemma keeps_files_unique_slug rs s : keeps_files (unique_slug rs s).
Proof.
  unfold unique_slug. destruct (has_string _ _); [|apply keeps_files_ret].
  apply keeps_files_bind; [apply keeps_files_Date_now|]. intros t.
  apply keeps_files_bind; [apply keeps_files_log|]. intros _.
  apply keeps_files_ret.
Qed.

Lemma always_ok_ret {A} (a : A) : always_ok (ret a).
Proof. intros w. now exists a. Qed.

Lemma always_ok_log e : always_ok (log e).
Proof. intros w. now exists tt. Qed.

Lemma always_ok_writeJson p v : always_ok (writeJson p v).
Proof. intros w. now exists tt. Qed.

Lemma always_ok_exists_file p : always_ok (exists_file p).
Proof.
  intros w. unfold exists_file. destruct (files w p); [now exists true | now exists false].
Qed.

Lemma always_ok_copyPlaceholderIfExists p : always_ok (copyPlaceholderIfExists p).
Proof.
  intros w. unfold copyPlaceholderIfExists.
  destruct (files w PLACEHOLDER); [now exists true | now exists false].
Qed.

Lemma always_ok_bind {A B} (m : M A) (k : A -> M B) :
  always_ok m -> (forall a, always_ok (k a)) -> always_ok (bind m k).
Proof.
  intros Hm Hk w. unfold bind. destruct (Hm w) as [a Ha].
  destruct (m w) as [r w1]. simpl in Ha. subst r. apply Hk.
Qed.

Lemma writes_only_on_success_keeps {A} (m : M A) :
  keeps_files m -> writes_only_on_success m.
Proof. intros Hm w. right. apply Hm. Qed.

Lemma writes_only_on_success_ok {A} (m : M A) :
  always_ok m -> writes_only_on_success m.
Proof. intros Hm w. left. apply Hm. Qed.

Lemma writes_only_on_success_bind {A B} (m : M A) (k : A -> M B) :
  keeps_files m -> (forall a, writes_only_on_success (k a)) ->
  writes_only_on_success (bind m k).
Proof.
  intros Hm Hk w. unfold bind. specialize (Hm w).
  destruct (m w) as [[a| |] w1]; simpl in *; try (right; exact Hm).
  destruct (Hk a w1) as [Hok|Hf]; [left; exact Hok | right; congruence].
Qed.

Ltac keeps :=
  first
    [ apply keeps_files_ret | apply keeps_files_throw | apply keeps_files_log
    | apply keeps_files_ask | apply keeps_files_Date_now
    | apply keeps_files_readFile | apply keeps_files_exists_file
    | apply keeps_files_ensureDir | apply keeps_files_readJson
    | apply keeps_files_unique_slug | apply keeps_files_list_suggestions ].

(** [main] changes no file unless it runs to its end. *)
Lemma main_writes_only_on_success : writes_only_on_success main.
Proof.
  unfold main.
  apply writes_only_on_success_bind; [keeps | intros restaurantsJson].
  apply writes_only_on_success_bind;
    [destruct restaurantsJson; keeps | intros restaurants].
  apply writes_only_on_success_bind; [keeps | intros areas].
  apply writes_only_on_success_bind; [keeps | intros cuisinesJson].
  apply writes_only_on_success_bind; [keeps | intros _].
  apply writes_only_on_success_bind; [keeps | intros a_name].
  destruct (negb _); [apply writes_only_on_success_keeps; keeps|].
  apply writes_only_on_success_bind; [keeps | intros a_slug].
  destruct (negb _); [apply writes_only_on_success_keeps; keeps|].
  apply writes_only_on_success_bind; [keeps | intros slug].
  do 2 (apply writes_only_on_success_bind; [keeps | intros _]).
  apply writes_only_on_success_bind; [keeps | intros a_area].
  destruct (negb _); [apply writes_only_on_success_keeps; keeps|].
  apply writes_only_on_success_bind;
    [destruct (_ && _); keeps | intros _].
  apply writes_only_on_success_bind; [keeps | intros a_address].
  apply writes_only_on_success_bind; [keeps | intros a_price].
  do 2 (apply writes_only_on_success_bind; [keeps | intros _]).
  apply writes_only_on_success_bind; [keeps | intros a_cuisines].
  destruct (parseList a_cuisines) as [|c cs];
    [apply writes_only_on_success_keeps; keeps|].
  do 9 (apply writes_only_on_success_bind; [keeps | intros ?]).
  apply writes_only_on_success_ok.
  apply always_ok_bind; [apply always_ok_exists_file | intros present].
  apply always_ok_bind.
  - destruct present; [apply always_ok_ret|].
    apply always_ok_bind; [apply always_ok_copyPlaceholderIfExists | intros copied].
    destruct copied; apply always_ok_log.
  - intros _. apply always_ok_bind; [apply always_ok_writeJson | intros _].
    apply always_ok_log.
Qed.

End MainProperties.

(** ** Running [main] step by step *)

Section Running.
Context `{Unicode} `{Numbers} `{Host}.

Lemma bind_run {A B} (m : M A) (k : A -> M B) w :
  bind m k w =
  match m w with
  | (Ok a, w') => k a w'
  | (Throw e, w') => (Throw e, w')
  | (Pending, w') => (Pending, w')
  end.
Proof. reflexivity. Qed.

Lemma ret_run {A} (a : A) w : ret a w = (Ok a, w).
Proof. reflexivity. Qed.

Lemma throw_run {A} e w : throw (A := A) e w = (Throw e, w).
Proof. reflexivity. Qed.

Lemma readJson_run p w :
  readJson p w =
  match files w p with
  | Some text =>
      match JSON_parse text with
      | Some v => (Ok v, w)
      | None => (Throw JSONSyntaxError, w)
      end
  | None => (Throw (ENOENT p), w)
  end.
Proof.
  unfold readJson, readFile, bind. destruct (files w p) as [text|]; [|reflexivity].
  now destruct (JSON_parse text).
Qed.

Lemma ask_run q fs fo an t co :
  ask q {| files := fs; folders := fo; answers := an; now := t; console := co |}
  = match an with
    | a :: rest =>
        (Ok a, {| files := fs; folders := fo; answers := rest; now := t;
                  console := Asked q :: co |})
    | [] =>
        (end_of_input, {| files := fs; folders := fo; answers := []; now := t;
                          console := Asked q :: co |})
    end.
Proof. reflexivity. Qed.

Lemma bind_ask_run {B} q (k : jsstring -> M B) fs fo an t co :
  bind (ask q) k
    {| files := fs; folders := fo; answers := an; now := t; console := co |}
  = match an with
    | a :: rest =>
        k a {| files := fs; folders := fo; answers := rest; now := t;
               console := Asked q :: co |}
    | [] =>
        (end_of_input, {| files := fs; folders := fo; answers := []; now := t;
                          console := Asked q :: co |})
    end.
Proof.
  unfold bind, ask, end_of_input. cbn [answers files folders now console].
  destruct an; [|reflexivity]. now destruct stdin.
Qed.

Lemma log_run e fs fo an t co :
  log e {| files := fs; folders := fo; answers := an; now := t; console := co |}
  = (Ok tt, {| files := fs; folders := fo; answers := an; now := t;
               console := e :: co |}).
Proof. reflexivity. Qed.

Lemma unique_slug_run rs s fs fo an t co :
  unique_slug rs s
    {| files := fs; folders := fo; answers := an; now := t; console := co |}
  = if has_string (existing_slugs rs) s then
      (Ok (s ++ str "-" ++ slice_last 5 (integer_toString t)),
       {| files := fs; folders := fo; answers := an; now := t;
          console :=
            SlugExists (s ++ str "-" ++ slice_last 5 (integer_toString t)) :: co |})
    else
      (Ok s, {| files := fs; folders := fo; answers := an; now := t; console := co |}).
Proof. unfold unique_slug. now destruct (has_string _ _). Qed.

Lemma ensureDir_run s fs fo an t co :
  ensureDir s {| files := fs; folders := fo; answers := an; now := t; console := co |}
  = match mkdir_code s with
    | Some code =>
        (Throw (SystemError code),
         {| files := fs; folders := fo; answers := an; now := t; console := co |})
    | None =>
        (Ok tt, {| files := fs;
                   folders := if existsb (jsstring_eqb s) fo then fo else s :: fo;
                   answers := an; now := t; console := co |})
    end.
Proof. reflexivity. Qed.

Lemma list_suggestions_run line xs fs fo an t co :
  list_suggestions line xs
    {| files := fs; folders := fo; answers := an; now := t; console := co |}
  = if forallb printable xs then
      (Ok tt, {| files := fs; folders := fo; answers := an; now := t;
                 console := line xs :: co |})
    else
      (Throw TypeError,
       {| files := fs; folders := fo; answers := an; now := t; console := co |}).
Proof. unfold list_suggestions. now destruct (forallb printable xs). Qed.

Lemma exists_file_run p fs fo an t co :
  exists_file p {| files := fs; folders := fo; answers := an; now := t; console := co |}
  = (match fs p with Some _ => Ok true | None => Ok false end,
     {| files := fs; folders := fo; answers := an; now := t; console := co |}).
Proof. unfold exists_file. cbn [files]. now destruct (fs p). Qed.

Lemma copyPlaceholderIfExists_run p fs fo an t co :
  copyPlaceholderIfExists p
    {| files := fs; folders := fo; answers := an; now := t; console := co |}
  = match fs PLACEHOLDER with
    | Some image =>
        (Ok true,
         {| files := fun q => if path_eqb q p then Some image else fs q;
            folders := fo; answers := an; now := t; console := co |})
    | None =>
        (Ok false,
         {| files := fs; folders := fo; answers := an; now := t; console := co |})
    end.
Proof. reflexivity. Qed.

Lemma writeJson_run p v fs fo an t co :
  writeJson p v {| files := fs; folders := fo; answers := an; now := t; console := co |}
  = (Ok tt,
     {| files := fun q =>
                   if path_eqb q p then Some (JSON_stringify v ++ [10]) else fs q;
        folders := fo; answers := an; now := t; console := co |}).
Proof. reflexivity. Qed.

End Running.

(** One step of a run: the head computation is replaced by what it does. *)
Ltac run :=
  repeat first
    [ rewrite bind_ask_run | rewrite bind_run | rewrite ret_run | rewrite throw_run
    | rewrite readJson_run | rewrite ask_run | rewrite log_run
    | rewrite unique_slug_run | rewrite ensureDir_run | rewrite exists_file_run
    | rewrite list_suggestions_run
    | rewrite copyPlaceholderIfExists_run | rewrite writeJson_run
    | progress cbn [files folders answers now console fst snd andb nth
                    skipn nonempty_list negb path_eqb] ].

(** A case split on the test the run is stuck at. *)
Ltac split_head :=
  match goal with
  | |- context [match ?x with _ => _ end] =>
      lazymatch x with
      | context [match _ with _ => _ end] => fail
      | _ => destruct x eqn:?
      end
  end.

Ltac run_all := repeat first [ progress run | split_head ].

(** The tests a branch has passed, used to settle the others. *)
Ltac settle_tests :=
  repeat match goal with
  | Hb : negb ?b = _ |- _ =>
      destruct b eqn:?; cbn [negb] in Hb; try discriminate Hb; clear Hb
  end;
  cbn [andb negb].

(** What the tests of a branch say about the rest of the goal. *)
Ltac use_tests :=
  repeat match goal with
  | Heq : ?x = _ |- context [?x] => rewrite Heq
  end.

Ltac unfold_input :=
  unfold valid_input, suggestions_printable, mkdir_accepts, parsed, stored_records,
    readable, collected_entry, final_slug, candidate_slug, answer;
  cbn [files folders answers now console fst snd andb nth skipn nonempty_list negb].

Section MainRuns.
Context `{Unicode} `{Numbers} `{Host}.

(** How [main] ends is what [verdict] reads off the input. *)
Lemma main_result (w : World) : fst (main w) = verdict w.
Proof.
  remember (verdict w) as v eqn:Ev.
  remember (fun rw : result unit * World => fst rw = v) as ends eqn:Eends.
  assert (ends (main w)) as Hm; [|now rewrite Eends in Hm].
  destruct w as [fs fo an t co].
  unfold main. run_all; subst ends v; cbn [fst]; settle_tests;
    unfold verdict, load, need, check, final_slug, candidate_slug, answer;
    cbn [files answers now nth List.length Nat.leb]; use_tests;
    cbn [nonempty_list]; try reflexivity.
Qed.

End MainRuns.

Section MainRuns2.
Context `{Unicode} `{Numbers} `{Host}.

Lemma end_of_input_not_Ok {A} (a : A) : end_of_input <> Ok a.
Proof. unfold end_of_input. destruct stdin; discriminate. Qed.

(** [verdict] is [Ok] exactly on a valid input. *)
Lemma verdict_ok_iff (w : World) : verdict w = Ok tt <-> valid_input w = true.
Proof.
  unfold verdict, load, valid_input, suggestions_printable, mkdir_accepts, parsed,
    stored_records, need, check, final_slug, candidate_slug, answer.
  destruct (files w FILE_RESTAURANTS) as [text|]; [|split; discriminate].
  destruct (JSON_parse text) as [[| | | |restaurants|]|]; try (split; discriminate).
  destruct (files w FILE_AREAS) as [text_a|]; [|split; discriminate].
  destruct (JSON_parse text_a) as [areas|]; [|split; discriminate].
  destruct (files w FILE_CUISINES) as [text_c|];
    [|rewrite andb_false_r; split; discriminate].
  destruct (JSON_parse text_c) as [cuisinesJson|];
    [|rewrite andb_false_r; split; discriminate].
  pose proof (end_of_input_not_Ok (A := unit) tt) as Hend.
  remember (answers w) as an eqn:Ean. clear Ean.
  do 14 (destruct an as [|? an];
         [cbn [List.length Nat.leb skipn nonempty_list nth];
          rewrite ?andb_false_r; cbn [andb];
          repeat match goal with
                 | |- context [if ?b then _ else _] => destruct b
                 end; split; (discriminate || congruence)|]).
  cbn [List.length Nat.leb skipn nonempty_list nth]. rewrite ?andb_true_r.
  destruct (mkdir_code _);
    repeat match goal with
           | |- context [if ?b then _ else _] => destruct b
           end;
    cbn [andb]; rewrite ?andb_false_r; split; (discriminate || reflexivity).
Qed.

(** [main] runs to its end exactly on a valid input. *)
Lemma main_ok_iff (w : World) : fst (main w) = Ok tt <-> valid_input w = true.
Proof. rewrite main_result. apply verdict_ok_iff. Qed.

Lemma path_eqb_eq (p q : path) : path_eqb p q = true <-> p = q.
Proof.
  destruct p, q; simpl; split; intros E; try discriminate E; try reflexivity.
  - apply jsstring_eqb_eq in E. now subst.
  - injection E as ->. apply jsstring_eqb_refl.
Qed.

(** The world [main] leaves at its end. The files: the store with one
    record more, the first photo of the record (the one that was there, or
    else the placeholder when there is one), and every other file as it
    was. The photo folder of the new slug is added to the folders, fourteen
    lines are read, the clock is as it was, and the lines of [printed] are
    on the console. *)
Lemma main_world (w : World) (restaurants : list value) (areas cuisinesJson : value)
  (p : path) :
  valid_input w = true -> stored_records w = Some restaurants ->
  parsed w FILE_AREAS = Some areas -> parsed w FILE_CUISINES = Some cuisinesJson ->
  files (snd (main w)) p
  = (if path_eqb p FILE_RESTAURANTS then
       Some (JSON_stringify (VArr (restaurants ++ [collected_entry restaurants w]))
             ++ [10])
     else if path_eqb p (PhotoFile (final_slug restaurants w)) then
       match files w (PhotoFile (final_slug restaurants w)) with
       | Some photo => Some photo
       | None => files w PLACEHOLDER
       end
     else files w p)
  /\ folders (snd (main w))
     = (if existsb (jsstring_eqb (final_slug restaurants w)) (folders w)
        then folders w else final_slug restaurants w :: folders w)
  /\ answers (snd (main w)) = skipn 14 (answers w)
  /\ now (snd (main w)) = now w
  /\ console (snd (main w))
     = printed restaurants areas cuisinesJson w ++ console w.
Proof.
  intros Hv Hs Ha Hc. apply main_ok_iff in Hv. revert Hv.
  match goal with
  | |- ?l0 -> ?l1 = ?r1 /\ ?l2 = ?r2 /\ ?l3 = ?r3 /\ ?l4 = ?r4 /\ ?l5 = ?r5 =>
      remember r1 as fi' eqn:Efi; remember r2 as fo' eqn:Efo;
      remember r3 as an' eqn:Ean; remember r4 as t' eqn:Et;
      remember r5 as co' eqn:Eco
  end.
  remember (fun rw : result unit * World =>
              fst rw = Ok tt ->
              files (snd rw) p = fi' /\ folders (snd rw) = fo'
              /\ answers (snd rw) = an' /\ now (snd rw) = t'
              /\ console (snd rw) = co') as ends eqn:Eends.
  assert (ends (main w)) as Hm; [|now rewrite Eends in Hm].
  destruct w as [fs fo an t co].
  unfold main. run_all; subst ends; cbn [fst snd files folders answers now console];
    settle_tests; intros Hv; try discriminate Hv;
    try (now destruct (end_of_input_not_Ok _ Hv));
    subst fi' fo' an' t' co'; revert Hs Ha Hc; unfold printed; unfold_input;
    use_tests; intros Hs Ha Hc;
    injection Hs as <-; injection Ha as <-; injection Hc as <-; use_tests;
    cbn [app]; (split; [|repeat split]);
    destruct (path_eqb p FILE_RESTAURANTS) eqn:Ep; try reflexivity;
    match goal with
    | |- context [path_eqb p (PhotoFile ?s)] =>
        destruct (path_eqb p (PhotoFile s)) eqn:Eq;
        [apply path_eqb_eq in Eq; subst p; use_tests|]
    end; reflexivity.
Qed.

(** A run that does not reach its end writes no file and makes no folder:
    every check and every question comes before line 141, and a folder
    that cannot be made is not made. *)
Lemma main_fail_keeps (w : World) :
  fst (main w) <> Ok tt ->
  files (snd (main w)) = files w /\ folders (snd (main w)) = folders w.
Proof.
  remember (fun rw : result unit * World =>
              fst rw <> Ok tt ->
              files (snd rw) = files w /\ folders (snd rw) = folders w)
    as ends eqn:Eends.
  assert (ends (main w)) as Hm; [|now rewrite Eends in Hm].
  destruct w as [fs fo an t co].
  unfold main. run_all; subst ends; cbn [fst snd files folders]; intros Hne;
    solve [split; reflexivity | now destruct Hne].
Qed.

End MainRuns2.

(** ** Comma-separated answers *)

Lemma split_comma_nonnil (s : jsstring) : split_comma s <> [].
Proof.
  destruct s as [|c s]; cbn [split_comma]; [discriminate|].
  destruct (c =? 44); [discriminate|]. destruct (split_comma s); discriminate.
Qed.

Lemma split_comma_app (a b : jsstring) :
  split_comma (a ++ 44 :: b) = split_comma a ++ split_comma b.
Proof.
  induction a as [|c a IH]; [reflexivity|].
  cbn [app split_comma]. rewrite IH.
  destruct (c =? 44); [reflexivity|].
  pose proof (split_comma_nonnil a) as Hn.
  destruct (split_comma a); [congruence | reflexivity].
Qed.

Lemma split_comma_plain (s : jsstring) :
  forallb (fun c => negb (c =? 44)) s = true -> split_comma s = [s].
Proof.
  induction s as [|c s IH]; [reflexivity|]. cbn [forallb split_comma].
  intros H. apply andb_prop in H as [Hc Hs]. apply negb_true_iff in Hc.
  now rewrite Hc, (IH Hs).
Qed.

Lemma split_comma_segments (s : jsstring) :
  Forall (fun seg => forallb (fun c => negb (c =? 44)) seg = true) (split_comma s).
Proof.
  induction s as [|c s IH]; cbn [split_comma]; [repeat constructor|].
  destruct (c =? 44) eqn:Ec; [constructor; [reflexivity | exact IH]|].
  destruct (split_comma s) as [|p ps]; [repeat constructor; simpl; now rewrite Ec|].
  inversion IH as [|? ? Hp Hps]; subst. constructor; [|exact Hps].
  simpl. now rewrite Ec, Hp.
Qed.

Lemma parseList_app (a b : jsstring) :
  parseList (a ++ 44 :: b) = parseList a ++ parseList b.
Proof. unfold parseList. now rewrite split_comma_app, map_app, filter_app. Qed.

Lemma parseList_plain (s : jsstring) :
  forallb (fun c => negb (c =? 44)) s = true ->
  parseList s = if nonempty (trim s) then [trim s] else [].
Proof. intros Hs. unfold parseList. rewrite (split_comma_plain s Hs). reflexivity. Qed.

Lemma dropWhile_app_all p (a b : jsstring) :
  forallb p a = true -> dropWhile p (a ++ b) = dropWhile p b.
Proof.
  induction a as [|c a IH]; [reflexivity|]. simpl. intros H.
  apply andb_prop in H as [Hc Ha]. rewrite Hc. now apply IH.
Qed.

Lemma dropWhileEnd_nil_iff p (s : jsstring) :
  dropWhileEnd p s = [] <-> forallb p s = true.
Proof.
  induction s as [|c s IH]; [now split|]. cbn [dropWhileEnd forallb].
  destruct (dropWhileEnd p s) as [|d t].
  - destruct (p c); simpl; [|split; discriminate].
    split; [intros _; now apply IH | reflexivity].
  - split; [discriminate|]. intros E. apply andb_prop in E as [_ E].
    apply IH in E. discriminate E.
Qed.

Lemma dropWhile_nil_iff p (s : jsstring) :
  dropWhile p s = [] <-> forallb p s = true.
Proof.
  induction s as [|c s IH]; [now split|]. cbn [dropWhile forallb].
  destruct (p c); simpl; [exact IH | split; discriminate].
Qed.

Lemma trim_nil_iff (s : jsstring) : trim s = [] <-> forallb is_whitespace s = true.
Proof.
  unfold trim. rewrite dropWhileEnd_nil_iff. split.
  - intros H. induction s as [|c s IH]; [reflexivity|]. simpl in *.
    destruct (is_whitespace c) eqn:E; [now apply IH|].
    simpl in H. now rewrite E in H.
  - intros H. now apply dropWhile_forallb.
Qed.

Lemma split_comma_blank (s : jsstring) :
  Forall (fun seg => forallb is_whitespace seg = true) (split_comma s)
  <-> forallb (fun c => is_whitespace c || (c =? 44)) s = true.
Proof.
  induction s as [|c s IH]; cbn [split_comma forallb].
  - split; [reflexivity | repeat constructor].
  - destruct (c =? 44) eqn:Ec.
    + rewrite orb_true_r. cbn [andb]. etransitivity; [|exact IH]. split.
      * now inversion 1.
      * now constructor.
    + rewrite orb_false_r.
      pose proof (split_comma_nonnil s) as Hn.
      destruct (split_comma s) as [|p ps]; [congruence|]. split.
      * inversion 1 as [|? ? Hp Hps]; subst. simpl in Hp.
        apply andb_prop in Hp as [Hc Hp]. rewrite Hc. apply IH. now constructor.
      * intros E. apply andb_prop in E as [Hc E]. apply IH in E.
        inversion E as [|? ? Hp Hps]; subst. constructor; [|exact Hps].
        simpl. now rewrite Hc, Hp.
Qed.

Lemma parseList_nil_iff (s : jsstring) :
  parseList s = []
  <-> forallb (fun c => is_whitespace c || (c =? 44)) s = true.
Proof.
  etransitivity; [|apply split_comma_blank]. unfold parseList.
  induction (split_comma s) as [|seg segs IH]; cbn [map filter].
  - split; [constructor | reflexivity].
  - destruct (nonempty (trim seg)) eqn:E.
    + split; [discriminate|]. inversion 1 as [|? ? Hseg _]; subst.
      apply trim_nil_iff in Hseg. rewrite Hseg in E. discriminate E.
    + split.
      * intros Hs. apply IH in Hs. constructor; [|exact Hs]. apply trim_nil_iff.
        now destruct (trim seg).
      * inversion 1; subst. now apply IH.
Qed.

Lemma parseList_leading_space (c : codeunit) (s : jsstring) :
  is_whitespace c = true -> (c =? 44) = false ->
  parseList (c :: s) = parseList s.
Proof.
  intros Hw Hc. unfold parseList. cbn [split_comma]. rewrite Hc.
  pose proof (split_comma_nonnil s) as Hn.
  destruct (split_comma s) as [|p ps]; [congruence|].
  cbn [map]. unfold trim at 1. cbn [dropWhile]. rewrite Hw. reflexivity.
Qed.

Lemma parseList_join_items (items : list jsstring) :
  Forall (fun item => item <> [] /\ trim item = item
                      /\ forallb (fun c => negb (c =? 44)) item = true) items ->
  parseList (join (str ", ") items) = items.
Proof.
  induction 1 as [|p rest (Hne & Ht & Hc) Hrest IH]; [reflexivity|].
  assert (parseList p = [p]) as Hp.
  { rewrite (parseList_plain p Hc), Ht. now destruct p. }
  destruct rest as [|q rest]; [exact Hp|].
  change (join (str ", ") (p :: q :: rest))
    with (p ++ 44 :: 32 :: join (str ", ") (q :: rest)).
  rewrite parseList_app, Hp, parseList_leading_space by reflexivity.
  cbn [app]. f_equal. exact IH.
Qed.

Lemma parseList_no_comma (s : jsstring) :
  Forall (fun item => ~ In 44 item) (parseList s).
Proof.
  unfold parseList. apply Forall_forall. intros item Hin.
  apply filter_In in Hin as [Hin _]. apply in_map_iff in Hin as (seg & <- & Hseg).
  pose proof (split_comma_segments s) as Hall.
  rewrite Forall_forall in Hall. specialize (Hall seg Hseg).
  intros H44.
  assert (forallb (fun c => negb (c =? 44)) (trim seg) = true) as Ht
    by (unfold trim; now apply dropWhileEnd_forallb, dropWhile_forallb).
  rewrite forallb_forall in Ht. specialize (Ht 44 H44). discriminate Ht.
Qed.

(** X9. A comma-separated answer is read piece by piece: the items of a
    text with a comma in it are the items of what is before the comma and
    then the items of what is after it; a text with no comma gives itself,
    trimmed, or nothing when that is empty. No item has a comma in it. *)
Theorem parseList_splits_at_commas (a b : jsstring) :
  parseList (a ++ 44 :: b) = parseList a ++ parseList b
  /\ (forallb (fun c => negb (c =? 44)) a = true ->
      parseList a = if nonempty (trim a) then [trim a] else [])
  /\ Forall (fun item => ~ In 44 item) (parseList a).
Proof.
  split; [apply parseList_app|]. split; [apply parseList_plain|].
  apply parseList_no_comma.
Qed.

(** X11. Items written the way the questions show them, with a comma and a
    space between them, are read back as they are: the items are not empty,
    have no white space at their ends and no comma. *)
Theorem parseList_join (items : list jsstring) :
  Forall (fun item => item <> [] /\ trim item = item
                      /\ forallb (fun c => negb (c =? 44)) item = true) items ->
  parseList (join (str ", ") items) = items.
Proof. apply parseList_join_items. Qed.

(** ** What the slug normalizer keeps *)

Lemma filter_replace_nonalnum b s :
  filter is_slug_alnum (replace_runs_from not_slug_alnum (str "-") b s)
  = filter is_slug_alnum s.
Proof.
  revert b. induction s as [|c s IH]; intros b; [reflexivity|].
  cbn [replace_runs_from filter]. unfold not_slug_alnum at 1.
  destruct (is_slug_alnum c) eqn:E; cbn [negb].
  - cbn [filter]. now rewrite E, IH.
  - rewrite filter_app, IH. now destruct b.
Qed.

Lemma filter_replace_hyphens b s :
  filter is_slug_alnum (replace_runs_from is_hyphen (str "-") b s)
  = filter is_slug_alnum s.
Proof.
  revert b. induction s as [|c s IH]; intros b; [reflexivity|].
  cbn [replace_runs_from filter].
  destruct (is_hyphen c) eqn:E.
  - rewrite filter_app, IH.
    destruct (is_slug_alnum c) eqn:Ea;
      [apply slug_alnum_not_hyphen in Ea; congruence|].
    now destruct b.
  - cbn [filter]. now rewrite IH.
Qed.

Lemma filter_dropWhile (p q : codeunit -> bool) s :
  (forall c, p c = true -> q c = false) ->
  filter q (dropWhile p s) = filter q s.
Proof.
  intros Hpq. induction s as [|c s IH]; [reflexivity|]. cbn [dropWhile filter].
  destruct (p c) eqn:E; [|reflexivity]. now rewrite (Hpq _ E).
Qed.

Lemma filter_dropWhileEnd (p q : codeunit -> bool) s :
  (forall c, p c = true -> q c = false) ->
  filter q (dropWhileEnd p s) = filter q s.
Proof.
  intros Hpq. induction s as [|c s IH]; [reflexivity|]. cbn [dropWhileEnd filter].
  rewrite <- IH. destruct (dropWhileEnd p s) as [|d t].
  - destruct (p c) eqn:E; [now rewrite (Hpq _ E)|]. cbn [filter].
    now destruct (q c).
  - reflexivity.
Qed.

Lemma hyphen_not_alnum c : is_hyphen c = true -> is_slug_alnum c = false.
Proof.
  intros Hc. destruct (is_slug_alnum c) eqn:E; [|reflexivity].
  apply slug_alnum_not_hyphen in E. congruence.
Qed.

Lemma forallb_trim (q : codeunit -> bool) s :
  (forall c, is_whitespace c = true -> q c = true) ->
  forallb q (trim s) = forallb q s.
Proof.
  intros Hq. unfold trim.
  assert (forall t, forallb q (dropWhile is_whitespace t) = forallb q t) as Hd.
  { induction t as [|c t IH]; [reflexivity|]. cbn [dropWhile forallb].
    destruct (is_whitespace c) eqn:E; [|reflexivity]. now rewrite (Hq _ E). }
  assert (forall t, forallb q (dropWhileEnd is_whitespace t) = forallb q t) as He.
  { induction t as [|c t IH]; [reflexivity|]. cbn [dropWhileEnd forallb].
    rewrite <- IH. destruct (dropWhileEnd is_whitespace t) as [|d u].
    - destruct (is_whitespace c) eqn:E; [now rewrite (Hq _ E)|]. reflexivity.
    - reflexivity. }
  now rewrite He, Hd.
Qed.

Lemma dropWhile_map (p : codeunit -> bool) (f : codeunit -> codeunit) s :
  (forall c, p (f c) = p c) ->
  dropWhile p (map f s) = map f (dropWhile p s).
Proof.
  intros Hf. induction s as [|c s IH]; [reflexivity|]. cbn [map dropWhile].
  rewrite Hf. now destruct (p c).
Qed.

Lemma dropWhileEnd_map (p : codeunit -> bool) (f : codeunit -> codeunit) s :
  (forall c, p (f c) = p c) ->
  dropWhileEnd p (map f s) = map f (dropWhileEnd p s).
Proof.
  intros Hf. induction s as [|c s IH]; [reflexivity|]. cbn [map dropWhileEnd].
  rewrite IH, Hf. destruct (dropWhileEnd p s); [now destruct (p c) | reflexivity].
Qed.

Lemma ascii_lower_whitespace c : is_whitespace (ascii_lower c) = is_whitespace c.
Proof.
  unfold ascii_lower. destruct (is_upper c) eqn:E; [|reflexivity].
  bool_to_prop E.
  assert (is_whitespace c = false) as ->
    by (apply not_true_is_false; intros Hb; bool_to_prop Hb; lia).
  apply not_true_is_false. intros Hb. bool_to_prop Hb. lia.
Qed.

Lemma ascii_lower_idempotent c : ascii_lower (ascii_lower c) = ascii_lower c.
Proof.
  unfold ascii_lower. destruct (is_upper c) eqn:E; [|now rewrite E].
  assert (is_upper (c + 32) = false) as ->; [|reflexivity].
  bool_to_prop E. apply not_true_is_false. intros Hb. bool_to_prop Hb. lia.
Qed.

Lemma ascii_lower_ascii c : is_ascii c = true -> is_ascii (ascii_lower c) = true.
Proof.
  unfold ascii_lower. destruct (is_upper c) eqn:E; [|trivial]. intros _.
  bool_to_prop E. apply N.ltb_lt. lia.
Qed.

Lemma trim_map_lower s : trim (map ascii_lower s) = map ascii_lower (trim s).
Proof.
  unfold trim.
  rewrite dropWhile_map, dropWhileEnd_map by apply ascii_lower_whitespace.
  reflexivity.
Qed.

Lemma forallb_map {A B} (f : A -> B) (q : B -> bool) (l : list A) :
  forallb q (map f l) = forallb (fun x => q (f x)) l.
Proof. induction l as [|x l IH]; simpl; [reflexivity | now rewrite IH]. Qed.

Lemma trim_ascii s : forallb is_ascii s = true -> forallb is_ascii (trim s) = true.
Proof. intros Hs. unfold trim. now apply dropWhileEnd_forallb, dropWhile_forallb. Qed.

Section SlugifyMore.
Context `{Unicode}.

(** The string [slugify] works on once the text is trimmed, folded and
    stripped of apostrophes, with [&] spelled out. *)
Lemma slugify_keeps_alnum_units s :
  filter is_slug_alnum (slugify s)
  = filter is_slug_alnum
      (replace_each is_ampersand (str " and ")
         (replace_each is_apostrophe []
            (normalizeNFKD (toLowerCase (trim s))))).
Proof.
  unfold slugify, replace_runs, strip_hyphens.
  rewrite filter_replace_hyphens.
  rewrite filter_dropWhileEnd, filter_dropWhile by apply hyphen_not_alnum.
  apply filter_replace_nonalnum.
Qed.

Lemma slugify_lower_ascii s :
  forallb is_ascii s = true -> slugify (map ascii_lower s) = slugify s.
Proof.
  intros Hs. unfold slugify. rewrite trim_map_lower.
  rewrite (toLowerCase_ascii (trim s)) by now apply trim_ascii.
  rewrite toLowerCase_ascii.
  - now rewrite map_map, (map_ext _ _ ascii_lower_idempotent).
  - rewrite forallb_map. apply (forallb_impl is_ascii); [apply ascii_lower_ascii|].
    now apply trim_ascii.
Qed.

End SlugifyMore.

Lemma filter_nil_iff {A} (q : A -> bool) (l : list A) :
  filter q l = [] <-> forallb (fun x => negb (q x)) l = true.
Proof.
  induction l as [|x l IH]; [now split|]. cbn [filter forallb].
  destruct (q x); cbn [negb andb]; [split; discriminate | exact IH].
Qed.

Lemma forallb_ext {A} (p q : A -> bool) (l : list A) :
  (forall x, p x = q x) -> forallb p l = forallb q l.
Proof. intros E. induction l as [|x l IH]; simpl; [reflexivity | now rewrite E, IH]. Qed.

Lemma forallb_spell_out (r : codeunit -> bool) s :
  forallb r (str " and ") = false ->
  forallb r (replace_each is_ampersand (str " and ") s)
  = forallb (fun c => negb (is_ampersand c) && r c) s.
Proof.
  intros Hr. unfold replace_each.
  induction s as [|c s IH]; [reflexivity|]. cbn [flat_map forallb].
  rewrite forallb_app, IH. destruct (is_ampersand c); [now rewrite Hr|].
  cbn [forallb negb andb]. now rewrite andb_true_r.
Qed.

Lemma forallb_drop_apostrophes (r : codeunit -> bool) s :
  forallb r (replace_each is_apostrophe [] s)
  = forallb (fun c => is_apostrophe c || r c) s.
Proof.
  unfold replace_each. induction s as [|c s IH]; [reflexivity|].
  cbn [flat_map forallb]. rewrite forallb_app, IH.
  destruct (is_apostrophe c); cbn [forallb orb andb]; [reflexivity|].
  now rewrite andb_true_r.
Qed.

Lemma slug_blank_unit c :
  is_apostrophe (ascii_lower c)
  || (negb (is_ampersand (ascii_lower c)) && negb (is_slug_alnum (ascii_lower c)))
  = is_slug_blank c.
Proof.
  unfold is_slug_blank, ascii_lower. destruct (is_upper c) eqn:Eu.
  - bool_to_prop Eu. cbn [orb negb].
    assert (is_slug_alnum (c + 32) = true) as ->.
    { unfold is_slug_alnum, is_lower, in_range. apply orb_true_iff. left.
      apply andb_true_iff. split; apply N.leb_le; lia. }
    rewrite andb_false_r, orb_false_r.
    apply not_true_is_false. intros Hb. bool_to_prop Hb. lia.
  - cbn [orb]. unfold is_slug_alnum.
    destruct (is_lower c) eqn:El; [|destruct (is_digit c) eqn:Ed];
      [| |destruct (is_ampersand c) eqn:Ea]; cbn [orb negb andb];
      rewrite ?andb_false_r, ?orb_false_r, ?orb_true_r; try reflexivity.
    + bool_to_prop El. apply not_true_is_false. intros Hb. bool_to_prop Hb. lia.
    + bool_to_prop Ed. apply not_true_is_false. intros Hb. bool_to_prop Hb. lia.
    + bool_to_prop Ea. apply not_true_is_false. intros Hb. bool_to_prop Hb. lia.
Qed.

Lemma whitespace_slug_blank c : is_whitespace c = true -> is_slug_blank c = true.
Proof.
  intros Hw. unfold is_slug_blank. apply negb_true_iff.
  apply not_true_is_false. intros Hb. bool_to_prop Hw. bool_to_prop Hb. lia.
Qed.

Section SlugifyEmpty.
Context `{Unicode}.

Lemma slugify_nil_iff_units s :
  slugify s = []
  <-> filter is_slug_alnum
        (replace_each is_ampersand (str " and ")
           (replace_each is_apostrophe []
              (normalizeNFKD (toLowerCase (trim s))))) = [].
Proof.
  rewrite <- slugify_keeps_alnum_units. split; [now intros ->|].
  intros Hf. destruct (slugify_shape s) as (Hc & Hs & _ & _).
  destruct (slugify s) as [|c t]; [reflexivity|]. exfalso.
  cbn [filter] in Hf. cbn [forallb] in Hc. cbn [starts_with_hyphen] in Hs.
  apply andb_prop in Hc as [Hc _]. unfold is_slug_char in Hc.
  rewrite Hs, orb_false_r in Hc. rewrite Hc in Hf. discriminate Hf.
Qed.

Lemma slugify_nil_iff_ascii s :
  forallb is_ascii s = true ->
  (slugify s = [] <-> forallb is_slug_blank s = true).
Proof.
  intros Hs. rewrite slugify_nil_iff_units, filter_nil_iff.
  rewrite (toLowerCase_ascii (trim s)) by now apply trim_ascii.
  rewrite normalizeNFKD_ascii
    by (rewrite forallb_map; apply (forallb_impl is_ascii);
        [apply ascii_lower_ascii | now apply trim_ascii]).
  rewrite forallb_spell_out by reflexivity.
  rewrite forallb_drop_apostrophes, forallb_map.
  rewrite (forallb_ext _ is_slug_blank) by (intros c; apply slug_blank_unit).
  now rewrite forallb_trim by apply whitespace_slug_blank.
Qed.

End SlugifyEmpty.

(** ** How the slug normalizer composes *)

Lemma dropWhile_replace_nonalnum b s :
  dropWhile is_hyphen (replace_runs_from not_slug_alnum (str "-") b s)
  = dropWhile is_hyphen (replace_runs_from not_slug_alnum (str "-") false s).
Proof.
  destruct s as [|c s]; [reflexivity|]. cbn [replace_runs_from].
  destruct (not_slug_alnum c); [|reflexivity]. now destruct b.
Qed.

Lemma replace_nonalnum_in_run s :
  replace_runs_from not_slug_alnum (str "-") true s
  = dropWhile is_hyphen (replace_runs_from not_slug_alnum (str "-") false s).
Proof.
  rewrite <- (dropWhile_replace_nonalnum true). symmetry. apply dropWhile_id.
  destruct (replace_nonalnum_hyphens true s) as [_ Hs]. specialize (Hs eq_refl).
  destruct (replace_runs_from _ _ true s); [exact I | exact Hs].
Qed.

Lemma hyphenate_sep c s :
  not_slug_alnum c = true -> hyphenate (c :: s) = hyphenate s.
Proof.
  intros Hc. unfold hyphenate, strip_hyphens, replace_runs.
  cbn [replace_runs_from]. rewrite Hc. cbn [app str map list_ascii_of_string].
  change (N_of_ascii "-") with 45. cbn [dropWhile]. cbn [is_hyphen N.eqb Pos.eqb].
  now rewrite dropWhile_replace_nonalnum.
Qed.

Lemma dropWhileEnd_cons_keep (p : codeunit -> bool) c s :
  p c = false -> dropWhileEnd p (c :: s) = c :: dropWhileEnd p s.
Proof. intros Hc. cbn [dropWhileEnd]. rewrite Hc. now destruct (dropWhileEnd p s). Qed.

Lemma hyphenate_alnum c s :
  is_slug_alnum c = true -> hyphenate (c :: s) = c :: hyphenate_rest s.
Proof.
  intros Hc. unfold hyphenate, hyphenate_rest, strip_hyphens, replace_runs.
  cbn [replace_runs_from]. unfold not_slug_alnum at 1. rewrite Hc. cbn [negb].
  pose proof (slug_alnum_not_hyphen c Hc) as Hh.
  cbn [dropWhile]. rewrite Hh. now apply dropWhileEnd_cons_keep.
Qed.

Lemma hyphenate_rest_alnum c s :
  is_slug_alnum c = true -> hyphenate_rest (c :: s) = c :: hyphenate_rest s.
Proof.
  intros Hc. unfold hyphenate_rest, replace_runs.
  cbn [replace_runs_from]. unfold not_slug_alnum at 1. rewrite Hc. cbn [negb].
  apply dropWhileEnd_cons_keep. now apply slug_alnum_not_hyphen.
Qed.

Lemma hyphenate_rest_sep c s :
  not_slug_alnum c = true ->
  hyphenate_rest (c :: s)
  = match hyphenate s with [] => [] | u => 45 :: u end.
Proof.
  intros Hc. unfold hyphenate_rest, hyphenate, strip_hyphens, replace_runs.
  cbn [replace_runs_from]. rewrite Hc. cbn [app str map list_ascii_of_string].
  change (N_of_ascii "-") with 45. rewrite replace_nonalnum_in_run.
  cbn [dropWhileEnd]. now destruct (dropWhileEnd is_hyphen _).
Qed.

Lemma hyphenate_app_sep x c y :
  not_slug_alnum c = true ->
  hyphenate (x ++ c :: y) = glue (hyphenate x) (hyphenate y)
  /\ hyphenate_rest (x ++ c :: y)
     = hyphenate_rest x ++ match hyphenate y with [] => [] | u => 45 :: u end.
Proof.
  intros Hc. induction x as [|d x [IHf IHg]]; cbn [app].
  - split; [now rewrite hyphenate_sep | now rewrite hyphenate_rest_sep].
  - destruct (is_slug_alnum d) eqn:Ed.
    + rewrite !hyphenate_alnum, !hyphenate_rest_alnum, IHg by exact Ed.
      split; [|reflexivity]. unfold glue.
      destruct (hyphenate y); [now rewrite app_nil_r | reflexivity].
    + assert (not_slug_alnum d = true) as Hd
        by (unfold not_slug_alnum; now rewrite Ed).
      rewrite !hyphenate_sep, !hyphenate_rest_sep, IHf by exact Hd.
      split; [reflexivity|]. unfold glue.
      destruct (hyphenate x) as [|a u]; [reflexivity|].
      destruct (hyphenate y) as [|b v]; [now rewrite app_nil_r | reflexivity].
Qed.

Lemma hyphenate_blank_l w s :
  forallb not_slug_alnum w = true -> hyphenate (w ++ s) = hyphenate s.
Proof.
  induction w as [|c w IH]; [reflexivity|]. cbn [forallb app]. intros E.
  apply andb_prop in E as [Hc Hw]. rewrite hyphenate_sep by exact Hc. now apply IH.
Qed.

Lemma hyphenate_blank_r w s :
  forallb not_slug_alnum w = true -> hyphenate (s ++ w) = hyphenate s.
Proof.
  destruct w as [|c w]; [now rewrite app_nil_r|]. cbn [forallb]. intros E.
  apply andb_prop in E as [Hc Hw].
  destruct (hyphenate_app_sep s c w Hc) as [-> _].
  rewrite <- (app_nil_r w), hyphenate_blank_l by exact Hw.
  unfold glue. change (hyphenate []) with (@nil codeunit).
  now destruct (hyphenate s).
Qed.

Lemma dropWhile_split (p : codeunit -> bool) s :
  exists w, forallb p w = true /\ s = w ++ dropWhile p s.
Proof.
  induction s as [|c s (w & Hw & E)]; [now exists []|]. cbn [dropWhile].
  destruct (p c) eqn:Ec; [|now exists []].
  exists (c :: w). cbn [forallb app]. rewrite Ec, Hw. split; [reflexivity|].
  now f_equal.
Qed.

Lemma dropWhileEnd_split (p : codeunit -> bool) s :
  exists w, forallb p w = true /\ s = dropWhileEnd p s ++ w.
Proof.
  induction s as [|c s (w & Hw & E)]; [now exists []|]. cbn [dropWhileEnd].
  destruct (dropWhileEnd p s) as [|d t].
  - destruct (p c) eqn:Ec.
    + exists (c :: w). cbn [forallb app]. rewrite Ec, Hw. split; [reflexivity|].
      now f_equal.
    + exists w. split; [exact Hw|]. cbn [app]. now f_equal.
  - exists w. split; [exact Hw|]. cbn [app]. now f_equal.
Qed.

Lemma trim_split s :
  exists w1 w2,
    forallb is_whitespace w1 = true /\ forallb is_whitespace w2 = true
    /\ s = w1 ++ trim s ++ w2.
Proof.
  destruct (dropWhile_split is_whitespace s) as (w1 & H1 & E1).
  destruct (dropWhileEnd_split is_whitespace (dropWhile is_whitespace s))
    as (w2 & H2 & E2).
  exists w1, w2. repeat split; trivial. unfold trim. now rewrite <- E2.
Qed.

Lemma spell_out_app a b : spell_out (a ++ b) = spell_out a ++ spell_out b.
Proof.
  unfold spell_out, replace_each. now rewrite map_app, !flat_map_app.
Qed.

Lemma spell_out_blank w :
  forallb is_slug_blank w = true -> forallb not_slug_alnum (spell_out w) = true.
Proof.
  intros Hw. unfold spell_out.
  rewrite forallb_spell_out by reflexivity.
  rewrite forallb_drop_apostrophes, forallb_map.
  rewrite (forallb_ext _ is_slug_blank); [exact Hw|].
  intros c. apply slug_blank_unit.
Qed.

Section SlugifyCompose.
Context `{Unicode}.

(** On an ASCII text the slug is made from the whole text: trimming takes
    away only what the hyphen steps would take away. *)
Lemma slugify_ascii s :
  forallb is_ascii s = true -> slugify s = hyphenate (spell_out s).
Proof.
  intros Hs.
  assert (slugify s = hyphenate (spell_out (trim s))) as ->.
  { unfold slugify.
    rewrite (toLowerCase_ascii (trim s)) by now apply trim_ascii.
    rewrite normalizeNFKD_ascii
      by (rewrite forallb_map; apply (forallb_impl is_ascii);
          [apply ascii_lower_ascii | now apply trim_ascii]).
    fold (spell_out (trim s)). fold (hyphenate (spell_out (trim s))).
    apply replace_hyphen_runs_id; [|discriminate].
    apply strip_hyphens_shape;
      [apply replace_nonalnum_chars | apply (replace_nonalnum_hyphens false)]. }
  destruct (trim_split s) as (w1 & w2 & H1 & H2 & E).
  rewrite E at 2. rewrite !spell_out_app.
  rewrite hyphenate_blank_l, hyphenate_blank_r; [reflexivity| |];
    apply spell_out_blank;
    (eapply forallb_impl; [apply whitespace_slug_blank | eassumption]).
Qed.

Lemma slugify_app_separator a c b :
  forallb is_ascii (a ++ c :: b) = true ->
  is_slug_blank c = true -> is_apostrophe c = false ->
  slugify (a ++ c :: b) = glue (slugify a) (slugify b).
Proof.
  intros Hs Hc Ha.
  pose proof Hs as Hs'. rewrite forallb_app in Hs'. cbn [forallb] in Hs'.
  apply andb_prop in Hs' as [Hsa Hs']. apply andb_prop in Hs' as [_ Hsb].
  rewrite !slugify_ascii by assumption.
  rewrite spell_out_app.
  assert (spell_out (c :: b) = c :: spell_out b) as ->.
  { change (c :: b) with ([c] ++ b). rewrite spell_out_app. f_equal.
    unfold spell_out, replace_each, ascii_lower. cbn [map flat_map].
    unfold is_slug_blank in Hc. apply negb_true_iff in Hc.
    apply orb_false_iff in Hc as [Hc Hamp]. apply orb_false_iff in Hc as [Hc _].
    apply orb_false_iff in Hc as [Hup _].
    rewrite Hup, Ha. cbn [app flat_map]. now rewrite Hamp. }
  apply hyphenate_app_sep.
  unfold is_slug_blank in Hc. apply negb_true_iff in Hc.
  apply orb_false_iff in Hc as [Hc _]. apply orb_false_iff in Hc as [Hc Hd].
  apply orb_false_iff in Hc as [_ Hl].
  unfold not_slug_alnum, is_slug_alnum. now rewrite Hl, Hd.
Qed.

Lemma slugify_apostrophe a b :
  forallb is_ascii (a ++ b) = true ->
  slugify (a ++ 39 :: b) = slugify (a ++ b).
Proof.
  intros Hs.
  assert (forallb is_ascii (a ++ 39 :: b) = true) as Hs'.
  { rewrite forallb_app in Hs |- *. cbn [forallb]. exact Hs. }
  rewrite !slugify_ascii by assumption.
  now rewrite !spell_out_app.
Qed.

Lemma slugify_ampersand a b :
  forallb is_ascii (a ++ b) = true ->
  slugify (a ++ 38 :: b) = slugify (a ++ str " and " ++ b).
Proof.
  intros Hs. rewrite forallb_app in Hs. apply andb_prop in Hs as [Ha Hb].
  rewrite !slugify_ascii
    by (rewrite ?forallb_app; cbn [forallb]; rewrite ?forallb_app;
        now rewrite Ha, Hb).
  now rewrite !spell_out_app.
Qed.

End SlugifyCompose.

Section SlugifyTheorems.
Context `{Unicode}.

(** X12. The normalizer keeps the letters and digits: the lowercase ASCII
    letters and the digits of the slug are those of the text once it is
    trimmed, put in lower case and decomposed, its apostrophes dropped and
    its [&] spelled [and], in the same order. All it does after that is to
    put hyphens. *)
Theorem slugify_keeps_alnum (s : jsstring) :
  filter is_slug_alnum (slugify s)
  = filter is_slug_alnum
      (replace_each is_ampersand (str " and ")
         (replace_each is_apostrophe []
            (normalizeNFKD (toLowerCase (trim s))))).
Proof. apply slugify_keeps_alnum_units. Qed.

(** X13. When the slug is empty, so that the run stops at line 100: when
    the prepared text has no lowercase ASCII letter and no digit; for an
    ASCII text, when it has no letter, no digit and no [&]. *)
Theorem slugify_empty_iff (s : jsstring) :
  (slugify s = []
   <-> filter is_slug_alnum
         (replace_each is_ampersand (str " and ")
            (replace_each is_apostrophe []
               (normalizeNFKD (toLowerCase (trim s))))) = [])
  /\ (forallb is_ascii s = true ->
      (slugify s = [] <-> forallb is_slug_blank s = true)).
Proof. split; [apply slugify_nil_iff_units | apply slugify_nil_iff_ascii]. Qed.

(** X14. Two ASCII texts that differ in the case of their letters only have
    the same slug. *)
Theorem slugify_ignores_case (s t : jsstring) :
  forallb is_ascii s = true -> forallb is_ascii t = true ->
  map ascii_lower s = map ascii_lower t ->
  slugify s = slugify t.
Proof.
  intros Hs Ht E.
  rewrite <- (slugify_lower_ascii s Hs), <- (slugify_lower_ascii t Ht).
  now rewrite E.
Qed.

(** X15. The slug of an ASCII text in two parts, with between them a code
    unit that is no letter, no digit, no apostrophe and no [&] (a space, a
    slash, a dot): the slugs of the parts with a hyphen between them, an
    empty one left out. *)
Theorem slugify_joins_parts (a b : jsstring) (c : codeunit) :
  forallb is_ascii (a ++ c :: b) = true ->
  is_slug_blank c = true -> is_apostrophe c = false ->
  slugify (a ++ c :: b)
  = join (str "-") (filter nonempty [slugify a; slugify b]).
Proof.
  intros Hs Hc Ha. rewrite (slugify_app_separator a c b Hs Hc Ha).
  unfold glue. destruct (slugify a), (slugify b); reflexivity.
Qed.

(** X16. In an ASCII text an apostrophe counts for nothing, so that what is
    around it is joined, and [&] counts for the word [and] with a space on
    each side. *)
Theorem slugify_apostrophe_ampersand (a b : jsstring) :
  forallb is_ascii (a ++ b) = true ->
  slugify (a ++ 39 :: b) = slugify (a ++ b)
  /\ slugify (a ++ 38 :: b) = slugify (a ++ str " and " ++ b).
Proof.
  intros Hs. split; [now apply slugify_apostrophe | now apply slugify_ampersand].
Qed.

End SlugifyTheorems.

(** ** The slugs of the store *)

Section Collisions.
Context `{Numbers}.

Lemma filter_truthy_app (xs ys : list (option value)) :
  filter_truthy (xs ++ ys) = filter_truthy xs ++ filter_truthy ys.
Proof.
  induction xs as [|[v|] xs IH]; cbn [app filter_truthy]; [reflexivity| |exact IH].
  destruct (truthy v); [cbn [app]; now f_equal | exact IH].
Qed.

Lemma filter_truthy_In (xs : list (option value)) (v : value) :
  In v (filter_truthy xs) <-> In (Some v) xs /\ truthy v = true.
Proof.
  induction xs as [|[x|] xs IH]; cbn [filter_truthy In].
  - tauto.
  - destruct (truthy x) eqn:E; cbn [In]; rewrite IH; split.
    + intros [->|[Hin Ht]]; auto.
    + intros [[E'|Hin] Ht]; [injection E' as ->; now left | now right].
    + intros [Hin Ht]; auto.
    + intros [[E'|Hin] Ht]; [injection E' as ->; congruence | now split].
  - rewrite IH. split; [intros [Hin Ht]; auto|].
    intros [[E'|Hin] Ht]; [discriminate | now split].
Qed.

Lemma has_string_In (xs : list value) (s : jsstring) :
  has_string xs s = true <-> In (VStr s) xs.
Proof.
  unfold has_string. rewrite existsb_exists. split.
  - intros (v & Hin & Hv). destruct v; try discriminate Hv.
    apply jsstring_eqb_eq in Hv. now subst.
  - intros Hin. exists (VStr s). split; [exact Hin|]. apply jsstring_eqb_refl.
Qed.

Lemma existing_slugs_app (xs ys : list value) :
  existing_slugs (xs ++ ys) = existing_slugs xs ++ existing_slugs ys.
Proof. unfold existing_slugs. now rewrite map_app, filter_truthy_app. Qed.

Lemma slug_taken_iff (restaurants : list value) (s : jsstring) :
  s <> [] ->
  (has_string (existing_slugs restaurants) s = true
   <-> exists r, In r restaurants /\ member r (str "slug") = Some (VStr s)).
Proof.
  intros Hs. rewrite has_string_In. unfold existing_slugs.
  rewrite filter_truthy_In, in_map_iff. split.
  - intros [(r & Hr & Hin) _]. now exists r.
  - intros (r & Hin & Hr). split; [now exists r|]. now destruct s.
Qed.

End Collisions.

(** ** The digits of the clock *)

Lemma uint_digits_length_cons (d : Decimal.uint) :
  forall c t, uint_digits d = c :: t ->
  10 ^ N.of_nat (List.length (uint_digits d))
  = 10 * 10 ^ N.of_nat (List.length t).
Proof.
  intros c t ->. cbn [List.length]. now rewrite Nat2N.inj_succ, N.pow_succ_r'.
Qed.

Lemma of_uint_acc_bound (d : Decimal.uint) (acc : positive) :
  N.pos (Pos.of_uint_acc d acc)
  < (N.pos acc + 1) * 10 ^ N.of_nat (List.length (uint_digits d)).
Proof.
  revert acc. induction d as [|d IH|d IH|d IH|d IH|d IH|d IH|d IH|d IH|d IH|d IH];
    intros acc; cbn [Pos.of_uint_acc uint_digits].
  1: cbn [List.length]; change (10 ^ N.of_nat 0) with 1; lia.
  all: cbn [List.length]; rewrite Nat2N.inj_succ, N.pow_succ_r';
    match goal with
    | |- N.pos (Pos.of_uint_acc ?d' ?a) < _ =>
        specialize (IH a);
        set (P := 10 ^ N.of_nat (List.length (uint_digits d'))) in *
    end;
    eapply N.lt_le_trans; [exact IH|];
    rewrite N.mul_assoc; apply N.mul_le_mono_r; lia.
Qed.

Lemma of_uint_bound (d : Decimal.uint) :
  Pos.of_uint d < 10 ^ N.of_nat (List.length (uint_digits d)).
Proof.
  induction d as [|d IH|d IH|d IH|d IH|d IH|d IH|d IH|d IH|d IH|d IH];
    cbn [Pos.of_uint uint_digits].
  1: cbn [List.length]; change (10 ^ N.of_nat 0) with 1; lia.
  all: cbn [List.length]; rewrite Nat2N.inj_succ, N.pow_succ_r'.
  1: lia.
  all: eapply N.lt_le_trans; [apply of_uint_acc_bound|];
    apply N.mul_le_mono_r; lia.
Qed.

Lemma integer_toString_length (n : Z) :
  (10000 <= n)%Z -> (5 <= List.length (integer_toString n))%nat.
Proof.
  intros Hn. destruct n as [|p|p]; try lia.
  unfold integer_toString. cbn [Z.to_int].
  pose proof (of_uint_bound (Pos.to_uint p)) as Hb.
  rewrite Unsigned.of_to in Hb.
  destruct (Nat.lt_ge_cases (List.length (uint_digits (Pos.to_uint p))) 5) as [Hlt|Hge];
    [|exact Hge].
  exfalso.
  assert (10 ^ N.of_nat (List.length (uint_digits (Pos.to_uint p))) <= 10 ^ 4) as Hp
    by (apply N.pow_le_mono_r; lia).
  change (10 ^ 4) with 10000 in Hp. lia.
Qed.

Lemma slice_last_length (n : nat) (s : jsstring) :
  (n <= List.length s)%nat -> List.length (slice_last n s) = n.
Proof. unfold slice_last. intros Hn. rewrite length_skipn. lia. Qed.

(** ** The shape of the slug of the record *)

Lemma digit_slug_char c : is_digit c = true -> is_slug_char c = true.
Proof. intros Hc. unfold is_slug_char, is_slug_alnum. now rewrite Hc, orb_true_r. Qed.

Lemma digit_not_hyphen c : is_digit c = true -> is_hyphen c = false.
Proof.
  intros Hc. apply slug_alnum_not_hyphen. unfold is_slug_alnum.
  now rewrite Hc, orb_true_r.
Qed.

Lemma digits_no_hyphen d :
  forallb is_digit d = true ->
  starts_with_hyphen d = false /\ ends_with_hyphen d = false
  /\ has_double_hyphen d = false.
Proof.
  induction d as [|c d IH]; [now repeat split|]. cbn [forallb]. intros E.
  apply andb_prop in E as [Hc Hd]. destruct (IH Hd) as (Hs & He & Hh).
  pose proof (digit_not_hyphen c Hc) as Hn. repeat split.
  - exact Hn.
  - destruct d; [exact Hn | exact He].
  - cbn [has_double_hyphen]. now rewrite Hn, Hh.
Qed.

Lemma ends_with_hyphen_app x y :
  y <> [] -> ends_with_hyphen (x ++ y) = ends_with_hyphen y.
Proof.
  intros Hy. induction x as [|c x IH]; [reflexivity|]. cbn [app].
  destruct (x ++ y) as [|e t] eqn:E; [|exact IH].
  destruct x; [simpl in E; congruence | discriminate E].
Qed.

Lemma has_double_hyphen_app x y :
  has_double_hyphen x = false -> has_double_hyphen y = false ->
  ends_with_hyphen x = false ->
  has_double_hyphen (x ++ y) = false.
Proof.
  intros Hx Hy He. induction x as [|c x IH]; [exact Hy|].
  cbn [app has_double_hyphen] in *. apply orb_false_iff in Hx as [H1 H2].
  destruct x as [|e t].
  - cbn [app]. cbn [ends_with_hyphen] in He. now rewrite He, Hy.
  - cbn [app] in *. rewrite IH by assumption. cbn [starts_with_hyphen] in *.
    now rewrite H1.
Qed.

Lemma slug_shaped_suffix a d :
  slug_shaped a -> a <> [] -> d <> [] -> forallb is_digit d = true ->
  slug_shaped (a ++ 45 :: d).
Proof.
  intros (Hc & Hs & He & Hh) Ha Hd Hdig.
  destruct (digits_no_hyphen d Hdig) as (Ds & De & Dh).
  repeat split.
  - rewrite forallb_app. cbn [forallb]. rewrite Hc. cbn [andb].
    change (is_slug_char 45) with true. cbn [andb].
    apply (forallb_impl is_digit); [apply digit_slug_char | exact Hdig].
  - destruct a; [congruence | exact Hs].
  - rewrite ends_with_hyphen_app by discriminate.
    destruct d; [congruence | exact De].
  - apply has_double_hyphen_app; trivial.
    cbn [has_double_hyphen]. now rewrite Ds, Dh.
Qed.

Section SlugShape.
Context `{Unicode} `{Numbers}.

Lemma candidate_slug_shape (w : World) : slug_shaped (candidate_slug w).
Proof.
  unfold candidate_slug, or_else. destruct (nonempty _); apply slugify_shape.
Qed.

(** X25. The slug of the record has the shape of a slug, with the suffix or
    without it, when the clock is not negative: lowercase letters, digits
    and single hyphens between them. From 10000 on (some ten seconds after
    the epoch) the suffix is five digits. *)
Theorem final_slug_shape (restaurants : list value) (w : World) :
  candidate_slug w <> [] -> (0 <= now w)%Z ->
  slug_shaped (final_slug restaurants w)
  /\ (has_string (existing_slugs restaurants) (candidate_slug w) = true ->
      (10000 <= now w)%Z ->
      exists suffix,
        final_slug restaurants w = candidate_slug w ++ 45 :: suffix
        /\ List.length suffix = 5%nat
        /\ forallb is_digit suffix = true).
Proof.
  intros Hc Hn. unfold final_slug. split.
  - destruct (has_string _ _); [|apply candidate_slug_shape].
    apply slug_shaped_suffix; [apply candidate_slug_shape | exact Hc | |].
    + apply slice_last_nonempty; [lia | apply integer_toString_nonempty].
    + apply forallb_skipn. now apply integer_toString_digits.
  - intros -> Ht. exists (slice_last 5 (integer_toString (now w))). repeat split.
    + apply slice_last_length. now apply integer_toString_length.
    + apply forallb_skipn. now apply integer_toString_digits.
Qed.

End SlugShape.

(** ** What the loaders return *)

Section LoadersMore.
Context `{Numbers}.





End LoadersMore.

(** ** White space around an answer *)

Lemma dropWhileEnd_app_all (p : codeunit -> bool) (s w : jsstring) :
  forallb p w = true -> dropWhileEnd p (s ++ w) = dropWhileEnd p s.
Proof.
  intros Hw. induction s as [|c s IH]; cbn [app].
  - now apply dropWhileEnd_nil_iff.
  - cbn [dropWhileEnd]. now rewrite IH.
Qed.

Lemma trim_app_space (s w : jsstring) :
  forallb is_whitespace w = true -> trim (s ++ w) = trim s.
Proof.
  intros Hw. unfold trim.
  destruct (dropWhile_split is_whitespace s) as (v & Hv & E).
  rewrite E at 1. rewrite <- app_assoc, dropWhile_app_all by exact Hv.
  pose proof (dropWhile_head is_whitespace s) as Hh.
  destruct (dropWhile is_whitespace s) as [|c t].
  - cbn [app]. rewrite (proj2 (dropWhile_nil_iff is_whitespace w) Hw). reflexivity.
  - cbn [app dropWhile]. rewrite Hh.
    change (c :: t ++ w) with ((c :: t) ++ w). now apply dropWhileEnd_app_all.
Qed.

Lemma space_not_comma (w : jsstring) :
  forallb is_whitespace w = true -> forallb (fun c => negb (c =? 44)) w = true.
Proof.
  apply forallb_impl. intros c Hc. apply negb_true_iff, N.eqb_neq. intros ->.
  discriminate Hc.
Qed.

Lemma split_comma_app_plain (s w : jsstring) :
  forallb (fun c => negb (c =? 44)) w = true ->
  exists init last,
    split_comma s = init ++ [last] /\ split_comma (s ++ w) = init ++ [last ++ w].
Proof.
  intros Hw. induction s as [|c s (init & last & E1 & E2)]; cbn [app].
  - exists [], []. split; [reflexivity|]. now apply split_comma_plain.
  - cbn [split_comma]. rewrite E1, E2. destruct (c =? 44).
    + now exists ([] :: init), last.
    + destruct init as [|p ps]; cbn [app].
      * now exists [], (c :: last).
      * now exists ((c :: p) :: ps), last.
Qed.

Lemma parseList_app_space (s w : jsstring) :
  forallb is_whitespace w = true -> parseList (s ++ w) = parseList s.
Proof.
  intros Hw. unfold parseList.
  destruct (split_comma_app_plain s w (space_not_comma w Hw))
    as (init & last & -> & ->).
  rewrite !map_app. cbn [map]. now rewrite trim_app_space.
Qed.

Lemma parseList_space_app (w s : jsstring) :
  forallb is_whitespace w = true -> parseList (w ++ s) = parseList s.
Proof.
  induction w as [|c w IH]; [reflexivity|]. cbn [forallb app]. intros E.
  apply andb_prop in E as [Hc Hw]. rewrite parseList_leading_space; auto.
  apply N.eqb_neq. intros ->. discriminate Hc.
Qed.

Lemma parseList_trim (s : jsstring) : parseList (trim s) = parseList s.
Proof.
  destruct (trim_split s) as (w1 & w2 & H1 & H2 & E).
  rewrite E at 2. now rewrite parseList_space_app, parseList_app_space.
Qed.

(** ** The script and its exit status *)

Section ScriptRuns.
Context `{Unicode} `{Numbers} `{Host}.

Lemma script_exit_0 (w : World) :
  fst (script w) = Exited 0 <-> fst (main w) = Ok tt \/ fst (main w) = Pending.
Proof.
  unfold script. destruct (main w) as [[[]|e|] w']; simpl; split; auto;
    intros E; try (destruct E as [E|E]); discriminate.
Qed.

Lemma script_exit_1 (w : World) :
  fst (script w) = Exited 1 <-> exists e, fst (main w) = Throw e.
Proof.
  unfold script. destruct (main w) as [[[]|e|] w']; simpl; split;
    try congruence; try (intros [e' He]; congruence).
  intros _. now exists e.
Qed.

Lemma script_files (w : World) : files (snd (script w)) = files (snd (main w)).
Proof. unfold script. now destruct (main w) as [[[]| |] w']. Qed.

Lemma script_folders (w : World) : folders (snd (script w)) = folders (snd (main w)).
Proof. unfold script. now destruct (main w) as [[[]| |] w']. Qed.

Lemma script_answers (w : World) : answers (snd (script w)) = answers (snd (main w)).
Proof. unfold script. now destruct (main w) as [[[]| |] w']. Qed.

Lemma script_world_ok (w : World) :
  fst (main w) = Ok tt -> snd (script w) = snd (main w).
Proof. unfold script. destruct (main w) as [[[]| |] w']; simpl; congruence. Qed.

Lemma script_ok (w : World) : valid_input w = true -> fst (script w) = Exited 0.
Proof. intros Hv. apply script_exit_0. left. now apply main_ok_iff. Qed.

(** What a run that does not reach its end leaves: the files and the
    folders as they were. *)
Lemma script_keeps (w : World) :
  fst (main w) <> Ok tt ->
  files (snd (script w)) = files w /\ folders (snd (script w)) = folders w.
Proof.
  intros Hne. rewrite script_files, script_folders. now apply main_fail_keeps.
Qed.



Lemma valid_input_parts (w : World) :
  valid_input w = true ->
  exists restaurants areas cuisinesJson,
    stored_records w = Some restaurants
    /\ parsed w FILE_AREAS = Some areas
    /\ parsed w FILE_CUISINES = Some cuisinesJson
    /\ candidate_slug w <> [].
Proof.
  unfold valid_input, suggestions_printable. intros Hv.
  destruct (stored_records w) as [restaurants|]; [|discriminate].
  repeat (apply andb_prop in Hv as [Hv ?]).
  destruct (parsed w FILE_AREAS) as [areas|]; [|discriminate].
  destruct (parsed w FILE_CUISINES) as [cuisinesJson|]; [|discriminate].
  exists restaurants, areas, cuisinesJson. repeat split.
  now destruct (candidate_slug w).
Qed.

(** The files [main] leaves at its end. *)
Lemma main_files (w : World) (restaurants : list value) (p : path) :
  valid_input w = true -> stored_records w = Some restaurants ->
  files (snd (main w)) p
  = if path_eqb p FILE_RESTAURANTS then
      Some (JSON_stringify (VArr (restaurants ++ [collected_entry restaurants w]))
            ++ [10])
    else if path_eqb p (PhotoFile (final_slug restaurants w)) then
      match files w (PhotoFile (final_slug restaurants w)) with
      | Some photo => Some photo
      | None => files w PLACEHOLDER
      end
    else files w p.
Proof.
  intros Hv Hs.
  destruct (valid_input_parts w Hv) as (rs & areas & cuisinesJson & Hs' & Ha & Hc & _).
  apply (main_world w restaurants areas cuisinesJson p Hv Hs Ha Hc).
Qed.

(** At its end [main] has written the store with one record more. *)
Lemma main_commit (w : World) (restaurants : list value) :
  valid_input w = true -> stored_records w = Some restaurants ->
  files (snd (main w)) FILE_RESTAURANTS
  = Some (JSON_stringify (VArr (restaurants ++ [collected_entry restaurants w]))
          ++ [10]).
Proof. intros Hv Hs. now rewrite (main_files w restaurants _ Hv Hs). Qed.

Lemma script_console_ok (w : World) (restaurants : list value)
  (areas cuisinesJson : value) :
  valid_input w = true -> stored_records w = Some restaurants ->
  parsed w FILE_AREAS = Some areas -> parsed w FILE_CUISINES = Some cuisinesJson ->
  console (snd (script w)) = printed restaurants areas cuisinesJson w ++ console w.
Proof.
  intros Hv Hs Ha Hc. rewrite (script_world_ok w) by now apply main_ok_iff.
  apply (main_world w restaurants areas cuisinesJson FILE_RESTAURANTS Hv Hs Ha Hc).
Qed.

(** With [k + 1] lines to read, the first [k + 1] questions are
    answered. *)
Lemma need_answered (w : World) (k n : nat) (rest : result unit) :
  nonempty_list (skipn k (answers w)) = true -> (n <= S k)%nat ->
  need n w rest = rest.
Proof.
  intros Hk Hn. unfold need.
  assert (S k <= List.length (answers w))%nat as Hlen.
  { destruct (skipn k (answers w)) as [|a l] eqn:E; [discriminate|].
    apply (f_equal (@List.length jsstring)) in E. rewrite length_skipn in E.
    cbn [List.length] in E. lia. }
  destruct (Nat.leb_spec n (List.length (answers w))); [reflexivity | lia].
Qed.

Lemma nonempty_true (s : jsstring) : s <> [] -> nonempty s = true.
Proof. destruct s; [congruence | reflexivity]. Qed.

Lemma nonempty_false (s : jsstring) : s = [] -> nonempty s = false.
Proof. now intros ->. Qed.

Lemma load_parsed (w : World) (file : path) (v : value) (rest : value -> result unit) :
  parsed w file = Some v -> load w file rest = rest v.
Proof.
  unfold parsed, load. destruct (files w file) as [text|]; [|discriminate].
  now intros ->.
Qed.

(** [verdict] once the three files are read. *)
Lemma verdict_loaded (w : World) (restaurants : list value) (areas cuisinesJson : value) :
  stored_records w = Some restaurants ->
  parsed w FILE_AREAS = Some areas -> parsed w FILE_CUISINES = Some cuisinesJson ->
  verdict w
  = need 1 w
      (check (nonempty (trim (answer w 0))) (Error "Name is required.")
      (need 2 w
      (check (nonempty (candidate_slug w)) (Error "Could not generate slug.")
      (check (forallb printable (extractAreaKeys areas)) TypeError
      (need 3 w
      (check (nonempty (trim (answer w 2))) (Error "areaKey is required.")
      (need 5 w
      (check (forallb printable (extractCuisineNames cuisinesJson)) TypeError
      (need 6 w
      (check (nonempty_list (parseList (answer w 5)))
         (Error "At least one cuisine is required.")
      (need 14 w
      (match mkdir_code (final_slug restaurants w) with
       | Some code => Throw (SystemError code)
       | None => Ok tt
       end)))))))))))).
Proof.
  intros Hs Ha Hc. unfold verdict.
  assert (parsed w FILE_RESTAURANTS = Some (VArr restaurants)) as Hr.
  { unfold stored_records in Hs. unfold parsed.
    destruct (files w FILE_RESTAURANTS) as [text|]; [|discriminate].
    destruct (JSON_parse text) as [[]|]; try discriminate. now injection Hs as ->. }
  rewrite (load_parsed w FILE_RESTAURANTS _ _ Hr).
  now rewrite (load_parsed w FILE_AREAS _ _ Ha), (load_parsed w FILE_CUISINES _ _ Hc).
Qed.

End ScriptRuns.

(** ** Properties of a run *)

Section RunProperties.
Context `{Unicode} `{Numbers} `{Host}.

(** C5, as amended. Writing a sequence of records to the store with
    [writeJson] and reading the store with [readJson] gives the sequence
    back, the records as they were and in their order, when the records
    are canonical: values in the engine's form (the members of an object
    in the engine's order) whose numbers are read back from what is
    written for them. Not every number is: an infinity is written [null]. *)
Theorem store_roundtrip (records : list value) (w : World) :
  Forall canonical records ->
  fst (readJson FILE_RESTAURANTS
         (snd (writeJson FILE_RESTAURANTS (VArr records) w)))
  = Ok (VArr records).
Proof.
  intros Hc. destruct w as [fs fo an t co].
  rewrite writeJson_run. cbn [snd]. rewrite readJson_run. cbn [files path_eqb].
  rewrite JSON_parse_stringify by (now apply canonical_arr). reflexivity.
Qed.

Lemma stored_records_canonical (w : World) (restaurants : list value) :
  stored_records w = Some restaurants ->
  Forall number_stable (flat_map numbers_of restaurants) ->
  Forall canonical restaurants.
Proof.
  unfold stored_records. intros Hs Hn.
  destruct (files w FILE_RESTAURANTS) as [text|]; [|discriminate].
  destruct (JSON_parse text) as [[]|] eqn:Ep; try discriminate.
  injection Hs as ->.
  apply JSON_parse_canonical in Ep; [|exact Hn]. now inversion Ep.
Qed.

(** The store a run leaves is read back as the store it read and the new
    record. *)
Lemma committed_store_read_back (w : World) (restaurants : list value) :
  stored_records w = Some restaurants ->
  valid_input w = true ->
  Forall number_stable (flat_map numbers_of restaurants) ->
  stored_records (snd (script w))
  = Some (restaurants ++ [collected_entry restaurants w]).
Proof.
  intros Hs Hv Hn. unfold stored_records at 1.
  rewrite script_files, (main_commit w restaurants Hv Hs).
  rewrite JSON_parse_stringify; [reflexivity|].
  apply canonical_arr, Forall_app. split.
  - now apply (stored_records_canonical w).
  - constructor; [apply make_entry_canonical | constructor].
Qed.

(** With six answers given and no cuisine in the sixth, [main] throws: at
    the cuisines check, or before it. *)
Lemma main_empty_cuisines (w : World) :
  nonempty_list (skipn 5 (answers w)) = true ->
  parseList (answer w 5) = [] ->
  exists e, fst (main w) = Throw e.
Proof.
  intros Ha Hc. rewrite main_result. unfold verdict, load.
  destruct (files w FILE_RESTAURANTS) as [text|]; [|eexists; reflexivity].
  destruct (JSON_parse text) as [[| | | |restaurants|]|]; try (eexists; reflexivity).
  destruct (files w FILE_AREAS) as [text_a|]; [|eexists; reflexivity].
  destruct (JSON_parse text_a) as [areas|]; [|eexists; reflexivity].
  destruct (files w FILE_CUISINES) as [text_c|]; [|eexists; reflexivity].
  destruct (JSON_parse text_c) as [cuisinesJson|]; [|eexists; reflexivity].
  rewrite !(need_answered w 5) by (trivial; lia). rewrite Hc.
  cbn [nonempty_list]. unfold check. cbv iota.
  repeat match goal with
         | |- context [if ?b then _ else _] => destruct b
         end; eexists; reflexivity.
Qed.

(** C2. When the cuisines answer gives an empty list, the script prints the
    error and exits with status 1, and no file is written: the store is the
    text it was. In any run, a store that is not the text it was means that
    every check had passed: the one write comes after all of them. *)
Theorem empty_cuisines_abort (w : World) :
  nonempty_list (skipn 5 (answers w)) = true ->
  parseList (answer w 5) = [] ->
  fst (script w) = Exited 1
  /\ files (snd (script w)) = files w
  /\ (forall w0 : World,
        files (snd (script w0)) FILE_RESTAURANTS <> files w0 FILE_RESTAURANTS ->
        fst (script w0) = Exited 0 /\ valid_input w0 = true).
Proof.
  intros Ha Hc.
  destruct (main_empty_cuisines w Ha Hc) as [e He].
  split; [apply script_exit_1; now exists e|]. split.
  - apply script_keeps. rewrite He. discriminate.
  - intros w0 Hne. destruct (valid_input w0) eqn:Hv.
    + split; [now apply script_ok | reflexivity].
    + exfalso. apply Hne.
      assert (fst (main w0) <> Ok tt) as Hm
        by (intros E; apply main_ok_iff in E; congruence).
      now rewrite (proj1 (script_keeps w0 Hm)).
Qed.

(** A table that is missing or does not parse makes [main] throw once the
    store is read, before any question. *)
Lemma main_unreadable_table (w : World) (restaurants : list value) :
  stored_records w = Some restaurants ->
  readable w FILE_AREAS = false \/ readable w FILE_CUISINES = false ->
  exists e, main w = (Throw e, w).
Proof.
  destruct w as [fs fo an t co]. unfold stored_records, readable. cbn [files].
  intros Hs Hr. unfold main. rewrite bind_run, readJson_run. cbn [files].
  destruct (fs FILE_RESTAURANTS) as [text|]; [|discriminate].
  destruct (JSON_parse text) as [[]|]; try discriminate. run.
  destruct (fs FILE_AREAS) as [text_a|]; [|eexists; reflexivity].
  destruct (JSON_parse text_a); [|eexists; reflexivity]. run.
  destruct (fs FILE_CUISINES) as [text_c|]; [|eexists; reflexivity].
  destruct (JSON_parse text_c); [|eexists; reflexivity].
  destruct Hr; discriminate.
Qed.

(** C4, as amended. A table of a shape the loaders do not know (anything
    that is not an array) gives an empty list of suggestions, which is
    listed without error: such tables do not stop a run, which ends with
    status 0 when the rest of the input is valid. A table file that is
    missing or is not JSON makes [readJson] throw: the script exits with
    status 1 before any question, with the error as the one line printed,
    and writes no file. A table that gives a suggestion with no string
    stops the run too (the listing throws): the run does not reach its end
    and writes no file. *)
Theorem table_loading (w : World) :
  (forall v : value, (forall items, v <> VArr items) ->
     extractAreaKeys v = [] /\ extractCuisineNames v = []
     /\ forallb printable (extractAreaKeys v) = true
     /\ forallb printable (extractCuisineNames v) = true)
  /\ (valid_input w = true -> fst (main w) = Ok tt /\ fst (script w) = Exited 0)
  /\ (forall restaurants, stored_records w = Some restaurants ->
      readable w FILE_AREAS = false \/ readable w FILE_CUISINES = false ->
      fst (script w) = Exited 1
      /\ files (snd (script w)) = files w
      /\ answers (snd (script w)) = answers w
      /\ exists e, console (snd (script w)) = AddFailed e :: console w)
  /\ (suggestions_printable w FILE_AREAS extractAreaKeys = false
      \/ suggestions_printable w FILE_CUISINES extractCuisineNames = false ->
      fst (main w) <> Ok tt /\ files (snd (script w)) = files w).
Proof.
  split; [|split; [|split]].
  - intros v Hv. destruct v; try (repeat split; reflexivity).
    now destruct (Hv items).
  - intros Hv. split; [now apply main_ok_iff | now apply script_ok].
  - intros restaurants Hs Hr.
    destruct (main_unreadable_table w restaurants Hs Hr) as [e He].
    unfold script. rewrite He. cbn [fst snd files answers console].
    repeat split. now exists e.
  - intros Hp.
    assert (fst (main w) <> Ok tt) as Hm.
    { intros E. apply main_ok_iff in E. unfold valid_input in E.
      destruct (stored_records w); [|discriminate].
      repeat (apply andb_prop in E as [E ?]). destruct Hp; congruence. }
    split; [exact Hm | now apply script_keeps].
Qed.

Lemma final_slug_collision (restaurants : list value) (w : World) :
  has_string (existing_slugs restaurants) (candidate_slug w) = true ->
  final_slug restaurants w
  = candidate_slug w ++ str "-" ++ slice_last 5 (integer_toString (now w)).
Proof. unfold final_slug. now intros ->. Qed.

Lemma app_cons_neq {A} (l : list A) (x : A) (l' : list A) : l ++ x :: l' <> l.
Proof.
  intros E. apply (f_equal (@List.length A)) in E.
  rewrite length_app in E. simpl in E. lia.
Qed.

(** C6, as amended. A run that reaches its end writes the store it read
    with the new record after it: every record that was there is there, at
    its place, and the new record is the last one. When a record of the
    store has the candidate slug as its slug, the new record gets another
    slug. The records that were there are read back as they were when the
    numbers of the store are read back from what is written for them; a
    number that is not, such as the infinity read from [1e400], is
    changed by the write. *)
Theorem commit_appends (w : World) (restaurants : list value) :
  stored_records w = Some restaurants ->
  valid_input w = true ->
  let entry := collected_entry restaurants w in
  let committed := restaurants ++ [entry] in
  fst (main w) = Ok tt
  /\ fst (script w) = Exited 0
  /\ files (snd (script w)) FILE_RESTAURANTS
     = Some (JSON_stringify (VArr committed) ++ [10])
  /\ firstn (List.length restaurants) committed = restaurants
  /\ (forall i r, nth_error restaurants i = Some r -> nth_error committed i = Some r)
  /\ nth_error committed (List.length restaurants) = Some entry
  /\ List.length committed = S (List.length restaurants)
  /\ member entry (str "slug") = Some (VStr (final_slug restaurants w))
  /\ ((exists members,
         In (VObj members) restaurants
         /\ lookup (str "slug") members = Some (VStr (candidate_slug w))) ->
      final_slug restaurants w
      = candidate_slug w ++ str "-" ++ slice_last 5 (integer_toString (now w))
      /\ final_slug restaurants w <> candidate_slug w)
  /\ (Forall number_stable (flat_map numbers_of restaurants) ->
      stored_records (snd (script w)) = Some committed).
Proof.
  intros Hs Hv entry committed.
  assert (Forall number_stable (flat_map numbers_of restaurants) ->
          stored_records (snd (script w)) = Some committed) as Hback
    by (now apply committed_store_read_back).
  destruct (valid_input_parts w Hv) as (_ & _ & _ & _ & _ & _ & Hne).
  split; [now apply main_ok_iff|]. split; [now apply script_ok|].
  split; [rewrite script_files; now apply main_commit|].
  split; [unfold committed; rewrite firstn_app, Nat.sub_diag, firstn_all;
          apply app_nil_r|].
  split.
  { intros i r Hi. unfold committed. rewrite nth_error_app1; [exact Hi|].
    apply nth_error_Some. congruence. }
  split; [unfold committed; rewrite nth_error_app2, Nat.sub_diag; [reflexivity | lia]|].
  split; [unfold committed; rewrite length_app; simpl; lia|].
  split; [reflexivity|]. split; [|exact Hback].
  intros (members & Hin & Hl).
  assert (has_string (existing_slugs restaurants) (candidate_slug w) = true) as Hc
    by (apply (slug_taken_iff restaurants _ Hne); now exists (VObj members)).
  rewrite (final_slug_collision _ _ Hc). split; [reflexivity | apply app_cons_neq].
Qed.

(** C8, as amended. The price of the committed record is the operator's
    answer, trimmed and taken as it is, and [$$] when that is empty; it is
    not checked against the tiers. The record with this price is the last
    one of the store the run writes, and of the store read again. *)
Theorem committed_price (w : World) (restaurants : list value) :
  stored_records w = Some restaurants ->
  valid_input w = true ->
  let entry := collected_entry restaurants w in
  let price :=
    if nonempty (trim (answer w 4)) then trim (answer w 4) else str "$$" in
  files (snd (script w)) FILE_RESTAURANTS
  = Some (JSON_stringify (VArr (restaurants ++ [entry])) ++ [10])
  /\ member entry (str "price") = Some (VStr price)
  /\ (Forall number_stable (flat_map numbers_of restaurants) ->
      exists records,
        stored_records (snd (script w)) = Some records
        /\ member (last records VNull) (str "price") = Some (VStr price)).
Proof.
  intros Hs Hv entry price. split; [|split].
  - rewrite script_files. now apply main_commit.
  - reflexivity.
  - intros Hn. exists (restaurants ++ [entry]). split.
    + now apply committed_store_read_back.
    + rewrite last_last. reflexivity.
Qed.

End RunProperties.

(** ** Further properties of the pipeline *)

Section Further.
Context `{Unicode} `{Numbers} `{Host}.

(** X1. The slug of the record: the candidate when no record of the store
    has it; otherwise the candidate, a hyphen and a suffix that is not
    empty, and made of digits when the clock is not negative. When the
    operator gives no slug the candidate is the normalized name. *)
Theorem final_slug_cases (restaurants : list value) (w : World) :
  (has_string (existing_slugs restaurants) (candidate_slug w) = false ->
   final_slug restaurants w = candidate_slug w)
  /\ (has_string (existing_slugs restaurants) (candidate_slug w) = true ->
      exists suffix,
        final_slug restaurants w = candidate_slug w ++ 45 :: suffix
        /\ suffix <> []
        /\ ((0 <= now w)%Z -> forallb is_digit suffix = true))
  /\ (slugify (answer w 1) = [] -> candidate_slug w = slugify (trim (answer w 0))).
Proof.
  unfold final_slug. repeat split.
  - now intros ->.
  - intros ->. exists (slice_last 5 (integer_toString (now w))). repeat split.
    + apply slice_last_nonempty; [lia | apply integer_toString_nonempty].
    + intros Hn. apply forallb_skipn. now apply integer_toString_digits.
  - unfold candidate_slug. now intros ->.
Qed.

(** X2. The featured flag: [y], [YES] and [1] give true; the empty answer
    and [n] give false; true is given only for an answer that is, trimmed
    and in lower case, one of [y], [yes], [true], [1]. *)
Theorem yesNoToBool_cases :
  yesNoToBool (str "y") false = true
  /\ yesNoToBool (str "YES") false = true
  /\ yesNoToBool (str "1") false = true
  /\ yesNoToBool (str "") false = false
  /\ yesNoToBool (str "n") false = false
  /\ (forall s, yesNoToBool s false = true ->
        In (toLowerCase (trim s)) [str "y"; str "yes"; str "true"; str "1"]).
Proof.
  assert (forall a, forallb is_ascii (trim (str a)) = true ->
            yesNoToBool (str a) false
            = (let v := map ascii_lower (trim (str a)) in
               if negb (nonempty v) then false
               else if existsb (jsstring_eqb v)
                         [str "y"; str "yes"; str "true"; str "1"] then true
               else false)) as Hascii.
  { intros a Ha. unfold yesNoToBool. rewrite toLowerCase_ascii by exact Ha.
    cbv zeta. destruct (negb _); [reflexivity|].
    destruct (existsb _ [str "y"; _; _; _]); [reflexivity|].
    now destruct (existsb _ _). }
  repeat split; try (rewrite Hascii by reflexivity; reflexivity).
  intros s. unfold yesNoToBool. cbv zeta. destruct (negb _); [discriminate|].
  destruct (existsb _ [str "y"; _; _; _]) eqn:E.
  - intros _. apply existsb_exists in E as (x & Hin & Hx).
    apply jsstring_eqb_eq in Hx. now subst x.
  - destruct (existsb _ [str "n"; _; _; _]); intros Hx; discriminate Hx.
Qed.

(** X3. The items of a comma-separated answer are trimmed and not empty. *)
Theorem parseList_items (inputStr : jsstring) :
  Forall (fun item => item <> [] /\ trim item = item) (parseList inputStr).
Proof.
  unfold parseList. apply Forall_forall. intros item Hin.
  apply filter_In in Hin as [Hin Hne]. apply in_map_iff in Hin as (x & <- & _).
  split; [now destruct (trim x) | apply trim_idempotent].
Qed.


(** X5. The checks of [main], in their order. With the files read, an
    empty name, an empty slug, an area key or a cuisine suggestion with no
    string, an empty area key or an empty list of cuisines makes [main]
    throw the error of that check, when the checks before it pass and the
    questions before it are answered. *)
Theorem required_fields (w : World) (restaurants : list value)
  (areas cuisinesJson : value) :
  stored_records w = Some restaurants ->
  parsed w FILE_AREAS = Some areas ->
  parsed w FILE_CUISINES = Some cuisinesJson ->
  (nonempty_list (answers w) = true -> trim (answer w 0) = [] ->
   fst (main w) = Throw (Error "Name is required."))
  /\ (nonempty_list (skipn 1 (answers w)) = true ->
      trim (answer w 0) <> [] -> candidate_slug w = [] ->
      fst (main w) = Throw (Error "Could not generate slug."))
  /\ (nonempty_list (skipn 1 (answers w)) = true ->
      trim (answer w 0) <> [] -> candidate_slug w <> [] ->
      forallb printable (extractAreaKeys areas) = false ->
      fst (main w) = Throw TypeError)
  /\ (nonempty_list (skipn 2 (answers w)) = true ->
      trim (answer w 0) <> [] -> candidate_slug w <> [] ->
      forallb printable (extractAreaKeys areas) = true ->
      trim (answer w 2) = [] ->
      fst (main w) = Throw (Error "areaKey is required."))
  /\ (nonempty_list (skipn 4 (answers w)) = true ->
      trim (answer w 0) <> [] -> candidate_slug w <> [] ->
      forallb printable (extractAreaKeys areas) = true ->
      trim (answer w 2) <> [] ->
      forallb printable (extractCuisineNames cuisinesJson) = false ->
      fst (main w) = Throw TypeError)
  /\ (nonempty_list (skipn 5 (answers w)) = true ->
      trim (answer w 0) <> [] -> candidate_slug w <> [] ->
      forallb printable (extractAreaKeys areas) = true ->
      trim (answer w 2) <> [] ->
      forallb printable (extractCuisineNames cuisinesJson) = true ->
      parseList (answer w 5) = [] ->
      fst (main w) = Throw (Error "At least one cuisine is required.")).
Proof.
  intros Hs Ha Hc. rewrite main_result, (verdict_loaded w restaurants areas cuisinesJson Hs Ha Hc).
  repeat split.
  - intros Hn E0. rewrite (need_answered w 0) by (trivial; lia).
    now rewrite (nonempty_false _ E0).
  - intros Hn E0 E1. rewrite !(need_answered w 1) by (trivial; lia).
    now rewrite (nonempty_true _ E0), (nonempty_false _ E1).
  - intros Hn E0 E1 Ek. rewrite !(need_answered w 1) by (trivial; lia).
    now rewrite (nonempty_true _ E0), (nonempty_true _ E1), Ek.
  - intros Hn E0 E1 Ek E2. rewrite !(need_answered w 2) by (trivial; lia).
    now rewrite (nonempty_true _ E0), (nonempty_true _ E1), Ek, (nonempty_false _ E2).
  - intros Hn E0 E1 Ek E2 En. rewrite !(need_answered w 4) by (trivial; lia).
    now rewrite (nonempty_true _ E0), (nonempty_true _ E1), Ek, (nonempty_true _ E2), En.
  - intros Hn E0 E1 Ek E2 En E5. rewrite !(need_answered w 5) by (trivial; lia).
    now rewrite (nonempty_true _ E0), (nonempty_true _ E1), Ek, (nonempty_true _ E2),
      En, E5.
Qed.

(** X6. A store that is missing, is not JSON or is not an array makes the
    script exit with status 1 before any question, and no file is
    written. *)
Theorem malformed_store_aborts (w : World) :
  stored_records w = None ->
  fst (script w) = Exited 1
  /\ files (snd (script w)) = files w
  /\ answers (snd (script w)) = answers w.
Proof.
  intros Hs.
  assert (exists e, main w = (Throw e, w)) as [e He].
  { destruct w as [fs fo an t co]. unfold stored_records in Hs. cbn [files] in Hs.
    unfold main. run.
    destruct (fs FILE_RESTAURANTS) as [text|]; [|eexists; reflexivity].
    destruct (JSON_parse text) as [[| | | |items|]|]; try discriminate Hs;
      run; eexists; reflexivity. }
  unfold script. rewrite He. repeat split.
Qed.

(** X7. The photo of the record: its one path is
    [/images/restaurants/<slug>/1.jpg]; at that place the run leaves the
    file that was there, or else a copy of the placeholder when there is
    one; the placeholder and every file but the store and that photo are
    as they were. *)
Theorem photo_provisioning (w : World) (restaurants : list value) :
  valid_input w = true ->
  stored_records w = Some restaurants ->
  let slug := final_slug restaurants w in
  member (collected_entry restaurants w) (str "photos")
  = Some (VArr [VStr (str "/images/restaurants/" ++ slug ++ str "/1.jpg")])
  /\ files (snd (script w)) (PhotoFile slug)
     = match files w (PhotoFile slug) with
       | Some photo => Some photo
       | None => files w PLACEHOLDER
       end
  /\ files (snd (script w)) PLACEHOLDER = files w PLACEHOLDER
  /\ (forall p, p <> FILE_RESTAURANTS -> p <> PhotoFile slug ->
                files (snd (script w)) p = files w p).
Proof.
  intros Hv Hs slug. rewrite script_files. repeat split.
  - rewrite (main_files w restaurants _ Hv Hs). cbn [path_eqb].
    fold slug. now rewrite jsstring_eqb_refl.
  - now rewrite (main_files w restaurants _ Hv Hs).
  - intros p Hp1 Hp2. rewrite (main_files w restaurants _ Hv Hs).
    destruct (path_eqb p FILE_RESTAURANTS) eqn:E1;
      [apply path_eqb_eq in E1; contradiction|].
    destruct (path_eqb p (PhotoFile (final_slug restaurants w))) eqn:E2;
      [apply path_eqb_eq in E2; contradiction | reflexivity].
Qed.



End Further.

Section RunTheorems.
Context `{Unicode} `{Numbers} `{Host}.

Lemma final_slug_nonempty (restaurants : list value) (w : World) :
  candidate_slug w <> [] -> final_slug restaurants w <> [].
Proof.
  unfold final_slug. intros Hc. destruct (has_string _ _); [|exact Hc].
  destruct (candidate_slug w); [congruence | discriminate].
Qed.

(** X17. Which records make a slug taken: a slug that is not empty is taken
    exactly when a record of the store is an object whose [slug] is that
    string; records with no slug, or with a slug that is not a string, take
    nothing. *)
Theorem slug_taken_by_record (restaurants : list value) (s : jsstring) :
  s <> [] ->
  (has_string (existing_slugs restaurants) s = true
   <-> exists members,
         In (VObj members) restaurants
         /\ lookup (str "slug") members = Some (VStr s)).
Proof.
  intros Hs. rewrite (slug_taken_iff restaurants s Hs). split.
  - intros (r & Hin & Hr). destruct r; try discriminate Hr. now exists members.
  - intros (members & Hin & Hr). now exists (VObj members).
Qed.

Lemma committed_slugs (w : World) (restaurants : list value) :
  candidate_slug w <> [] ->
  existing_slugs (restaurants ++ [collected_entry restaurants w])
  = existing_slugs restaurants ++ [VStr (final_slug restaurants w)].
Proof.
  intros Hc. rewrite existing_slugs_app. f_equal.
  pose proof (final_slug_nonempty restaurants w Hc) as Hn.
  unfold existing_slugs, collected_entry, make_entry. cbn [map member lookup].
  change (jsstring_eqb (str "slug") (str "name")) with false.
  change (jsstring_eqb (str "slug") (str "slug")) with true.
  cbn [filter_truthy truthy]. now destruct (final_slug restaurants w).
Qed.

(** X18. The slugs of the store after a commit: the slugs that were there and
    the slug of the new record after them, so that this slug is taken from
    then on. When the slugs of the store were distinct and the new slug was
    not among them (as it is when the candidate is free), they are still
    distinct. *)
Theorem commit_keeps_slugs_distinct (w : World) (restaurants : list value) :
  candidate_slug w <> [] ->
  let committed := restaurants ++ [collected_entry restaurants w] in
  existing_slugs committed
  = existing_slugs restaurants ++ [VStr (final_slug restaurants w)]
  /\ has_string (existing_slugs committed) (final_slug restaurants w) = true
  /\ (has_string (existing_slugs restaurants) (candidate_slug w) = false ->
      has_string (existing_slugs restaurants) (final_slug restaurants w) = false)
  /\ (NoDup (existing_slugs restaurants) ->
      has_string (existing_slugs restaurants) (final_slug restaurants w) = false ->
      NoDup (existing_slugs committed)).
Proof.
  intros Hc committed.
  pose proof (committed_slugs w restaurants Hc) as E. fold committed in E.
  repeat split.
  - exact E.
  - apply has_string_In. rewrite E. apply in_or_app. right. now left.
  - unfold final_slug. intros Hf. rewrite Hf. exact Hf.
  - intros Hnd Hfree. rewrite E.
    apply NoDup_app; repeat split; try exact Hnd.
    + repeat constructor. intros [].
    + intros v Hin [<-|[]]. apply has_string_In in Hin. congruence.
Qed.



Lemma nonempty_list_spec {A} (xs : list A) : nonempty_list xs = true <-> xs <> [].
Proof. destruct xs; simpl; split; congruence. Qed.

(** X21. The area key is not checked against the table: a key that is not
    among the keys read from [areas.json] gets a warning, printed exactly
    when the table gave keys and the key typed is none of them, and the
    run goes on to commit the record with the key as typed. *)
Theorem unknown_area_only_warns (w : World) (restaurants : list value)
  (areas : value) :
  valid_input w = true -> stored_records w = Some restaurants ->
  parsed w FILE_AREAS = Some areas ->
  let areaKey := trim (answer w 2) in
  fst (script w) = Exited 0
  /\ member (collected_entry restaurants w) (str "areaKey") = Some (VStr areaKey)
  /\ exists lines,
       console (snd (script w)) = lines ++ console w
       /\ (In (UnknownArea areaKey) lines
           <-> extractAreaKeys areas <> []
               /\ has_string (extractAreaKeys areas) areaKey = false).
Proof.
  intros Hv Hs Ha areaKey.
  destruct (valid_input_parts w Hv) as (rs & areas' & cuisinesJson & _ & Ha' & Hc & _).
  rewrite Ha in Ha'. injection Ha' as <-.
  split; [now apply script_ok|]. split; [reflexivity|].
  exists (printed restaurants areas cuisinesJson w).
  split; [now apply script_console_ok|].
  unfold printed. fold areaKey. cbv zeta.
  rewrite <- nonempty_list_spec.
  repeat rewrite in_app_iff. cbn [In].
  destruct (nonempty_list (extractAreaKeys areas));
    destruct (has_string (extractAreaKeys areas) areaKey);
    destruct (files w (PhotoFile (final_slug restaurants w)));
    destruct (files w PLACEHOLDER);
    destruct (has_string (existing_slugs restaurants) (candidate_slug w));
    cbn [andb negb In]; split; intros Hx;
    repeat match goal with
    | Hy : _ \/ _ |- _ => destruct Hy as [Hy|Hy]
    | Hy : _ /\ _ |- _ => destruct Hy as [? ?]
    | Hy : False |- _ => destruct Hy
    end; try discriminate; try (split; reflexivity); tauto.
Qed.

End RunTheorems.

Section RunTheorems2.
Context `{Unicode} `{Numbers} `{Host}.

(** X22. What the run says about the photo is what it did: it reports a
    photo made from the placeholder exactly when no photo was there and the
    placeholder was, and the photo is then the placeholder's image; it
    reports a missing placeholder exactly when neither was there, and then
    there is still no photo; with a photo in place it says nothing and
    leaves the photo. *)
Theorem photo_report_matches (w : World) (restaurants : list value) :
  valid_input w = true -> stored_records w = Some restaurants ->
  let slug := final_slug restaurants w in
  exists lines,
    console (snd (script w)) = lines ++ console w
    /\ (In (PlaceholderCopied slug) lines
        <-> files w (PhotoFile slug) = None /\ files w PLACEHOLDER <> None)
    /\ (In (PlaceholderMissing slug) lines
        <-> files w (PhotoFile slug) = None /\ files w PLACEHOLDER = None)
    /\ (In (PlaceholderCopied slug) lines ->
        files (snd (script w)) (PhotoFile slug) = files w PLACEHOLDER)
    /\ (In (PlaceholderMissing slug) lines ->
        files (snd (script w)) (PhotoFile slug) = None).
Proof.
  intros Hv Hs slug.
  destruct (valid_input_parts w Hv) as (rs & areas & cuisinesJson & _ & Ha & Hc & _).
  exists (printed restaurants areas cuisinesJson w).
  split; [now apply script_console_ok|].
  rewrite script_files, (main_files w restaurants _ Hv Hs).
  cbn [path_eqb]. fold slug. rewrite jsstring_eqb_refl.
  unfold printed. fold slug. cbv zeta.
  repeat rewrite in_app_iff. cbn [In].
  destruct (nonempty_list (extractAreaKeys areas)
            && negb (has_string (extractAreaKeys areas) (trim (answer w 2))));
    destruct (files w (PhotoFile slug));
    destruct (files w PLACEHOLDER);
    destruct (has_string (existing_slugs restaurants) (candidate_slug w));
    cbn [In]; intuition (try discriminate; try congruence).
Qed.

(** X23. The questions of a run that reaches its end: the fourteen questions
    of the source, each once and in the order of the source; the slug
    question proposes the slug of the name. *)
Theorem questions_in_order (w : World) (restaurants : list value) :
  valid_input w = true -> stored_records w = Some restaurants ->
  exists lines,
    console (snd (script w)) = lines ++ console w
    /\ rev (asked lines)
       = [QName; QSlug (slugify (trim (answer w 0))); QAreaKey; QAddress; QPrice;
          QCuisines; QVibes; QGoodFor; QShortBlurb; QLongBlurb; QMustTry;
          QWebsite; QMenuUrl; QFeatured].
Proof.
  intros Hv Hs.
  destruct (valid_input_parts w Hv) as (rs & areas & cuisinesJson & _ & Ha & Hc & _).
  exists (printed restaurants areas cuisinesJson w).
  split; [now apply script_console_ok|].
  unfold printed. cbv zeta.
  destruct (nonempty_list (extractAreaKeys areas)
            && negb (has_string (extractAreaKeys areas) (trim (answer w 2))));
    destruct (files w (PhotoFile (final_slug restaurants w)));
    destruct (files w PLACEHOLDER);
    destruct (has_string (existing_slugs restaurants) (candidate_slug w));
    reflexivity.
Qed.

(** X24. What no run does, however it ends: it removes no file, it changes
    no file but the store and the first photo of a slug, and it leaves a
    photo that is there as it is. *)
Theorem run_never_destroys (w : World) :
  (forall p, files w p <> None -> files (snd (script w)) p <> None)
  /\ (forall p, p <> FILE_RESTAURANTS -> (forall slug, p <> PhotoFile slug) ->
        files (snd (script w)) p = files w p)
  /\ (forall slug photo, files w (PhotoFile slug) = Some photo ->
        files (snd (script w)) (PhotoFile slug) = Some photo).
Proof.
  destruct (valid_input w) eqn:Hv.
  - destruct (valid_input_parts w Hv) as (rs & _ & _ & Hs & _).
    rewrite script_files. repeat split.
    + intros p Hp. rewrite (main_files w rs p Hv Hs).
      destruct (path_eqb p FILE_RESTAURANTS); [discriminate|].
      destruct (path_eqb p (PhotoFile (final_slug rs w))) eqn:E; [|exact Hp].
      apply path_eqb_eq in E. subst p.
      now destruct (files w (PhotoFile (final_slug rs w))).
    + intros p Hp1 Hp2. rewrite (main_files w rs p Hv Hs).
      destruct (path_eqb p FILE_RESTAURANTS) eqn:E1;
        [apply path_eqb_eq in E1; contradiction|].
      destruct (path_eqb p (PhotoFile (final_slug rs w))) eqn:E2;
        [apply path_eqb_eq in E2; now destruct (Hp2 _ E2) | reflexivity].
    + intros slug photo Hp. rewrite (main_files w rs _ Hv Hs). cbn [path_eqb].
      destruct (jsstring_eqb slug (final_slug rs w)) eqn:E; [|exact Hp].
      apply jsstring_eqb_eq in E. subst slug. now rewrite Hp.
  - assert (files (snd (script w)) = files w) as ->.
    { apply script_keeps. intros E. apply main_ok_iff in E. congruence. }
    repeat split; trivial.
Qed.

End RunTheorems2.

(** ** Two runs *)

Section SecondRun.
Context `{Unicode} `{Numbers} `{Host}.




End SecondRun.

Section Answers.
Context `{Unicode} `{Numbers} `{Host}.

Lemma slugify_trim (s : jsstring) : slugify (trim s) = slugify s.
Proof. unfold slugify. now rewrite trim_idempotent. Qed.

Lemma yesNoToBool_trim (s : jsstring) (d : bool) :
  yesNoToBool (trim s) d = yesNoToBool s d.
Proof. unfold yesNoToBool. now rewrite trim_idempotent. Qed.

Lemma answer_trim (w : World) (i : nat) :
  trim (answer w i) = nth i (map trim (answers w)) [].
Proof. unfold answer. now rewrite <- (map_nth trim). Qed.

Lemma nonempty_list_map {A B} (f : A -> B) (l : list A) :
  nonempty_list (map f l) = nonempty_list l.
Proof. now destruct l. Qed.

Lemma collected_entry_trim (restaurants : list value) (w w' : World) :
  map trim (answers w) = map trim (answers w') -> now w = now w' ->
  candidate_slug w = candidate_slug w'
  /\ collected_entry restaurants w = collected_entry restaurants w'.
Proof.
  intros E Ht.
  assert (forall i, trim (answer w i) = trim (answer w' i)) as Ha
    by (intros i; now rewrite !answer_trim, E).
  assert (candidate_slug w = candidate_slug w') as Hc.
  { unfold candidate_slug. rewrite <- (slugify_trim (answer w 1)), (Ha 1%nat),
      (slugify_trim (answer w' 1)). now rewrite (Ha 0%nat). }
  split; [exact Hc|].
  assert (final_slug restaurants w = final_slug restaurants w') as Hf
    by (unfold final_slug; now rewrite Hc, Ht).
  unfold collected_entry. rewrite Hf.
  rewrite <- (parseList_trim (answer w 5)), <- (parseList_trim (answer w 6)),
    <- (parseList_trim (answer w 7)), <- (parseList_trim (answer w 10)),
    <- (yesNoToBool_trim (answer w 13)).
  rewrite !Ha.
  now rewrite !parseList_trim, yesNoToBool_trim.
Qed.

Lemma verdict_trim (w w' : World) :
  files w = files w' -> map trim (answers w) = map trim (answers w') ->
  now w = now w' -> verdict w = verdict w'.
Proof.
  intros Hf E Ht.
  assert (forall rs, candidate_slug w = candidate_slug w'
                     /\ final_slug rs w = final_slug rs w') as Hc.
  { intros rs. destruct (collected_entry_trim rs w w' E Ht) as [Hc _].
    split; [exact Hc|]. unfold final_slug. now rewrite Hc, Ht. }
  assert (forall i, trim (answer w i) = trim (answer w' i)) as Ha
    by (intros i; now rewrite !answer_trim, E).
  assert (List.length (answers w) = List.length (answers w')) as Hl
    by (rewrite <- (length_map trim (answers w)), E; apply length_map).
  unfold verdict, load, need. rewrite Hf, Hl, !Ha.
  rewrite <- (parseList_trim (answer w 5)), (Ha 5%nat), parseList_trim.
  destruct (files w' FILE_RESTAURANTS) as [text|]; [|reflexivity].
  destruct (JSON_parse text) as [[| | | |restaurants|]|]; try reflexivity.
  destruct (Hc restaurants) as [-> ->]. reflexivity.
Qed.

Lemma valid_input_trim (w w' : World) :
  files w = files w' -> map trim (answers w) = map trim (answers w') ->
  now w = now w' -> valid_input w = valid_input w'.
Proof.
  intros Hf E Ht. pose proof (verdict_trim w w' Hf E Ht) as Hv.
  pose proof (verdict_ok_iff w) as Hw. pose proof (verdict_ok_iff w') as Hw'.
  rewrite Hv in Hw.
  destruct (valid_input w), (valid_input w'); trivial.
  - symmetry. apply Hw', Hw. reflexivity.
  - apply Hw, Hw'. reflexivity.
Qed.

(** X28. White space around an answer counts for nothing. Two runs on the
    same files and at the same time, whose answers differ only by white
    space at the ends of the lines, collect the same record, end with
    status 0 together, and leave the same store. *)
Theorem answers_ignore_outer_space (restaurants : list value) (w w' : World) :
  files w = files w' -> map trim (answers w) = map trim (answers w') ->
  now w = now w' ->
  collected_entry restaurants w = collected_entry restaurants w'
  /\ (fst (script w) = Exited 0 <-> fst (script w') = Exited 0)
  /\ files (snd (script w)) FILE_RESTAURANTS
     = files (snd (script w')) FILE_RESTAURANTS.
Proof.
  intros Hf E Ht.
  pose proof (valid_input_trim w w' Hf E Ht) as Hv.
  split; [apply (collected_entry_trim restaurants w w' E Ht)|]. split.
  - now rewrite !script_exit_0, !main_result, (verdict_trim w w' Hf E Ht).
  - destruct (valid_input w) eqn:Hw; symmetry in Hv.
    + destruct (valid_input_parts w Hw) as (rs & _ & _ & Hs & _).
      assert (stored_records w' = Some rs) as Hs'
        by (unfold stored_records in Hs |- *; now rewrite <- Hf).
      rewrite !script_files, (main_commit w rs Hw Hs), (main_commit w' rs Hv Hs').
      now destruct (collected_entry_trim rs w w' E Ht) as [_ ->].
    + assert (forall x, valid_input x = false ->
                        files (snd (script x)) = files x) as Hk
        by (intros x Hx; apply script_keeps; intros Hy;
            apply main_ok_iff in Hy; congruence).
      now rewrite (Hk w Hw), (Hk w' Hv), Hf.
Qed.

End Answers.

(** ** The checks of a run, one by one *)

Section Checks.
Context `{Unicode} `{Numbers} `{Host}.

(** X10. An answer gives no item exactly when it is made of commas and
    white space only; and a run that comes to the cuisines check, the
    files read, the questions answered and the checks before it passed,
    stops there for want of a cuisine exactly when the cuisines answer is
    such a text. *)
Theorem parseList_empty_iff (inputStr : jsstring) :
  (parseList inputStr = []
   <-> forallb (fun c => is_whitespace c || (c =? 44)) inputStr = true)
  /\ (forall (w : World) (restaurants : list value) (areas cuisinesJson : value),
        stored_records w = Some restaurants ->
        parsed w FILE_AREAS = Some areas ->
        parsed w FILE_CUISINES = Some cuisinesJson ->
        nonempty_list (skipn 5 (answers w)) = true ->
        trim (answer w 0) <> [] -> candidate_slug w <> [] ->
        forallb printable (extractAreaKeys areas) = true ->
        trim (answer w 2) <> [] ->
        forallb printable (extractCuisineNames cuisinesJson) = true ->
        (fst (main w) = Throw (Error "At least one cuisine is required.")
         <-> forallb (fun c => is_whitespace c || (c =? 44)) (answer w 5) = true)).
Proof.
  split; [apply parseList_nil_iff|].
  intros w restaurants areas cuisinesJson Hs Ha Hc Hn E0 E1 Ek E2 En.
  rewrite main_result, (verdict_loaded w restaurants areas cuisinesJson Hs Ha Hc).
  rewrite !(need_answered w 5) by (trivial; lia).
  rewrite (nonempty_true _ E0), (nonempty_true _ E1), Ek, (nonempty_true _ E2), En.
  unfold check at 1 2 3 4 5. cbv iota.
  rewrite <- parseList_nil_iff.
  destruct (parseList (answer w 5)) as [|item items]; cbn [nonempty_list check].
  - split; reflexivity.
  - unfold need, end_of_input. split; [|discriminate].
    destruct (_ <=? _)%nat; [destruct (mkdir_code _) | destruct stdin]; discriminate.
Qed.

Lemma main_unprintable_areas (w : World) (restaurants : list value)
  (areas cuisinesJson : value) :
  stored_records w = Some restaurants ->
  parsed w FILE_AREAS = Some areas -> parsed w FILE_CUISINES = Some cuisinesJson ->
  forallb printable (extractAreaKeys areas) = false ->
  nonempty_list (skipn 1 (answers w)) = true ->
  trim (answer w 0) <> [] -> candidate_slug w <> [] ->
  exists lines,
    main w
    = (Throw TypeError,
       {| files := files w; folders := folders w; answers := skipn 2 (answers w);
          now := now w; console := AreaKeysHeader :: lines |}).
Proof.
  destruct w as [fs fo an t co].
  unfold stored_records, parsed, candidate_slug, answer. cbn [files folders answers now].
  intros Hs Ha Hc Ek Hn E0 E1.
  destruct (fs FILE_RESTAURANTS) as [text|] eqn:Ef; [|discriminate].
  destruct (JSON_parse text) as [[| | | |items|]|] eqn:Ep; try discriminate.
  injection Hs as ->.
  destruct (fs FILE_AREAS) as [text_a|] eqn:Efa; [|discriminate].
  destruct (fs FILE_CUISINES) as [text_c|] eqn:Efc; [|discriminate].
  do 2 (destruct an as [|? an]; [discriminate|]). cbn [nth skipn] in *.
  unfold main. run. rewrite Ef, Ep. run. rewrite Efa, Ha. run. rewrite Efc, Hc.
  run. rewrite (nonempty_true _ E0). run. rewrite (nonempty_true _ E1). run.
  destruct (has_string _ _); run; rewrite Ek; eexists; reflexivity.
Qed.

Lemma main_unprintable_cuisines (w : World) (restaurants : list value)
  (areas cuisinesJson : value) :
  stored_records w = Some restaurants ->
  parsed w FILE_AREAS = Some areas -> parsed w FILE_CUISINES = Some cuisinesJson ->
  forallb printable (extractAreaKeys areas) = true ->
  forallb printable (extractCuisineNames cuisinesJson) = false ->
  nonempty_list (skipn 4 (answers w)) = true ->
  trim (answer w 0) <> [] -> candidate_slug w <> [] -> trim (answer w 2) <> [] ->
  exists lines,
    main w
    = (Throw TypeError,
       {| files := files w; folders := folders w; answers := skipn 5 (answers w);
          now := now w; console := CuisinesHeader :: lines |}).
Proof.
  destruct w as [fs fo an t co].
  unfold stored_records, parsed, candidate_slug, answer. cbn [files folders answers now].
  intros Hs Ha Hc Ek En Hn E0 E1 E2.
  destruct (fs FILE_RESTAURANTS) as [text|] eqn:Ef; [|discriminate].
  destruct (JSON_parse text) as [[| | | |items|]|] eqn:Ep; try discriminate.
  injection Hs as ->.
  destruct (fs FILE_AREAS) as [text_a|] eqn:Efa; [|discriminate].
  destruct (fs FILE_CUISINES) as [text_c|] eqn:Efc; [|discriminate].
  do 5 (destruct an as [|? an]; [discriminate|]). cbn [nth skipn] in *.
  unfold main. run. rewrite Ef, Ep. run. rewrite Efa, Ha. run. rewrite Efc, Hc.
  run. rewrite (nonempty_true _ E0). run. rewrite (nonempty_true _ E1). run.
  destruct (has_string _ _); run; rewrite Ek; run; rewrite (nonempty_true _ E2); run;
    destruct (_ && _); run; rewrite En; eexists; reflexivity.
Qed.

(** X29. A suggestion with no string stops the run at the line that lists
    it. An object has no string exactly when it has a member [toString] of
    its own. With such an area key the run throws a [TypeError] after the
    first two questions, at line 111; with such a cuisine name, after the
    first five, at line 122. The script prints the error after the header
    of the list and exits with status 1; no file is written and no folder
    is made. *)
Theorem unprintable_suggestion_aborts (w : World) (restaurants : list value)
  (areas cuisinesJson : value) :
  stored_records w = Some restaurants ->
  parsed w FILE_AREAS = Some areas -> parsed w FILE_CUISINES = Some cuisinesJson ->
  (forall members,
     printable (VObj members) = false <-> lookup (str "toString") members <> None)
  /\ (forallb printable (extractAreaKeys areas) = false ->
      nonempty_list (skipn 1 (answers w)) = true ->
      trim (answer w 0) <> [] -> candidate_slug w <> [] ->
      fst (script w) = Exited 1
      /\ files (snd (script w)) = files w
      /\ folders (snd (script w)) = folders w
      /\ answers (snd (script w)) = skipn 2 (answers w)
      /\ exists lines,
           console (snd (script w)) = AddFailed TypeError :: AreaKeysHeader :: lines)
  /\ (forallb printable (extractAreaKeys areas) = true ->
      forallb printable (extractCuisineNames cuisinesJson) = false ->
      nonempty_list (skipn 4 (answers w)) = true ->
      trim (answer w 0) <> [] -> candidate_slug w <> [] -> trim (answer w 2) <> [] ->
      fst (script w) = Exited 1
      /\ files (snd (script w)) = files w
      /\ folders (snd (script w)) = folders w
      /\ answers (snd (script w)) = skipn 5 (answers w)
      /\ exists lines,
           console (snd (script w)) = AddFailed TypeError :: CuisinesHeader :: lines).
Proof.
  intros Hs Ha Hc. split; [|split].
  - intros members. cbn [printable].
    destruct (lookup (str "toString") members); split; congruence.
  - intros Ek Hn E0 E1.
    destruct (main_unprintable_areas w restaurants areas cuisinesJson
                Hs Ha Hc Ek Hn E0 E1) as [lines E].
    unfold script. rewrite E. cbn [fst snd files folders answers console].
    repeat split. now exists lines.
  - intros Ek En Hn E0 E1 E2.
    destruct (main_unprintable_cuisines w restaurants areas cuisinesJson
                Hs Ha Hc Ek En Hn E0 E1 E2) as [lines E].
    unfold script. rewrite E. cbn [fst snd files folders answers console].
    repeat split. now exists lines.
Qed.

(** X30. A photo folder that cannot be made stops the run at line 141,
    after the last question: on an input that is valid but for the folder,
    the script prints the rejection of [fs.mkdir] and exits with status 1;
    no file is written, the store included, and no folder is made. *)
Theorem rejected_folder_aborts (w : World) (restaurants : list value)
  (areas cuisinesJson : value) (code : string) :
  stored_records w = Some restaurants ->
  parsed w FILE_AREAS = Some areas -> parsed w FILE_CUISINES = Some cuisinesJson ->
  forallb printable (extractAreaKeys areas) = true ->
  forallb printable (extractCuisineNames cuisinesJson) = true ->
  nonempty_list (skipn 13 (answers w)) = true ->
  trim (answer w 0) <> [] -> candidate_slug w <> [] -> trim (answer w 2) <> [] ->
  parseList (answer w 5) <> [] ->
  mkdir_code (final_slug restaurants w) = Some code ->
  fst (main w) = Throw (SystemError code)
  /\ fst (script w) = Exited 1
  /\ files (snd (script w)) = files w
  /\ folders (snd (script w)) = folders w.
Proof.
  intros Hs Ha Hc Ek En Hn E0 E1 E2 E5 Em.
  assert (fst (main w) = Throw (SystemError code)) as Hm.
  { rewrite main_result, (verdict_loaded w restaurants areas cuisinesJson Hs Ha Hc).
    rewrite !(need_answered w 13) by (trivial; lia).
    rewrite (nonempty_true _ E0), (nonempty_true _ E1), Ek, (nonempty_true _ E2), En, Em.
    destruct (parseList (answer w 5)); [congruence | reflexivity]. }
  split; [exact Hm|]. split; [apply script_exit_1; eauto|].
  apply script_keeps. rewrite Hm. discriminate.
Qed.

End Checks.

(** ** The properties on example worlds *)

(** An equation between closed terms, by evaluation of its two sides. *)
Ltac by_evaluation :=
  lazymatch goal with
  | |- ?l = ?r => exact (@eq_refl _ r <: l = r)
  end.

Section Examples.
#[local] Existing Instance ascii_unicode.
#[local] Existing Instance literal_numbers.
#[local] Existing Instance example_host.

(** C3, the counterexample: on the plain-string table [["fenwick-island"]]
    the area loader does not return [["fenwick-island"]]. *)
Lemma area_loader_drops_plain_strings :
  extractAreaKeys (VArr [VStr (str "fenwick-island")])
  <> [VStr (str "fenwick-island")].
Proof. discriminate. Qed.

(** C1, at the failing input: the store holds [crabby-bills] and
    [crabby-bills-12345], the name normalizes to [crabby-bills] and the
    clock ends in 12345. The record gets the slug [crabby-bills-12345], which
    is the slug of a record of the store, and the store ends with two
    records of that slug. *)
Lemma suffixed_slug_collides :
  let w := crabby_world "$$" "Seafood" in
  stored_records w = Some example_records
  /\ candidate_slug w = str "crabby-bills"
  /\ final_slug example_records w = str "crabby-bills-12345"
  /\ has_string (existing_slugs example_records) (final_slug example_records w) = true
  /\ fst (script w) = Exited 0
  /\ option_map slugs_of (stored_records (snd (script w)))
     = Some [Some (VStr (str "crabby-bills"));
             Some (VStr (str "crabby-bills-12345"));
             Some (VStr (str "crabby-bills-12345"))].
Proof. cbv zeta. repeat apply conj; by_evaluation. Qed.

(** C2 on an example: the cuisines answer is a comma between blanks. *)
Lemma empty_cuisines_abort_example :
  let w := crabby_world "$$" " , " in
  fst (script w) = Exited 1
  /\ files (snd (script w)) = files w
  /\ (forall w0 : World,
        files (snd (script w0)) FILE_RESTAURANTS <> files w0 FILE_RESTAURANTS ->
        fst (script w0) = Exited 0 /\ valid_input w0 = true).
Proof.
  exact (empty_cuisines_abort (crabby_world "$$" " , ") eq_refl eq_refl).
Defined.

(** C4, the counterexample: with [areas.json] missing the script exits with
    status 1 and the store is as it was, on answers with which it ends with
    status 0 when the file is there. *)
Lemma missing_table_fails :
  let typed := example_answers "$$" "Seafood" in
  let w_missing :=
    example_world (Some example_store) None (Some example_cuisines) typed 0 in
  let w_there :=
    example_world (Some example_store) (Some example_areas)
      (Some example_cuisines) typed 0 in
  fst (script w_missing) = Exited 1
  /\ console (snd (script w_missing)) = [AddFailed (ENOENT FILE_AREAS)]
  /\ fst (script w_there) = Exited 0.
Proof. vm_compute. repeat split. Qed.

(** C6 on an example: the candidate [crabby-bills] is the slug of the
    first record of the store. *)
Lemma commit_appends_example :
  let w := crabby_world "$$" "Seafood, BBQ" in
  let entry := collected_entry example_records w in
  let committed := example_records ++ [entry] in
  fst (main w) = Ok tt
  /\ fst (script w) = Exited 0
  /\ files (snd (script w)) FILE_RESTAURANTS
     = Some (JSON_stringify (VArr committed) ++ [10])
  /\ firstn (List.length example_records) committed = example_records
  /\ (forall i r, nth_error example_records i = Some r ->
                  nth_error committed i = Some r)
  /\ nth_error committed (List.length example_records) = Some entry
  /\ List.length committed = S (List.length example_records)
  /\ member entry (str "slug") = Some (VStr (final_slug example_records w))
  /\ ((exists members,
         In (VObj members) example_records
         /\ lookup (str "slug") members = Some (VStr (candidate_slug w))) ->
      final_slug example_records w
      = candidate_slug w ++ str "-" ++ slice_last 5 (integer_toString (now w))
      /\ final_slug example_records w <> candidate_slug w)
  /\ (Forall number_stable (flat_map numbers_of example_records) ->
      stored_records (snd (script w)) = Some committed).
Proof.
  exact (commit_appends (crabby_world "$$" "Seafood, BBQ") example_records
           eq_refl eq_refl).
Defined.

(** C6, the counterexample: the store holds a record with the rating
    [1e400], read as an infinity. The run reaches its end, and the record
    read back from the store it leaves has the rating [null]: it is not the
    record that was there. *)
Lemma prior_infinity_is_rewritten :
  let w := infinity_world in
  stored_records w = Some infinity_records
  /\ fst (main w) = Ok tt
  /\ option_map (fun records => nth_error records 0) (stored_records (snd (script w)))
     = Some (Some (VObj [(str "name", VStr (str "Old Mill"));
                         (str "slug", VStr (str "old-mill"));
                         (str "rating", VNull)]))
  /\ option_map (fun records => nth_error records 0) (stored_records (snd (script w)))
     <> Some (nth_error infinity_records 0).
Proof.
  cbv zeta. repeat apply conj; try by_evaluation.
  intros E.
  assert (option_map (fun records => nth_error records 0)
            (stored_records (snd (script infinity_world)))
          = Some (Some (VObj [(str "name", VStr (str "Old Mill"));
                              (str "slug", VStr (str "old-mill"));
                              (str "rating", VNull)]))) as E' by by_evaluation.
  rewrite E' in E. discriminate E.
Qed.

(** The number [4.5] is read back from what is written for it. *)
Lemma rating_stable : number_stable (Finite (str "4.5")).
Proof.
  split; [reflexivity|]. intros [|c rest] Hd; [reflexivity|].
  destruct Hd as [-> | ->]; reflexivity.
Defined.

(** C5 on an example: a record with a name and the rating [4.5]. *)
Lemma store_roundtrip_example :
  let w := crabby_world "$$" "Seafood" in
  fst (readJson FILE_RESTAURANTS
         (snd (writeJson FILE_RESTAURANTS (VArr rated_records) w)))
  = Ok (VArr rated_records).
Proof.
  apply (store_roundtrip rated_records (crabby_world "$$" "Seafood")).
  repeat first [ apply canonical_num, rating_stable | constructor ].
Defined.

(** C5, the counterexample: a record with the rating [1e400], which
    [JSON.parse] reads as an infinity. [writeJson] writes [null] for it, and
    [readJson] gives back a record with the rating [null]. *)
Lemma infinity_is_not_read_back :
  let w := crabby_world "$$" "Seafood" in
  JSON_parse (quoted "[{'name':'Old Mill','slug':'old-mill','rating':1e400}]")
  = Some (VArr infinity_records)
  /\ fst (readJson FILE_RESTAURANTS
           (snd (writeJson FILE_RESTAURANTS (VArr infinity_records) w)))
     = Ok (VArr [VObj [(str "name", VStr (str "Old Mill"));
                       (str "slug", VStr (str "old-mill"));
                       (str "rating", VNull)]])
  /\ fst (readJson FILE_RESTAURANTS
           (snd (writeJson FILE_RESTAURANTS (VArr infinity_records) w)))
     <> Ok (VArr infinity_records).
Proof.
  cbv zeta. repeat apply conj; try by_evaluation.
  intros E.
  assert (fst (readJson FILE_RESTAURANTS
                 (snd (writeJson FILE_RESTAURANTS (VArr infinity_records)
                         (crabby_world "$$" "Seafood"))))
          = Ok (VArr [VObj [(str "name", VStr (str "Old Mill"));
                            (str "slug", VStr (str "old-mill"));
                            (str "rating", VNull)]])) as E' by by_evaluation.
  rewrite E' in E. discriminate E.
Qed.

(** C8, the counterexample: the operator types [cheap] and the committed
    record has the price [cheap], which is none of the tiers. *)
Lemma price_is_not_checked :
  let w := crabby_world "cheap" "Seafood" in
  fst (script w) = Exited 0
  /\ option_map (fun records => member (last records VNull) (str "price"))
       (stored_records (snd (script w)))
     = Some (Some (VStr (str "cheap")))
  /\ ~ In (str "cheap") [str "$"; str "$$"; str "$$$"].
Proof.
  vm_compute. repeat split. intros [E|[E|[E|[]]]]; discriminate E.
Qed.

(** C8 on an example: an empty answer gives [$$]. *)
Lemma committed_price_example :
  let w := crabby_world "  " "Seafood" in
  let entry := collected_entry example_records w in
  let price :=
    if nonempty (trim (answer w 4)) then trim (answer w 4) else str "$$" in
  files (snd (script w)) FILE_RESTAURANTS
  = Some (JSON_stringify (VArr (example_records ++ [entry])) ++ [10])
  /\ member entry (str "price") = Some (VStr price)
  /\ (Forall number_stable (flat_map numbers_of example_records) ->
      exists records,
        stored_records (snd (script w)) = Some records
        /\ member (last records VNull) (str "price") = Some (VStr price)).
Proof.
  exact (committed_price (crabby_world "  " "Seafood") example_records
           eq_refl eq_refl).
Defined.


(** X5 on an example: a name of blanks, with the store and the tables of
    the examples. *)
Lemma required_fields_example :
  let w :=
    example_world (Some example_store) (Some example_areas) (Some example_cuisines)
      ["   "; ""; "fenwick-island"]%string 0 in
  fst (main w) = Throw (Error "Name is required.").
Proof.
  refine (proj1 (required_fields
                   (example_world (Some example_store) (Some example_areas)
                      (Some example_cuisines) ["   "; ""; "fenwick-island"]%string 0)
                   example_records _ _ eq_refl eq_refl eq_refl) eq_refl eq_refl).
Defined.

(** X6 on an example: the store is an object, not an array. *)
Lemma malformed_store_aborts_example :
  let w :=
    example_world (Some (quoted "{'restaurants':[]}")) (Some example_areas)
      (Some example_cuisines) (example_answers "$$" "Seafood") 0 in
  fst (script w) = Exited 1
  /\ files (snd (script w)) = files w
  /\ answers (snd (script w)) = answers w.
Proof.
  exact (malformed_store_aborts
           (example_world (Some (quoted "{'restaurants':[]}")) (Some example_areas)
              (Some example_cuisines) (example_answers "$$" "Seafood") 0)
           eq_refl).
Defined.

(** X7 on an example. *)
Lemma photo_provisioning_example :
  let w := crabby_world "$$" "Seafood" in
  let slug := final_slug example_records w in
  member (collected_entry example_records w) (str "photos")
  = Some (VArr [VStr (str "/images/restaurants/" ++ slug ++ str "/1.jpg")])
  /\ files (snd (script w)) (PhotoFile slug)
     = match files w (PhotoFile slug) with
       | Some photo => Some photo
       | None => files w PLACEHOLDER
       end
  /\ files (snd (script w)) PLACEHOLDER = files w PLACEHOLDER
  /\ (forall p, p <> FILE_RESTAURANTS -> p <> PhotoFile slug ->
                files (snd (script w)) p = files w p).
Proof.
  exact (photo_provisioning (crabby_world "$$" "Seafood") example_records
           eq_refl eq_refl).
Defined.

(** X11 on an example: the cuisines of the question. *)
Lemma parseList_join_example :
  parseList (join (str ", ") [str "BBQ"; str "Seafood"]) = [str "BBQ"; str "Seafood"].
Proof.
  apply (parseList_join [str "BBQ"; str "Seafood"]).
  repeat constructor; discriminate.
Defined.

(** X14 on an example. *)
Lemma slugify_ignores_case_example :
  slugify (str "Crabby Bill's") = slugify (str "CRABBY bill's").
Proof.
  apply (slugify_ignores_case (str "Crabby Bill's") (str "CRABBY bill's"));
    reflexivity.
Defined.

(** X15 on an example: a slash between two words. *)
Lemma slugify_joins_parts_example :
  slugify (str "Fish/Chips")
  = join (str "-") (filter nonempty [slugify (str "Fish"); slugify (str "Chips")]).
Proof.
  apply (slugify_joins_parts (str "Fish") (str "Chips") 47); reflexivity.
Defined.

(** X16 on an example. *)
Lemma slugify_apostrophe_ampersand_example :
  slugify (str "Surf" ++ 39 :: str "Turf") = slugify (str "Surf" ++ str "Turf")
  /\ slugify (str "Surf" ++ 38 :: str "Turf")
     = slugify (str "Surf" ++ str " and " ++ str "Turf").
Proof.
  apply (slugify_apostrophe_ampersand (str "Surf") (str "Turf")). reflexivity.
Defined.

(** X17 on an example: the records of the example store. *)
Lemma slug_taken_by_record_example :
  has_string (existing_slugs example_records) (str "crabby-bills") = true
  <-> exists members,
        In (VObj members) example_records
        /\ lookup (str "slug") members = Some (VStr (str "crabby-bills")).
Proof.
  apply (slug_taken_by_record example_records (str "crabby-bills")). discriminate.
Defined.

(** X25 on an example: the slug with its suffix. *)
Lemma final_slug_shape_example :
  let w := crabby_world "$$" "Seafood" in
  slug_shaped (final_slug example_records w)
  /\ (has_string (existing_slugs example_records) (candidate_slug w) = true ->
      (10000 <= now w)%Z ->
      exists suffix,
        final_slug example_records w = candidate_slug w ++ 45 :: suffix
        /\ List.length suffix = 5%nat
        /\ forallb is_digit suffix = true).
Proof.
  apply (final_slug_shape example_records (crabby_world "$$" "Seafood"));
    [discriminate | vm_compute; discriminate].
Defined.

(** X18 on an example. *)
Lemma commit_keeps_slugs_distinct_example :
  let w := crabby_world "$$" "Seafood" in
  let committed := example_records ++ [collected_entry example_records w] in
  existing_slugs committed
  = existing_slugs example_records ++ [VStr (final_slug example_records w)]
  /\ has_string (existing_slugs committed) (final_slug example_records w) = true
  /\ (has_string (existing_slugs example_records) (candidate_slug w) = false ->
      has_string (existing_slugs example_records) (final_slug example_records w)
      = false)
  /\ (NoDup (existing_slugs example_records) ->
      has_string (existing_slugs example_records) (final_slug example_records w)
      = false ->
      NoDup (existing_slugs committed)).
Proof.
  apply (commit_keeps_slugs_distinct (crabby_world "$$" "Seafood") example_records).
  discriminate.
Defined.



(** X21 on an example: the area table of the examples. *)
Lemma unknown_area_only_warns_example :
  let w := crabby_world "$$" "Seafood" in
  let areas :=
    VArr [VObj [(str "key", VStr (str "fenwick-island"));
                (str "name", VStr (str "Fenwick Island"))]] in
  let areaKey := trim (answer w 2) in
  fst (script w) = Exited 0
  /\ member (collected_entry example_records w) (str "areaKey")
     = Some (VStr areaKey)
  /\ exists lines,
       console (snd (script w)) = lines ++ console w
       /\ (In (UnknownArea areaKey) lines
           <-> extractAreaKeys areas <> []
               /\ has_string (extractAreaKeys areas) areaKey = false).
Proof.
  exact (unknown_area_only_warns (crabby_world "$$" "Seafood") example_records _
           eq_refl eq_refl eq_refl).
Defined.

(** X22 on an example: no photo yet, and a placeholder. *)
Lemma photo_report_matches_example :
  let w := crabby_world "$$" "Seafood" in
  let slug := final_slug example_records w in
  exists lines,
    console (snd (script w)) = lines ++ console w
    /\ (In (PlaceholderCopied slug) lines
        <-> files w (PhotoFile slug) = None /\ files w PLACEHOLDER <> None)
    /\ (In (PlaceholderMissing slug) lines
        <-> files w (PhotoFile slug) = None /\ files w PLACEHOLDER = None)
    /\ (In (PlaceholderCopied slug) lines ->
        files (snd (script w)) (PhotoFile slug) = files w PLACEHOLDER)
    /\ (In (PlaceholderMissing slug) lines ->
        files (snd (script w)) (PhotoFile slug) = None).
Proof.
  exact (photo_report_matches (crabby_world "$$" "Seafood") example_records
           eq_refl eq_refl).
Defined.

(** X23 on an example. *)
Lemma questions_in_order_example :
  let w := crabby_world "$$" "Seafood" in
  exists lines,
    console (snd (script w)) = lines ++ console w
    /\ rev (asked lines)
       = [QName; QSlug (slugify (trim (answer w 0))); QAreaKey; QAddress; QPrice;
          QCuisines; QVibes; QGoodFor; QShortBlurb; QLongBlurb; QMustTry;
          QWebsite; QMenuUrl; QFeatured].
Proof.
  exact (questions_in_order (crabby_world "$$" "Seafood") example_records
           eq_refl eq_refl).
Defined.


(** X28 on an example: the lines of the examples with blanks around them. *)
Lemma answers_ignore_outer_space_example :
  let w := crabby_world "$$" "Seafood" in
  let w' := padded_world in
  collected_entry example_records w = collected_entry example_records w'
  /\ (fst (script w) = Exited 0 <-> fst (script w') = Exited 0)
  /\ files (snd (script w)) FILE_RESTAURANTS
     = files (snd (script w')) FILE_RESTAURANTS.
Proof.
  apply (answers_ignore_outer_space example_records
           (crabby_world "$$" "Seafood") padded_world).
  - reflexivity.
  - vm_compute. reflexivity.
  - reflexivity.
Defined.


(** X29 on an example: the area table [[{"key":{"toString":1}}]]. *)
Lemma unprintable_suggestion_aborts_example :
  let w := unprintable_world in
  fst (script w) = Exited 1
  /\ files (snd (script w)) = files w
  /\ folders (snd (script w)) = folders w
  /\ answers (snd (script w)) = skipn 2 (answers w)
  /\ exists lines,
       console (snd (script w)) = AddFailed TypeError :: AreaKeysHeader :: lines.
Proof.
  refine (proj1 (proj2 (unprintable_suggestion_aborts unprintable_world
                          example_records _ _ eq_refl eq_refl eq_refl))
            eq_refl eq_refl _ _); discriminate.
Defined.

(** X30 on an example: a name of 300 letters, whose slug is too long for
    a folder. *)
Lemma rejected_folder_aborts_example :
  let w := long_name_world in
  fst (main w) = Throw (SystemError "ENAMETOOLONG")
  /\ fst (script w) = Exited 1
  /\ files (snd (script w)) = files w
  /\ folders (snd (script w)) = folders w.
Proof.
  eapply (rejected_folder_aborts long_name_world [] _ _ "ENAMETOOLONG");
    try (vm_compute; reflexivity); vm_compute; discriminate.
Defined.

End Examples.
